(** * Verification of the transfer queue and the verified object write

    The development embeds these parts of the repository:

    - [Lfs]: [bufferDownloadedFile] (package lfs), the write of a downloaded
      object through a temporary file, its hash check and the final rename;
      and its callers [downloadObject] and [PointerSmudgeObject], which
      decide whether a local object is kept or fetched again;
    - [Tq]: the transfer queue (package tq): [retryCounter], [Batch],
      [TransferQueue] with [Add], [collectBatches],
      [enqueueAndCollectRetriesFor], [addToAdapter], [handleTransferResult],
      [Watch] and [Wait]; the batch client [tqClient.Batch]; and the
      constructors [NewDownloadQueue] and [NewDownloadCheckQueue] of
      package lfs, which build a queue;
    - [Gitmedia]: [SubCommand] and [NewCommand] (package gitmedia), which
      split the command line.

    Go maps are finite maps ([gmap]), slices and channels are lists, [int] is a
    64-bit integer whose increment wraps around, and everything outside the
    process (file system calls, the batch endpoint, the transfer adapter, the
    HTTP client) is an explicit oracle. *)

From Stdlib Require Import ZArith Lia.
From stdpp Require Import gmap strings list sorting.

Local Open Scope Z_scope.

(** ** Package lfs: [bufferDownloadedFile] *)
Module Lfs.

(** A path is the list of its components; [filepath.Base] is the last one, and
    "." for the empty path. *)
Abbreviation path := (list string).

Definition filepath_Base (p : path) : string := List.last p ".".

(** Errors of the operating system, as far as the code tells them apart
    ([os.IsNotExist]). *)
Inductive os_error :=
| ENOENT
| EEXIST
| EIO (msg : string).

Definition os_IsNotExist (e : option os_error) : bool :=
  match e with Some ENOENT => true | _ => false end.

(** The errors [bufferDownloadedFile] returns, one constructor per
    [fmt.Errorf] (or plain [return err]) of the source. *)
Inductive error :=
| ErrTempFile (e : os_error)
| ErrWrite (name : path) (e : os_error)
| ErrClose (name : path) (e : os_error)
| ErrOid (oid actual : string) (written : Z)
| ErrStat (e : os_error)
| ErrChmod (name : path) (e : os_error)
| ErrRename (filename name : path) (e : os_error).

Record file := File { f_data : list Byte.byte; f_mode : Z }.

(** The file system: which file each path names. *)
Abbreviation FS := (gmap path file).

(** What the environment decides for one call: the suffix [ioutil.TempFile]
    draws, and which system call fails, if any. *)
Record syscalls := Syscalls {
  sc_suffix : string;
  sc_tempfile : option os_error;
  sc_copy : option (nat * os_error);
  sc_close : option os_error;
  sc_stat : option os_error;
  sc_chmod : option os_error;
  sc_rename : option os_error
}.

(** The result of a call: the returned error ([None] is nil) and the file
    system after each system call that changed it, in order. *)
Record outcome := Outcome { ret : option error; trace : list FS }.

Definition final (fs : FS) (o : outcome) : FS := List.last (trace o) fs.

Definition mode_0600 : Z := 384.

(** [os.Remove], [os.Chmod] and [os.Rename] on the model; a rename replaces the
    destination in one step. *)
Definition os_Remove (name : path) (fs : FS) : FS := delete name fs.

Definition os_Chmod (name : path) (mode : Z) (fs : FS) : FS :=
  alter (fun f => File (f_data f) mode) name fs.

Definition os_Rename (name filename : path) (fs : FS) : FS :=
  match fs !! name with
  | Some f => <[filename := f]> (delete name fs)
  | None => fs
  end.

Section BufferDownloadedFile.

(** [tools.NewHashingReader(reader).Hash()]: the hex digest of the bytes read.
    Package tools is not among the sources; the digest is a parameter. *)
Variable Hash : list Byte.byte -> string.

(** [LocalObjectTempDir()], the scratch directory of the object store. *)
Variable LocalObjectTempDir : path.

Variable sc : syscalls.

(** [ioutil.TempFile(dir, prefix)]: a new, empty file [dir/prefix<suffix>] with
    mode 0600; it fails when no free name is found. *)
Definition ioutil_TempFile (dir : path) (prefix : string) (fs : FS)
  : os_error + (path * FS) :=
  match sc_tempfile sc with
  | Some e => inl e
  | None =>
      let name := dir ++ [prefix +:+ sc_suffix sc] in
      match fs !! name with
      | Some _ => inl EEXIST
      | None => inr (name, <[name := File [] mode_0600]> fs)
      end
  end.

(** Modelled from the spec: [tools.CopyWithCallback] is not among the sources.
    It "streams reader into a new temporary file", here one byte at a time so
    that every half-written state of the temporary file is a state of the
    trace; it returns the number of bytes copied and the first read or write
    error. The declared [size] only feeds the progress callback ("Used for the
    progress bar in the optional CopyCallback", says the source). *)
Definition tools_CopyWithCallback (name : path) (reader : list Byte.byte)
    (size : Z) (fs : FS) : nat * option os_error * list FS :=
  let n := match sc_copy sc with
           | Some (k, _) => Nat.min k (length reader)
           | None => length reader
           end in
  (n, snd <$> sc_copy sc,
   (fun k => <[name := File (take k reader) mode_0600]> fs) <$> seq 1 n).

(** [os.Stat(filename)]: the mode of the file, or an error. *)
Definition os_Stat (filename : path) (fs : FS) : os_error + Z :=
  match sc_stat sc with
  | Some e => inl e
  | None =>
      match fs !! filename with
      | Some f => inr (f_mode f)
      | None => inl ENOENT
      end
  end.

(** The deferred function of the source: it reads the variable [err] of the
    function body when the function returns, and removes the temporary file
    when that variable is not nil. *)
Definition deferred_remove (name : path) (fs0 : FS) (err : option os_error)
    (r : option error) (tr : list FS) : outcome :=
  match err with
  | Some _ => Outcome r (tr ++ [os_Remove name (List.last tr fs0)])
  | None => Outcome r tr
  end.

(** [bufferDownloadedFile(filename, reader, size, cb)]. The variable [err] of
    the source is assigned by [ioutil.TempFile], [tools.CopyWithCallback] and
    [os.Stat]; the [err] of [f.Close], [os.Chmod] and [os.Rename] are new
    variables of their [if] statements, and the hash check returns a fresh
    error without assigning [err]. *)
Definition bufferDownloadedFile (filename : path) (reader : list Byte.byte)
    (size : Z) (fs : FS) : outcome :=
  let oid := filepath_Base filename in
  match ioutil_TempFile LocalObjectTempDir (oid +:+ "-") fs with
  | inl e => Outcome (Some (ErrTempFile e)) []
  | inr (name, fs1) =>
      let '(written, err, writes) := tools_CopyWithCallback name reader size fs1 in
      let tr := fs1 :: writes in
      match err with
      | Some e => deferred_remove name fs err (Some (ErrWrite name e)) tr
      | None =>
          match sc_close sc with
          | Some e => deferred_remove name fs err (Some (ErrClose name e)) tr
          | None =>
              let actual := Hash (take written reader) in
              if negb (String.eqb actual oid)
              then deferred_remove name fs err
                     (Some (ErrOid oid actual (Z.of_nat written))) tr
              else
                let fs2 := List.last tr fs in
                let st := os_Stat filename fs2 in
                let err := match st with inl e => Some e | inr _ => None end in
                match st with
                | inl e =>
                    if os_IsNotExist err
                    then
                      match sc_rename sc with
                      | Some e' =>
                          deferred_remove name fs err
                            (Some (ErrRename filename name e')) tr
                      | None =>
                          deferred_remove name fs err None
                            (tr ++ [os_Rename name filename fs2])
                      end
                    else deferred_remove name fs err (Some (ErrStat e)) tr
                | inr mode =>
                    match sc_chmod sc with
                    | Some e' =>
                        deferred_remove name fs err (Some (ErrChmod name e')) tr
                    | None =>
                        let fs3 := os_Chmod name mode fs2 in
                        let tr := tr ++ [fs3] in
                        match sc_rename sc with
                        | Some e' =>
                            deferred_remove name fs err
                              (Some (ErrRename filename name e')) tr
                        | None =>
                            deferred_remove name fs err None
                              (tr ++ [os_Rename name filename fs3])
                        end
                    end
                end
          end
      end
  end.

(** *** Properties of [bufferDownloadedFile] *)

Lemma string_length_app (a b : string) :
  String.length (a +:+ b) = (String.length a + String.length b)%nat.
Proof. induction a as [|c a IH]; simpl; [done | by rewrite IH]. Qed.

(** The temporary file is never the canonical file: its last component is the
    oid followed by a dash and the suffix. *)
Lemma ioutil_TempFile_fresh filename fs name fs1 :
  ioutil_TempFile LocalObjectTempDir (filepath_Base filename +:+ "-") fs
    = inr (name, fs1) ->
  name <> filename /\ fs !! name = None /\
  fs1 = <[name := File [] mode_0600]> fs.
Proof.
  unfold ioutil_TempFile. destruct (sc_tempfile sc); [done |].
  destruct (fs !! _) eqn:Hfree; [done |].
  intros [= <- <-]. split_and!; [| done | done].
  intros Heq.
  pose proof (List.last_last LocalObjectTempDir
    ((filepath_Base filename +:+ "-") +:+ sc_suffix sc) ".") as Hlast.
  rewrite Heq in Hlast. fold (filepath_Base filename) in Hlast.
  apply (f_equal String.length) in Hlast.
  rewrite !string_length_app in Hlast. simpl in Hlast. lia.
Qed.

Lemma copy_written_ok name reader size fs n writes :
  tools_CopyWithCallback name reader size fs = (n, None, writes) ->
  n = length reader /\
  writes = (fun k => <[name := File (take k reader) mode_0600]> fs)
             <$> seq 1 (length reader).
Proof.
  unfold tools_CopyWithCallback. destruct (sc_copy sc) as [[k e]|]; [done |].
  by intros [= <- <-].
Qed.

(** Every state the copy goes through differs from the state before it at the
    temporary name only. *)
Lemma copy_writes_frame name reader size fs filename :
  name <> filename ->
  Forall (fun s : FS => s !! filename = fs !! filename)
    (tools_CopyWithCallback name reader size fs).2.
Proof.
  intros Hne. unfold tools_CopyWithCallback. simpl.
  apply Forall_fmap, Forall_forall. intros k _. simpl.
  by rewrite lookup_insert_ne.
Qed.

Lemma last_fmap_seq {A} (f : nat -> A) (n : nat) (d : A) :
  List.last (f <$> seq 1 n) d = match n with O => d | S _ => f n end.
Proof.
  destruct n as [|n]; [done |].
  rewrite seq_S, fmap_app. apply List.last_last.
Qed.

Lemma last_cons_default {A} (x d : A) (l : list A) :
  List.last (x :: l) d = List.last l x.
Proof.
  revert x d. induction l as [|y l IH]; intros x d; [done |].
  change (List.last (x :: y :: l) d) with (List.last (y :: l) d).
  by rewrite !IH.
Qed.

Lemma copy_writes_last name reader size fs n writes d :
  tools_CopyWithCallback name reader size fs = (n, None, writes) ->
  fs !! name = Some (File [] mode_0600) ->
  List.last (fs :: writes) d !! name = Some (File reader mode_0600) /\
  forall p, p <> name -> List.last (fs :: writes) d !! p = fs !! p.
Proof.
  intros [-> ->]%copy_written_ok Hname.
  rewrite last_cons_default, last_fmap_seq.
  destruct reader as [|b reader]; [done |]. simpl length.
  rewrite take_ge by (simpl; lia). split; [apply lookup_insert_eq |].
  intros p Hp. by rewrite lookup_insert_ne.
Qed.

(** The deferred removal touches the temporary name only. *)
Lemma deferred_remove_frame (P : option file -> Prop) name filename fs0 err r tr :
  name <> filename ->
  tr <> [] ->
  Forall (fun s : FS => P (s !! filename)) tr ->
  Forall (fun s : FS => P (s !! filename))
    (trace (deferred_remove name fs0 err r tr)) /\
  final fs0 (deferred_remove name fs0 err r tr) !! filename
    = List.last tr fs0 !! filename /\
  ret (deferred_remove name fs0 err r tr) = r.
Proof.
  intros Hne Htr Hall. unfold deferred_remove, final, os_Remove.
  assert (Hlast : P (List.last tr fs0 !! filename)).
  { destruct tr as [|s tr] using rev_ind; [done |].
    rewrite List.last_last. apply Forall_app in Hall as [_ Hs].
    exact (Forall_inv Hs). }
  destruct err; simpl; [| done].
  rewrite List.last_last, lookup_delete_ne by done.
  split; [| done]. apply Forall_app. split; [done |].
  constructor; [| constructor]. by rewrite lookup_delete_ne.
Qed.

(** The canonical path along a whole call: untouched when the call fails, and
    either untouched or holding the complete, verified object when it
    succeeds. *)
Lemma bufferDownloadedFile_trace filename reader size fs :
  let o := bufferDownloadedFile filename reader size fs in
  match ret o with
  | Some _ => Forall (fun s : FS => s !! filename = fs !! filename) (trace o)
  | None =>
      Hash reader = filepath_Base filename /\
      Forall (fun s : FS => s !! filename = fs !! filename \/
                exists m, s !! filename = Some (File reader m)) (trace o) /\
      exists m, final fs o !! filename = Some (File reader m)
  end.
Proof.
  unfold bufferDownloadedFile.
  destruct (ioutil_TempFile _ _ _) as [e|[name fs1]] eqn:Htmp; [by constructor |].
  apply ioutil_TempFile_fresh in Htmp as (Hne & Hfree & ->).
  destruct (tools_CopyWithCallback _ _ _ _) as [[written err] writes] eqn:Hcopy.
  pose proof (copy_writes_frame name reader size
                (<[name := File [] mode_0600]> fs) filename Hne) as Hw.
  rewrite Hcopy in Hw. simpl in Hw.
  assert (Htr : Forall (fun s : FS => s !! filename = fs !! filename)
                  (<[name := File [] mode_0600]> fs :: writes)).
  { constructor; [by rewrite lookup_insert_ne |].
    eapply Forall_impl; [exact Hw |]. intros s ->. by rewrite lookup_insert_ne. }
  set (tr := _ :: writes) in *.
  assert (Hnil : tr <> []) by done.
  set (P := fun x : option file => x = fs !! filename).
  destruct err as [e|].
  { by destruct (deferred_remove_frame P name filename fs (Some e)
                   (Some (ErrWrite name e)) tr Hne Hnil Htr) as (? & _ & ->). }
  destruct (sc_close sc) as [e|].
  { by destruct (deferred_remove_frame P name filename fs None
                   (Some (ErrClose name e)) tr Hne Hnil Htr) as (? & _ & ->). }
  destruct (copy_writes_last _ _ _ _ _ _ fs Hcopy) as [Hdata Hframe];
    [apply lookup_insert_eq |].
  apply copy_written_ok in Hcopy as [-> _]. rewrite firstn_all.
  destruct (String.eqb (Hash reader) (filepath_Base filename)) eqn:Hhash;
    cbn [negb].
  2: { by destruct (deferred_remove_frame P name filename fs None
         (Some (ErrOid (filepath_Base filename) (Hash reader)
                  (Z.of_nat (length reader)))) tr Hne Hnil Htr) as (? & _ & ->). }
  apply String.eqb_eq in Hhash.
  fold tr in Hdata, Hframe.
  set (fs2 := List.last tr fs) in *.
  set (Q := fun x : option file =>
              x = fs !! filename \/ exists m, x = Some (File reader m)).
  assert (HtrQ : Forall (fun s : FS => Q (s !! filename)) tr).
  { eapply Forall_impl; [exact Htr |]. intros s Hs. by left. }
  assert (Hrename : forall s : FS, forall m,
            s !! name = Some (File reader m) ->
            os_Rename name filename s !! filename = Some (File reader m)).
  { intros s m Hs. unfold os_Rename. rewrite Hs. apply lookup_insert_eq. }
  destruct (os_Stat filename fs2) as [e|mode] eqn:Hstat.
  - destruct (os_IsNotExist (Some e)) eqn:Hnotexist.
    + destruct (sc_rename sc) as [e'|].
      * by destruct (deferred_remove_frame P name filename fs (Some e)
            (Some (ErrRename filename name e')) tr Hne Hnil Htr) as (? & _ & ->).
      * destruct (deferred_remove_frame Q name filename fs (Some e) None
            (tr ++ [os_Rename name filename fs2]) Hne) as (Hall & Hfin & ->).
        { by destruct tr. }
        { apply Forall_app. split; [done |]. constructor; [| constructor].
          right. eexists. by apply Hrename. }
        split_and!; [done | done |].
        rewrite Hfin, List.last_last. eexists. by apply Hrename.
    + by destruct (deferred_remove_frame P name filename fs (Some e)
          (Some (ErrStat e)) tr Hne Hnil Htr) as (? & _ & ->).
  - destruct (sc_chmod sc) as [e'|].
    { by destruct (deferred_remove_frame P name filename fs None
          (Some (ErrChmod name e')) tr Hne Hnil Htr) as (? & _ & ->). }
    set (fs3 := os_Chmod name mode fs2).
    assert (Hfs3 : fs3 !! filename = fs !! filename).
    { unfold fs3, os_Chmod. rewrite lookup_alter_ne by done.
      unfold fs2. rewrite Hframe by done. by rewrite lookup_insert_ne. }
    assert (Hfs3n : fs3 !! name = Some (File reader mode)).
    { unfold fs3, os_Chmod. by rewrite lookup_alter_eq, Hdata. }
    destruct (sc_rename sc) as [e'|].
    + destruct (deferred_remove_frame P name filename fs None
          (Some (ErrRename filename name e')) (tr ++ [fs3]) Hne)
        as (Hall & _ & ->); [by destruct tr | | done].
      apply Forall_app. split; [done |]. by constructor.
    + destruct (deferred_remove_frame Q name filename fs None None
          ((tr ++ [fs3]) ++ [os_Rename name filename fs3]) Hne)
        as (Hall & Hfin & ->).
      { by destruct (tr ++ [fs3]). }
      { rewrite !Forall_app. split_and!; [done | |].
        - constructor; [| constructor]. by left.
        - constructor; [| constructor]. right. eexists. by apply Hrename. }
      split_and!; [done | done |].
      rewrite Hfin, List.last_last. eexists. by apply Hrename.
Qed.

(** The name [ioutil.TempFile] gives the temporary file of [filename]. *)
Definition temp_name (filename : path) : path :=
  LocalObjectTempDir ++ [(filepath_Base filename +:+ "-") +:+ sc_suffix sc].

Lemma ioutil_TempFile_ok filename fs :
  sc_tempfile sc = None ->
  fs !! temp_name filename = None ->
  ioutil_TempFile LocalObjectTempDir (filepath_Base filename +:+ "-") fs
    = inr (temp_name filename, <[temp_name filename := File [] mode_0600]> fs).
Proof.
  intros Htmp Hfree. unfold ioutil_TempFile. rewrite Htmp.
  fold (temp_name filename). by rewrite Hfree.
Qed.

Lemma copy_ok name reader size fs :
  sc_copy sc = None ->
  tools_CopyWithCallback name reader size fs
    = (length reader, None,
       (fun k => <[name := File (take k reader) mode_0600]> fs)
         <$> seq 1 (length reader)).
Proof. intros Hcopy. unfold tools_CopyWithCallback. by rewrite Hcopy. Qed.

(** When the streamed hash differs from the oid, the call returns the hash
    error and leaves the temporary file, with the whole content, in the scratch
    directory: the deferred function sees the variable [err] still nil. *)
Lemma bufferDownloadedFile_hash_mismatch filename reader size fs :
  sc_tempfile sc = None ->
  fs !! temp_name filename = None ->
  sc_copy sc = None ->
  sc_close sc = None ->
  Hash reader <> filepath_Base filename ->
  let o := bufferDownloadedFile filename reader size fs in
  ret o = Some (ErrOid (filepath_Base filename) (Hash reader)
                  (Z.of_nat (length reader))) /\
  final fs o !! temp_name filename = Some (File reader mode_0600).
Proof.
  intros Htmp Hfree Hcopy Hclose Hhash. unfold bufferDownloadedFile.
  rewrite ioutil_TempFile_ok by done.
  pose proof (copy_ok (temp_name filename) reader size
    (<[temp_name filename := File [] mode_0600]> fs) Hcopy) as Hc.
  rewrite Hc, Hclose, firstn_all.
  apply String.eqb_neq in Hhash. rewrite Hhash. cbn [negb].
  unfold deferred_remove, final. cbn [ret trace]. split; [done |].
  eapply copy_writes_last; [exact Hc | apply lookup_insert_eq].
Qed.

(** The sibling path: when the copy itself fails, [err] is set and the deferred
    function removes the temporary file. *)
Lemma bufferDownloadedFile_copy_error filename reader size fs k e :
  sc_tempfile sc = None ->
  fs !! temp_name filename = None ->
  sc_copy sc = Some (k, e) ->
  let o := bufferDownloadedFile filename reader size fs in
  ret o = Some (ErrWrite (temp_name filename) e) /\
  final fs o !! temp_name filename = None.
Proof.
  intros Htmp Hfree Hcopy. unfold bufferDownloadedFile.
  rewrite ioutil_TempFile_ok by done.
  unfold tools_CopyWithCallback. rewrite Hcopy. cbn [fmap option_fmap option_map snd].
  unfold deferred_remove, final, os_Remove. cbn [ret trace]. split; [done |].
  rewrite List.last_last. apply lookup_delete_eq.
Qed.

(** The declared size takes no part in the outcome. *)
Lemma bufferDownloadedFile_size_irrelevant filename reader size size' fs :
  bufferDownloadedFile filename reader size fs
  = bufferDownloadedFile filename reader size' fs.
Proof. reflexivity. Qed.

Lemma bufferDownloadedFile_success filename reader size fs :
  sc_tempfile sc = None ->
  fs !! temp_name filename = None ->
  sc_copy sc = None ->
  sc_close sc = None ->
  Hash reader = filepath_Base filename ->
  sc_stat sc = None ->
  sc_chmod sc = None ->
  sc_rename sc = None ->
  ret (bufferDownloadedFile filename reader size fs) = None.
Proof.
  intros Htmp Hfree Hcopy Hclose Hhash Hstat Hchmod Hrename.
  unfold bufferDownloadedFile.
  rewrite ioutil_TempFile_ok by done.
  rewrite (copy_ok _ _ _ _ Hcopy), Hclose, firstn_all.
  apply String.eqb_eq in Hhash. rewrite Hhash. cbn [negb].
  unfold os_Stat. rewrite Hstat, Hchmod, Hrename.
  unfold deferred_remove.
  by destruct (List.last _ _ !! filename).
Qed.

End BufferDownloadedFile.

(** *** A concrete store for the examples *)

(** A stand-in digest for the examples: the digest of the one-byte content "a"
    and of the empty content, and a third value for everything else. *)
Definition example_digest (data : list Byte.byte) : string :=
  match data with
  | [] => "e3b0c442"
  | [Byte.x61] => "ca978112"
  | _ => "0badc0de"
  end.

Definition example_tempdir : path := ["lfs"; "tmp"; "objects"].

Definition example_filename : path := ["lfs"; "objects"; "ca"; "97"; "ca978112"].

(** No system call fails. *)
Definition sc_ok : syscalls :=
  Syscalls "123456" None None None None None None.

(** The store before the call: an older object at the canonical path. *)
Definition example_fs : FS :=
  {[ example_filename := File [Byte.x62; Byte.x62] 420 ]}.

(** C5. Every call of [bufferDownloadedFile] that returns an error leaves the
    canonical path as it was, in every state the file system goes through and
    in the final one; in every state of any call the canonical path holds
    either what it held before or the complete content whose hash is the oid,
    which only the final rename of a successful call puts there. *)
Theorem bufferDownloadedFile_canonical_path
    (Hash : list Byte.byte -> string) (tmpdir : path) (sc : syscalls)
    (filename : path) (reader : list Byte.byte) (size : Z) (fs : FS) :
  let o := bufferDownloadedFile Hash tmpdir sc filename reader size fs in
  (forall e, ret o = Some e ->
     Forall (fun s : FS => s !! filename = fs !! filename) (trace o) /\
     final fs o !! filename = fs !! filename) /\
  Forall (fun s : FS => s !! filename = fs !! filename \/
            (ret o = None /\ Hash reader = filepath_Base filename /\
             exists m, s !! filename = Some (File reader m))) (trace o) /\
  (ret o = None -> exists m, final fs o !! filename = Some (File reader m)).
Proof.
  intros o.
  pose proof (bufferDownloadedFile_trace Hash tmpdir sc filename reader size fs)
    as Htrace.
  cbv zeta in Htrace. fold o in Htrace.
  destruct (ret o) as [e|] eqn:Hret.
  - split_and!; [| | done].
    + intros e' _. split; [done |]. unfold final.
      destruct (trace o) as [|s tr] using rev_ind; [done |].
      rewrite List.last_last. apply Forall_app in Htrace as [_ Hs].
      exact (Forall_inv Hs).
    + eapply Forall_impl; [exact Htrace |]. intros s Hs. by left.
  - destruct Htrace as (Hhash & Hall & Hfin). split_and!; [done | | done].
    eapply Forall_impl; [exact Hall |]. intros s [Hs|Hs]; [by left | by right].
Qed.

Lemma bufferDownloadedFile_canonical_path_witness :
  let o := bufferDownloadedFile example_digest example_tempdir sc_ok
             example_filename [Byte.x63] 1 example_fs in
  ret o = Some (ErrOid "ca978112" "0badc0de" 1) /\
  Forall (fun s : FS => s !! example_filename = example_fs !! example_filename)
    (trace o) /\
  final example_fs o !! example_filename = example_fs !! example_filename.
Proof.
  intros o. split; [by vm_compute |].
  apply (bufferDownloadedFile_canonical_path example_digest example_tempdir
           sc_ok example_filename [Byte.x63] 1 example_fs)
    with (e := ErrOid "ca978112" "0badc0de" 1).
  by vm_compute.
Defined.

(** C3. The content "c" does not hash to the oid of the canonical path: the
    call returns the hash error, and the temporary file is still in the scratch
    directory afterwards, holding the rejected content. *)
Theorem hash_mismatch_leaves_tempfile :
  let o := bufferDownloadedFile example_digest example_tempdir sc_ok
             example_filename [Byte.x63] 1 example_fs in
  ret o = Some (ErrOid "ca978112" "0badc0de" 1) /\
  final example_fs o !! (example_tempdir ++ ["ca978112-123456"])
    = Some (File [Byte.x63] mode_0600).
Proof.
  apply (bufferDownloadedFile_hash_mismatch example_digest example_tempdir
           sc_ok example_filename [Byte.x63] 1 example_fs); by vm_compute.
Qed.

(** C4, as stated, fails: one byte is written where ten were declared, the hash
    is the oid, and the call succeeds and installs the one-byte object. *)
Lemma size_mismatch_accepted :
  let o := bufferDownloadedFile example_digest example_tempdir sc_ok
             example_filename [Byte.x61] 10 example_fs in
  Z.of_nat (length [Byte.x61]) <> 10 /\
  ret o = None /\
  final example_fs o !! example_filename = Some (File [Byte.x61] 420).
Proof. by vm_compute. Qed.

(** C4, amended. [bufferDownloadedFile] never compares the number of bytes
    written with the declared size: when no system call fails and the streamed
    hash is the oid, the call succeeds and installs the content at the
    canonical path, whatever size was declared. *)
Theorem bufferDownloadedFile_size_unchecked
    (Hash : list Byte.byte -> string) (tmpdir : path) (sc : syscalls)
    (filename : path) (reader : list Byte.byte) (size : Z) (fs : FS) :
  sc_tempfile sc = None ->
  fs !! temp_name tmpdir sc filename = None ->
  sc_copy sc = None ->
  sc_close sc = None ->
  Hash reader = filepath_Base filename ->
  sc_stat sc = None ->
  sc_chmod sc = None ->
  sc_rename sc = None ->
  let o := bufferDownloadedFile Hash tmpdir sc filename reader size fs in
  ret o = None /\ exists m, final fs o !! filename = Some (File reader m).
Proof.
  intros Htmp Hfree Hcopy Hclose Hhash Hstat Hchmod Hrename o.
  assert (Hret : ret o = None) by by apply bufferDownloadedFile_success.
  split; [done |].
  pose proof (bufferDownloadedFile_trace Hash tmpdir sc filename reader size fs)
    as Htrace.
  cbv zeta in Htrace. fold o in Htrace. rewrite Hret in Htrace.
  by destruct Htrace as (_ & _ & Hfin).
Qed.

Lemma bufferDownloadedFile_size_unchecked_witness :
  let o := bufferDownloadedFile example_digest example_tempdir sc_ok
             example_filename [Byte.x61] 10 example_fs in
  ret o = None /\
  exists m, final example_fs o !! example_filename = Some (File [Byte.x61] m).
Proof.
  apply (bufferDownloadedFile_size_unchecked example_digest example_tempdir
           sc_ok example_filename [Byte.x61] 10 example_fs); by vm_compute.
Defined.

(** *** The store after a call *)

Section After.

Variable Hash : list Byte.byte -> string.
Variable LocalObjectTempDir : path.
Variable sc : syscalls.

(** The temporary file when the copy ends: the bytes copied so far. *)
Lemma copy_last (name : path) (reader : list Byte.byte) (size : Z) (fs : FS)
    (n : nat) (err : option os_error) (writes : list FS) (d : FS) :
  tools_CopyWithCallback sc name reader size (<[name := File [] mode_0600]> fs)
    = (n, err, writes) ->
  List.last (<[name := File [] mode_0600]> fs :: writes) d
  = <[name := File (take n reader) mode_0600]> fs.
Proof.
  unfold tools_CopyWithCallback. intros [= <- _ <-].
  rewrite last_cons_default, last_fmap_seq.
  destruct (match sc_copy sc with
            | Some (k, _) => Nat.min k (length reader)
            | None => length reader
            end) as [|n]; [done |].
  by rewrite insert_insert_eq.
Qed.

Lemma final_deferred_remove (name : path) (fs0 : FS) (err : option os_error)
    (r : option error) (tr : list FS) :
  final fs0 (deferred_remove name fs0 err r tr)
  = match err with
    | Some _ => os_Remove name (List.last tr fs0)
    | None => List.last tr fs0
    end.
Proof.
  unfold final, deferred_remove. destruct err; [| done].
  cbn [trace]. by rewrite List.last_last.
Qed.

Lemma ret_deferred_remove (name : path) (fs0 : FS) (err : option os_error)
    (r : option error) (tr : list FS) :
  ret (deferred_remove name fs0 err r tr) = r.
Proof. unfold deferred_remove. by destruct err. Qed.

(** Every way through [bufferDownloadedFile], with the store it ends in. *)
Lemma bufferDownloadedFile_cases (filename : path) (reader : list Byte.byte)
    (size : Z) (fs : FS) :
  let o := bufferDownloadedFile Hash LocalObjectTempDir sc filename reader size fs in
  let name := temp_name LocalObjectTempDir sc filename in
  (exists e, ret o = Some (ErrTempFile e) /\ final fs o = fs) \/
  fs !! name = None /\ name <> filename /\
  ((exists e, ret o = Some (ErrWrite name e) /\ final fs o = fs) \/
   (exists e, ret o = Some (ErrClose name e) /\
      final fs o = <[name := File reader mode_0600]> fs) \/
   (exists actual, ret o = Some (ErrOid (filepath_Base filename) actual
                                   (Z.of_nat (length reader))) /\
      actual <> filepath_Base filename /\
      final fs o = <[name := File reader mode_0600]> fs) \/
   Hash reader = filepath_Base filename /\
   ((exists e, ret o = Some (ErrStat e) /\ final fs o = fs) \/
    (exists e, ret o = Some (ErrChmod name e) /\
       final fs o = <[name := File reader mode_0600]> fs) \/
    (exists e, ret o = Some (ErrRename filename name e) /\
       final fs o = match os_Stat sc filename fs with
                    | inr mode => <[name := File reader mode]> fs
                    | inl _ => fs
                    end) \/
    (ret o = None /\
     final fs o = <[filename := File reader
                      match os_Stat sc filename fs with
                      | inr mode => mode
                      | inl _ => mode_0600
                      end]> fs))).
Proof.
  intros o name. subst o. unfold bufferDownloadedFile.
  destruct (ioutil_TempFile _ _ _ _) as [e|[name' fs1]] eqn:Htmp.
  { left. by exists e. }
  right.
  assert (name' = name) as ->.
  { unfold ioutil_TempFile in Htmp. destruct (sc_tempfile sc); [done |].
    destruct (fs !! _); [done |]. by injection Htmp as <- _. }
  apply ioutil_TempFile_fresh in Htmp as (Hne & Hfree & ->).
  split; [done |]. split; [done |].
  destruct (tools_CopyWithCallback _ _ _ _ _) as [[written err] writes] eqn:Hcopy.
  pose proof (copy_last _ _ _ _ _ _ _ fs Hcopy) as Hlast.
  destruct err as [e|].
  { left. exists e. rewrite ret_deferred_remove, final_deferred_remove.
    split; [done |]. rewrite Hlast. by apply delete_insert_id. }
  right. apply copy_written_ok in Hcopy as [-> _]. rewrite firstn_all in *.
  destruct (sc_close sc) as [e|].
  { left. exists e. by rewrite ret_deferred_remove, final_deferred_remove. }
  right.
  destruct (String.eqb (Hash reader) (filepath_Base filename)) eqn:Hhash;
    cbn [negb].
  2: { left. exists (Hash reader).
       rewrite ret_deferred_remove, final_deferred_remove.
       split_and!; [done | by apply String.eqb_neq | done]. }
  right. apply String.eqb_eq in Hhash. split; [done |].
  rewrite Hlast.
  assert (Hstat : os_Stat sc filename (<[name := File reader mode_0600]> fs)
                  = os_Stat sc filename fs).
  { unfold os_Stat. by rewrite lookup_insert_ne. }
  rewrite Hstat.
  assert (Hrename : forall mode,
            os_Rename name filename (<[name := File reader mode]> fs)
            = <[filename := File reader mode]> fs).
  { intros mode. unfold os_Rename. rewrite lookup_insert_eq.
    by rewrite delete_insert_id. }
  destruct (os_Stat sc filename fs) as [e|mode] eqn:Hst.
  - destruct (os_IsNotExist (Some e)).
    + destruct (sc_rename sc) as [e'|].
      * right. right. left. exists e'.
        rewrite ret_deferred_remove, final_deferred_remove.
        split; [done |]. rewrite Hlast. by apply delete_insert_id.
      * right. right. right.
        rewrite ret_deferred_remove, final_deferred_remove.
        split; [done |]. rewrite List.last_last, Hrename.
        unfold os_Remove. rewrite delete_insert_ne by done.
        by rewrite delete_id.
    + left. exists e. rewrite ret_deferred_remove, final_deferred_remove.
      split; [done |]. rewrite Hlast. by apply delete_insert_id.
  - destruct (sc_chmod sc) as [e'|].
    { right. left. exists e'.
      by rewrite ret_deferred_remove, final_deferred_remove. }
    assert (Hchmod : os_Chmod name mode (<[name := File reader mode_0600]> fs)
                     = <[name := File reader mode]> fs).
    { unfold os_Chmod. by rewrite alter_insert_eq. }
    rewrite Hchmod.
    destruct (sc_rename sc) as [e'|].
    + right. right. left. exists e'.
      rewrite ret_deferred_remove, final_deferred_remove.
      by rewrite List.last_last.
    + right. right. right.
      rewrite ret_deferred_remove, final_deferred_remove.
      by rewrite List.last_last, Hrename.
Qed.

End After.

(** A copy that fails after the first byte. *)
Definition sc_disk_full : syscalls :=
  Syscalls "123456" None (Some (1%nat, EIO "no space left on device"))
    None None None None.

(** The close of the temporary file fails. *)
Definition sc_close_fails : syscalls :=
  Syscalls "123456" None None (Some (EIO "input/output error")) None None None.

(** The final rename fails. *)
Definition sc_rename_fails : syscalls :=
  Syscalls "123456" None None None None None (Some (EIO "cross-device link")).

(** X1. When [bufferDownloadedFile] fails because the temporary file cannot
    be created, because the copy fails, or because [os.Stat] of the canonical
    path fails, it leaves the store exactly as it found it: the temporary
    file, if one was made, is removed again. *)
Theorem failed_copy_restores_the_store
    (Hash : list Byte.byte -> string) (tmpdir : path) (sc : syscalls)
    (filename : path) (reader : list Byte.byte) (size : Z) (fs : FS) :
  let o := bufferDownloadedFile Hash tmpdir sc filename reader size fs in
  (exists e, ret o = Some (ErrTempFile e)) \/
  (exists name e, ret o = Some (ErrWrite name e)) \/
  (exists e, ret o = Some (ErrStat e)) ->
  final fs o = fs.
Proof.
  intros o Hret.
  pose proof (bufferDownloadedFile_cases Hash tmpdir sc filename reader size fs)
    as Hc.
  cbv zeta in Hc. fold o in Hc.
  destruct Hc as [(e & _ & Hfin)|(_ & _ & Hcases)]; [done |].
  destruct Hcases
    as [(e & _ & Hfin)|[(e & He & _)|[(a & He & _)|
         (_ & [(e & _ & Hfin)|[(e & He & _)|[(e & He & _)|(He & _)]]])]]];
    try done; exfalso; rewrite He in Hret;
    by destruct Hret as [(? & ?)|[(? & ? & ?)|(? & ?)]].
Qed.

Lemma failed_copy_restores_the_store_witness :
  final example_fs
    (bufferDownloadedFile example_digest example_tempdir sc_disk_full
       example_filename [Byte.x61; Byte.x62] 2 example_fs)
  = example_fs.
Proof.
  apply (failed_copy_restores_the_store example_digest example_tempdir
           sc_disk_full example_filename [Byte.x61; Byte.x62] 2 example_fs).
  right. left. by eexists _, _.
Defined.

(** X2. When [bufferDownloadedFile] succeeds (and [os.Stat] reports the
    canonical path as it is), the store afterwards is the store before with
    one change: the canonical path holds exactly the bytes read, whose hash is
    the oid, under the mode of the file it replaces, or 0600 if there was
    none. The temporary file is gone. *)
Theorem successful_write_installs_the_object
    (Hash : list Byte.byte -> string) (tmpdir : path) (sc : syscalls)
    (filename : path) (reader : list Byte.byte) (size : Z) (fs : FS) :
  let o := bufferDownloadedFile Hash tmpdir sc filename reader size fs in
  ret o = None ->
  sc_stat sc = None ->
  Hash reader = filepath_Base filename /\
  final fs o
  = <[filename := File reader (default mode_0600 (f_mode <$> fs !! filename))]> fs.
Proof.
  intros o Hret Hstat.
  pose proof (bufferDownloadedFile_cases Hash tmpdir sc filename reader size fs)
    as Hc.
  cbv zeta in Hc. fold o in Hc.
  destruct Hc as [(e & He & _)|(_ & _ & Hcases)]; [congruence |].
  destruct Hcases
    as [(e & He & _)|[(e & He & _)|[(a & He & _)|
         (Hhash & [(e & He & _)|[(e & He & _)|[(e & He & _)|(_ & Hfin)]]])]]];
    try congruence.
  split; [done |]. rewrite Hfin. unfold os_Stat. rewrite Hstat.
  by destruct (fs !! filename).
Qed.

Lemma successful_write_installs_the_object_witness :
  let o := bufferDownloadedFile example_digest example_tempdir sc_ok
             example_filename [Byte.x61] 1 example_fs in
  example_digest [Byte.x61] = filepath_Base example_filename /\
  final example_fs o
  = <[example_filename :=
        File [Byte.x61]
          (default mode_0600 (f_mode <$> example_fs !! example_filename))]>
      example_fs.
Proof.
  apply (successful_write_installs_the_object example_digest example_tempdir
           sc_ok example_filename [Byte.x61] 1 example_fs); reflexivity.
Defined.

(** X3. When the close of the temporary file or the [os.Chmod] on it
    fails, [bufferDownloadedFile] leaves the temporary file in the scratch
    directory, with the whole content: these errors are variables of their
    own [if] statements, and the deferred function sees [err] nil. *)
Theorem failed_close_or_chmod_leaves_the_tempfile
    (Hash : list Byte.byte -> string) (tmpdir : path) (sc : syscalls)
    (filename : path) (reader : list Byte.byte) (size : Z) (fs : FS) :
  let o := bufferDownloadedFile Hash tmpdir sc filename reader size fs in
  (exists name e, ret o = Some (ErrClose name e)) \/
  (exists name e, ret o = Some (ErrChmod name e)) ->
  fs !! temp_name tmpdir sc filename = None /\
  final fs o = <[temp_name tmpdir sc filename := File reader mode_0600]> fs.
Proof.
  intros o Hret.
  pose proof (bufferDownloadedFile_cases Hash tmpdir sc filename reader size fs)
    as Hc.
  cbv zeta in Hc. fold o in Hc.
  destruct Hc as [(e & He & _)|(Hfree & _ & Hcases)].
  { rewrite He in Hret. by destruct Hret as [(? & ? & ?)|(? & ? & ?)]. }
  split; [done |].
  destruct Hcases
    as [(e & He & _)|[(e & _ & Hfin)|[(a & He & _)|
         (_ & [(e & He & _)|[(e & _ & Hfin)|[(e & He & _)|(He & _)]]])]]];
    try done; exfalso; rewrite He in Hret;
    by destruct Hret as [(? & ? & ?)|(? & ? & ?)].
Qed.

Lemma failed_close_or_chmod_leaves_the_tempfile_witness :
  let o := bufferDownloadedFile example_digest example_tempdir sc_close_fails
             example_filename [Byte.x61] 1 example_fs in
  example_fs !! temp_name example_tempdir sc_close_fails example_filename = None /\
  final example_fs o
  = <[temp_name example_tempdir sc_close_fails example_filename :=
        File [Byte.x61] mode_0600]> example_fs.
Proof.
  apply (failed_close_or_chmod_leaves_the_tempfile example_digest
           example_tempdir sc_close_fails example_filename [Byte.x61] 1
           example_fs).
  left. by eexists _, _.
Defined.

(** X4. When the final rename fails, what becomes of the temporary file
    depends on the canonical path: if no file was there, [os.Stat] has left
    its "not exist" error in [err] and the deferred function removes the
    temporary file; if a file was there, [err] is nil and the temporary file
    stays, already carrying the mode of that file. *)
Theorem failed_rename_cleans_up_only_a_new_object
    (Hash : list Byte.byte -> string) (tmpdir : path) (sc : syscalls)
    (filename : path) (reader : list Byte.byte) (size : Z) (fs : FS) :
  let o := bufferDownloadedFile Hash tmpdir sc filename reader size fs in
  (exists a b e, ret o = Some (ErrRename a b e)) ->
  sc_stat sc = None ->
  final fs o
  = match fs !! filename with
    | Some old =>
        <[temp_name tmpdir sc filename := File reader (f_mode old)]> fs
    | None => fs
    end.
Proof.
  intros o (a & b & e0 & Hret) Hstat.
  pose proof (bufferDownloadedFile_cases Hash tmpdir sc filename reader size fs)
    as Hc.
  cbv zeta in Hc. fold o in Hc.
  destruct Hc as [(e & He & _)|(_ & _ & Hcases)]; [congruence |].
  destruct Hcases
    as [(e & He & _)|[(e & He & _)|[(a' & He & _)|
         (_ & [(e & He & _)|[(e & He & _)|[(e & _ & Hfin)|(He & _)]]])]]];
    try congruence.
  rewrite Hfin. unfold os_Stat. rewrite Hstat. by destruct (fs !! filename).
Qed.

Lemma failed_rename_cleans_up_only_a_new_object_witness :
  let o := bufferDownloadedFile example_digest example_tempdir sc_rename_fails
             example_filename [Byte.x61] 1 example_fs in
  final example_fs o
  = match example_fs !! example_filename with
    | Some old =>
        <[temp_name example_tempdir sc_rename_fails example_filename :=
            File [Byte.x61] (f_mode old)]> example_fs
    | None => example_fs
    end.
Proof.
  apply (failed_rename_cleans_up_only_a_new_object example_digest
           example_tempdir sc_rename_fails example_filename [Byte.x61] 1
           example_fs).
  - by eexists _, _, _.
  - reflexivity.
Defined.

(** *** [PointerSmudgeObject] and [downloadObject] *)

(** [Pointer] and [api.ObjectResource], as far as these functions read
    them. *)
Record Pointer := mkPointer { ptr_Oid : string; ptr_Size : Z }.

Record ObjectResource := mkObjectResource { obj_Oid : string; obj_Size : Z }.

(** The errors of [downloadObject] (two [errutil.Errorf]) and of
    [PointerSmudgeObject] (the error of [LocalMediaPath], returned as it is,
    and [errutil.NewSmudgeError]). *)
Inductive download_error :=
| ErrDownloading (e : os_error) (mediafile : path)
| ErrBuffering (e : error).

Inductive smudge_error :=
| ErrLocalMediaPath (e : os_error)
| ErrSmudge (e : download_error) (oid : string) (mediafile : path).

(** What lies outside: [LocalMediaPath] and [api.DownloadObject] are not among
    the sources of package lfs, and [os.Stat] and [os.RemoveAll] may fail.
    [api.DownloadObject] is taken to return a reader whenever it returns no
    error. *)
Record smudge_calls := SmudgeCalls {
  sm_LocalMediaPath : string -> os_error + path;
  sm_stat : option os_error;
  sm_removeall : option os_error;
  sm_DownloadObject : ObjectResource -> os_error + (list Byte.byte * Z);
  sm_buffer : syscalls
}.

(** The result of a call: the error returned, the pointer (the functions write
    [ptr.Size]), and the file system after each change. *)
Record smudged := Smudged {
  sm_ret : option smudge_error;
  sm_ptr : Pointer;
  sm_trace : list FS
}.

(** [os.RemoveAll(path)] removes [path] and everything below it. *)
Definition os_RemoveAll (p : path) (fs : FS) : FS :=
  filter (fun kv => ~ p `prefix_of` kv.1) fs.

Section Smudge.

Variable Hash : list Byte.byte -> string.
Variable LocalObjectTempDir : path.
Variable sm : smudge_calls.

(** [os.Stat(mediafile)], for the size of the file. *)
Definition os_Stat_Size (mediafile : path) (fs : FS) : os_error + Z :=
  match sm_stat sm with
  | Some e => inl e
  | None =>
      match fs !! mediafile with
      | Some f => inr (Z.of_nat (length (f_data f)))
      | None => inl ENOENT
      end
  end.

Definition downloadObject (ptr : Pointer) (obj : ObjectResource)
    (mediafile : path) (fs : FS) : option download_error * Pointer * list FS :=
  match sm_DownloadObject sm obj with
  | inl e => (Some (ErrDownloading e mediafile), ptr, [])
  | inr (reader, size) =>
      let ptr := if ptr_Size ptr =? 0 then mkPointer (ptr_Oid ptr) size
                 else ptr in
      let o := bufferDownloadedFile Hash LocalObjectTempDir (sm_buffer sm)
                 mediafile reader (ptr_Size ptr) fs in
      (ErrBuffering <$> ret o, ptr, trace o)
  end.

Definition PointerSmudgeObject (ptr : Pointer) (obj : ObjectResource) (fs : FS)
  : smudged :=
  match sm_LocalMediaPath sm (obj_Oid obj) with
  | inl e => Smudged (Some (ErrLocalMediaPath e)) ptr []
  | inr mediafile =>
      let st := os_Stat_Size mediafile fs in
      let invalid :=
        match st with
        | inr fileSize => (fileSize =? 0) || negb (fileSize =? obj_Size obj)
        | inl _ => false
        end in
      let removed :=
        if invalid
        then match sm_removeall sm with
             | Some _ => []
             | None => [os_RemoveAll mediafile fs]
             end
        else [] in
      let fs1 := List.last removed fs in
      match st, invalid with
      | inr _, false => Smudged None ptr []
      | _, _ =>
          let '(err, ptr, tr) := downloadObject ptr obj mediafile fs1 in
          Smudged (match err with
                   | Some e => Some (ErrSmudge e (obj_Oid obj) mediafile)
                   | None => None
                   end) ptr (removed ++ tr)
      end
  end.

End Smudge.

Definition smudged_final (fs : FS) (r : smudged) : FS :=
  List.last (sm_trace r) fs.

Lemma os_RemoveAll_lookup (p : path) (fs : FS) :
  os_RemoveAll p fs !! p = None.
Proof.
  unfold os_RemoveAll. apply map_lookup_filter_None. right.
  intros f _ Hp. by apply Hp.
Qed.

Lemma os_RemoveAll_other (p p' : path) (fs : FS) :
  ~ p `prefix_of` p' -> os_RemoveAll p fs !! p' = fs !! p'.
Proof.
  intros Hp. unfold os_RemoveAll.
  destruct (fs !! p') as [f|] eqn:Hf.
  - by apply map_lookup_filter_Some.
  - apply map_lookup_filter_None. by left.
Qed.

(** An environment for the examples: the media path of an oid, no failing
    call, and the given answer of the download. *)
Definition example_calls (download : os_error + (list Byte.byte * Z))
  : smudge_calls :=
  SmudgeCalls (fun oid => inr ["lfs"; "objects"; "ca"; "97"; oid]) None None
    (fun _ => download) sc_ok.

(** X5. [PointerSmudgeObject] keeps a local object that is there with the
    size the server declares, provided that size is not zero: it returns nil
    without a download, and changes neither the store nor the pointer. *)
Theorem PointerSmudgeObject_keeps_a_valid_object
    (Hash : list Byte.byte -> string) (tmpdir : path) (sm : smudge_calls)
    (ptr : Pointer) (obj : ObjectResource) (fs : FS) (mediafile : path)
    (f : file) :
  sm_LocalMediaPath sm (obj_Oid obj) = inr mediafile ->
  sm_stat sm = None ->
  fs !! mediafile = Some f ->
  Z.of_nat (length (f_data f)) = obj_Size obj ->
  obj_Size obj <> 0 ->
  PointerSmudgeObject Hash tmpdir sm ptr obj fs = Smudged None ptr [].
Proof.
  intros Hpath Hstat Hf Hsize Hnz. unfold PointerSmudgeObject, os_Stat_Size.
  rewrite Hpath, Hstat, Hf, Hsize.
  rewrite (proj2 (Z.eqb_neq _ _) Hnz), Z.eqb_refl. done.
Qed.

Lemma PointerSmudgeObject_keeps_a_valid_object_witness :
  PointerSmudgeObject example_digest example_tempdir
    (example_calls (inl (EIO "connection refused")))
    (mkPointer "ca978112" 2) (mkObjectResource "ca978112" 2) example_fs
  = Smudged None (mkPointer "ca978112" 2) [].
Proof.
  apply (PointerSmudgeObject_keeps_a_valid_object example_digest
           example_tempdir (example_calls (inl (EIO "connection refused")))
           (mkPointer "ca978112" 2) (mkObjectResource "ca978112" 2) example_fs
           example_filename (File [Byte.x62; Byte.x62] 420)); by vm_compute.
Defined.

(** X6. [PointerSmudgeObject] removes a local object that is empty or has
    not the size the server declares before it downloads the object again; if
    the download then fails, the call returns a smudge error and the object
    is gone from the store. *)
Theorem PointerSmudgeObject_removes_an_invalid_object
    (Hash : list Byte.byte -> string) (tmpdir : path) (sm : smudge_calls)
    (ptr : Pointer) (obj : ObjectResource) (fs : FS) (mediafile : path)
    (f : file) (e : os_error) :
  sm_LocalMediaPath sm (obj_Oid obj) = inr mediafile ->
  sm_stat sm = None ->
  sm_removeall sm = None ->
  fs !! mediafile = Some f ->
  f_data f = [] \/ Z.of_nat (length (f_data f)) <> obj_Size obj ->
  sm_DownloadObject sm obj = inl e ->
  let r := PointerSmudgeObject Hash tmpdir sm ptr obj fs in
  sm_ret r = Some (ErrSmudge (ErrDownloading e mediafile) (obj_Oid obj) mediafile) /\
  sm_ptr r = ptr /\
  smudged_final fs r = os_RemoveAll mediafile fs /\
  smudged_final fs r !! mediafile = None.
Proof.
  intros Hpath Hstat Hrm Hf Hbad Hdl r. subst r.
  unfold PointerSmudgeObject, os_Stat_Size, downloadObject, smudged_final.
  rewrite Hpath, Hstat, Hf, Hrm, Hdl.
  assert (Hinvalid : (Z.of_nat (length (f_data f)) =? 0)
                     || negb (Z.of_nat (length (f_data f)) =? obj_Size obj)
                     = true).
  { destruct Hbad as [->|Hne]; [done |].
    apply orb_true_iff. right. apply negb_true_iff. by apply Z.eqb_neq. }
  rewrite Hinvalid. cbn. split_and!; try done. apply os_RemoveAll_lookup.
Qed.

Lemma PointerSmudgeObject_removes_an_invalid_object_witness :
  let r := PointerSmudgeObject example_digest example_tempdir
             (example_calls (inl (EIO "connection refused")))
             (mkPointer "ca978112" 1) (mkObjectResource "ca978112" 1)
             example_fs in
  sm_ret r = Some (ErrSmudge (ErrDownloading (EIO "connection refused")
                                example_filename)
                     (obj_Oid (mkObjectResource "ca978112" 1)) example_filename) /\
  sm_ptr r = mkPointer "ca978112" 1 /\
  smudged_final example_fs r = os_RemoveAll example_filename example_fs /\
  smudged_final example_fs r !! example_filename = None.
Proof.
  apply (PointerSmudgeObject_removes_an_invalid_object example_digest
           example_tempdir (example_calls (inl (EIO "connection refused")))
           (mkPointer "ca978112" 1) (mkObjectResource "ca978112" 1) example_fs
           example_filename (File [Byte.x62; Byte.x62] 420)
           (EIO "connection refused")); try reflexivity.
  right. by vm_compute.
Defined.

Lemma last_app_default {A} (l k : list A) (d : A) :
  List.last (l ++ k) d = List.last k (List.last l d).
Proof.
  destruct k as [|x k] using rev_ind; [by rewrite app_nil_r |].
  by rewrite app_assoc, !List.last_last.
Qed.

(** What [downloadObject] leaves when it returns nil. *)
Lemma downloadObject_nil (Hash : list Byte.byte -> string) (tmpdir : path)
    (sm : smudge_calls) (ptr : Pointer) (obj : ObjectResource)
    (mediafile : path) (fs : FS) ptr' tr :
  downloadObject Hash tmpdir sm ptr obj mediafile fs = (None, ptr', tr) ->
  exists reader m,
    List.last tr fs !! mediafile = Some (File reader m) /\
    Hash reader = filepath_Base mediafile.
Proof.
  unfold downloadObject.
  destruct (sm_DownloadObject sm obj) as [e|[reader size]]; [done |].
  set (p := if ptr_Size ptr =? 0 then _ else _).
  pose proof (bufferDownloadedFile_trace Hash tmpdir (sm_buffer sm) mediafile
                reader (ptr_Size p) fs) as Htrace.
  cbv zeta in Htrace.
  destruct (ret (bufferDownloadedFile _ _ _ _ _ _ _)) as [e|] eqn:Hret;
    [done |].
  intros [= _ <-]. destruct Htrace as (Hhash & _ & m & Hfin).
  by exists reader, m.
Qed.

(** X7. When [PointerSmudgeObject] returns nil, the object is in the store:
    either the file that was there, of the declared size and not empty, or
    downloaded content whose hash is the name of the media file. *)
Theorem PointerSmudgeObject_nil_means_present
    (Hash : list Byte.byte -> string) (tmpdir : path) (sm : smudge_calls)
    (ptr : Pointer) (obj : ObjectResource) (fs : FS) (mediafile : path) :
  sm_LocalMediaPath sm (obj_Oid obj) = inr mediafile ->
  let r := PointerSmudgeObject Hash tmpdir sm ptr obj fs in
  sm_ret r = None ->
  exists f,
    smudged_final fs r !! mediafile = Some f /\
    (fs !! mediafile = Some f /\
     Z.of_nat (length (f_data f)) = obj_Size obj /\ obj_Size obj <> 0 \/
     Hash (f_data f) = filepath_Base mediafile).
Proof.
  intros Hpath r. subst r. unfold PointerSmudgeObject, smudged_final.
  rewrite Hpath. cbv zeta.
  set (st := os_Stat_Size sm mediafile fs).
  set (invalid := match st with
                  | inr fileSize =>
                      (fileSize =? 0) || negb (fileSize =? obj_Size obj)
                  | inl _ => false
                  end).
  set (removed := if invalid
                  then match sm_removeall sm with
                       | Some _ => []
                       | None => [os_RemoveAll mediafile fs]
                       end
                  else []).
  destruct (downloadObject Hash tmpdir sm ptr obj mediafile
              (List.last removed fs)) as [[err ptr'] tr] eqn:Hd.
  assert (Hdownload : err = None ->
    exists f,
      List.last (removed ++ tr) fs !! mediafile = Some f /\
      (fs !! mediafile = Some f /\
       Z.of_nat (length (f_data f)) = obj_Size obj /\ obj_Size obj <> 0 \/
       Hash (f_data f) = filepath_Base mediafile)).
  { intros ->. apply downloadObject_nil in Hd as (reader & m & Hfin & Hhash).
    exists (File reader m). rewrite last_app_default. split; [done | by right]. }
  assert (Herr : match err with
                 | Some e => Some (ErrSmudge e (obj_Oid obj) mediafile)
                 | None => None
                 end = None -> err = None) by by destruct err.
  clearbody removed. subst invalid st. unfold os_Stat_Size.
  destruct (sm_stat sm) as [e|]; [intros Hret; by apply Hdownload, Herr |].
  destruct (fs !! mediafile) as [f|] eqn:Hf;
    [| intros Hret; by apply Hdownload, Herr].
  destruct (Z.of_nat (length (f_data f)) =? 0) eqn:Hz; cbn [orb];
    [intros Hret; by apply Hdownload, Herr |].
  destruct (Z.of_nat (length (f_data f)) =? obj_Size obj) eqn:Hs; cbn [negb];
    [| intros Hret; by apply Hdownload, Herr].
  intros _. exists f. cbn. split; [done |]. left.
  apply Z.eqb_eq in Hs. apply Z.eqb_neq in Hz. split_and!; [done | done | lia].
Qed.

Lemma PointerSmudgeObject_nil_means_present_witness :
  let r := PointerSmudgeObject example_digest example_tempdir
             (example_calls (inr ([Byte.x61], 1)))
             (mkPointer "ca978112" 0) (mkObjectResource "ca978112" 1)
             example_fs in
  exists f,
    smudged_final example_fs r !! example_filename = Some f /\
    (example_fs !! example_filename = Some f /\
     Z.of_nat (length (f_data f)) = obj_Size (mkObjectResource "ca978112" 1) /\
     obj_Size (mkObjectResource "ca978112" 1) <> 0 \/
     example_digest (f_data f) = filepath_Base example_filename).
Proof.
  apply (PointerSmudgeObject_nil_means_present example_digest example_tempdir
           (example_calls (inr ([Byte.x61], 1)))
           (mkPointer "ca978112" 0) (mkObjectResource "ca978112" 1)
           example_fs example_filename); by vm_compute.
Defined.

End Lfs.

(** ** Package tq: the transfer queue *)
Module Tq.

(** *** Data *)

(** Go's [int] on the 64-bit targets: an increment wraps around. *)
Definition int_min : Z := - 2 ^ 63.
Definition int_max : Z := 2 ^ 63 - 1.
Definition wrap_int (z : Z) : Z := (z + 2 ^ 63) mod 2 ^ 64 - 2 ^ 63.

(** [errors.IsRetriableError] is not among the sources: an error carries the
    answer. *)
Record error := Err { err_msg : string; err_retriable : bool }.

Definition errors_IsRetriableError (e : error) : bool := err_retriable e.

Record ObjectError := mkObjectError { Code : Z; Message : string }.

Record Action := mkAction { Href : string }.

(** [objectResource]; a nil [Actions] map and an empty one answer [Rel] alike. *)
Record ObjectResource := mkObjectResource {
  Oid : string;
  Size : Z;
  Actions : gmap string Action;
  Error : option ObjectError
}.

Definition Rel (o : ObjectResource) (name : string) : option Action :=
  Actions o !! name.

(** [errors.Wrapf(o.Error, "[%v] %v", o.Oid, o.Error.Message)]. *)
Definition errors_Wrapf (e : ObjectError) (oid : string) : error :=
  Err ("[" +:+ oid +:+ "] " +:+ Message e) false.

(** The [Transferable] interface, as the values of its methods [Oid], [Size],
    [Name] and [Path]. The queue keeps one [Transferable] per oid, so the
    object that [SetObject] stores lives in the queue, under that oid. *)
Record Transferable := mkTransferable {
  t_Oid : string;
  t_Size : Z;
  t_Name : string;
  t_Path : string
}.

Inductive Direction := Upload | Download.

(** [transfer.Transfer] and [transfer.TransferResult]. *)
Record Transfer := NewTransfer { Name : string; Object : ObjectResource; Path : string }.

Record TransferResult := mkTransferResult {
  res_Transfer : Transfer;
  res_Error : option error
}.

(** The calls the queue makes on its [progress.Meter]. *)
Inductive meter_call :=
| MStart
| MStartTransfer (name : string)
| MFinishTransfer (name : string)
| MSkip (size : Z)
| MFinish.

(** A channel returned by [Watch]: what was sent on it, and whether it is
    closed. *)
Record watcher := mkWatcher { w_sent : list string; w_closed : bool }.

(** How the accounting of an object was closed: each [q.wait.Done()] of the
    source closes one object, after a successful transfer, after a skip, or
    after a failure that is not retried. *)
Inductive terminal := Succeeded | Skipped | FailedTerminal.

(** *** [retryCounter] *)

Record retryCounter := mkRetryCounter { MaxRetries : Z; count : gmap string Z }.

Definition defaultBatchSize : Z := 100.
Definition defaultMaxRetries : Z := 1.

(** [newRetryCounter(cfg)]; [cfg] is the integer found under
    [lfs.transfer.maxretries], if any: [Unmarshal] leaves the default in place
    otherwise. *)
Definition newRetryCounter (cfg : option Z) : retryCounter :=
  let max := default defaultMaxRetries cfg in
  mkRetryCounter (if bool_decide (max < 1) then 1 else max) ∅.

Definition CountFor (oid : string) (r : retryCounter) : Z :=
  default 0 (count r !! oid).

Definition Increment (oid : string) (r : retryCounter) : retryCounter :=
  mkRetryCounter (MaxRetries r)
    (<[oid := wrap_int (CountFor oid r + 1)]> (count r)).

Definition CanRetry (oid : string) (r : retryCounter) : Z * bool :=
  let count := CountFor oid r in
  (count, bool_decide (count < MaxRetries r)).

(** *** [Batch] *)

Abbreviation Batch := (list Transferable).

Definition IsFull (b : Batch) (max : Z) : bool :=
  bool_decide (max <= Z.of_nat (length b)).

Definition ApiObjects (b : Batch) : list ObjectResource :=
  (fun t => mkObjectResource (t_Oid t) (t_Size t) ∅ None) <$> b.

Definition Less (x y : Transferable) : bool := bool_decide (t_Size x < t_Size y).

(** [sort.Reverse] swaps the arguments of [Less]. *)
Definition sort_Reverse {A} (less : A -> A -> bool) (x y : A) : bool := less y x.

(** [sort.Sort]: the result is a permutation in which no element is [less]
    than the one before it. Go's algorithm is not stable; the model is the
    merge sort of the library, which may order equal elements differently. *)
Definition sort_Sort {A} (less : A -> A -> bool) (l : list A) : list A :=
  merge_sort (fun x y => Is_true (negb (less y x))) l.

(** *** The queue and what surrounds it *)

(** The collaborators outside the queue: the batch endpoint (its [n]-th
    request), the manifest, and the transfer adapter (its [n]-th [Begin] and
    [Add]). The adapter is known to the queue by its name. *)
Record World := mkWorld {
  batch_endpoint : nat -> string -> list ObjectResource -> list string ->
                   error + (list ObjectResource * string);
  GetAdapterNames : Direction -> list string;
  NewAdapterOrDefault : string -> Direction -> string;
  adapter_Begin : nat -> string -> option error;
  adapter_Add : nat -> list Transfer -> list TransferResult
}.

(** [TransferQueue]. [incoming] and [errorc] are the contents of the channels
    ([errorc] is drained into [errors] by [errorCollector]), [wait] is the
    counter of the wait group, [startProgress] tells whether the [sync.Once]
    has fired. The last four fields are history: the requests sent to the batch
    endpoint, the number of [Begin] calls, the transfers handed to the adapter,
    and which [q.wait.Done()] closed which oid. *)
Record TransferQueue := mkTransferQueue {
  direction : Direction;
  adapter : option string;
  adapterInProgress : bool;
  dryRun : bool;
  meter : list meter_call;
  errors : list error;
  transferables : gmap string Transferable;
  objects : gmap string ObjectResource;
  batchSize : Z;
  incoming : list Transferable;
  incoming_closed : bool;
  errorc_closed : bool;
  watchers : list watcher;
  startProgress : bool;
  wait : Z;
  rc : retryCounter;
  requests : list (list ObjectResource);
  begun : nat;
  dispatched : list (list Transfer);
  closed : list (string * terminal)
}.

Definition set_adapter (v : option string) (q : TransferQueue) : TransferQueue :=
  mkTransferQueue (direction q) v (adapterInProgress q) (dryRun q) (meter q)
    (errors q) (transferables q) (objects q) (batchSize q) (incoming q)
    (incoming_closed q) (errorc_closed q) (watchers q) (startProgress q)
    (wait q) (rc q) (requests q) (begun q) (dispatched q) (closed q).

Definition set_adapterInProgress (v : bool) (q : TransferQueue) : TransferQueue :=
  mkTransferQueue (direction q) (adapter q) v (dryRun q) (meter q) (errors q)
    (transferables q) (objects q) (batchSize q) (incoming q)
    (incoming_closed q) (errorc_closed q) (watchers q) (startProgress q)
    (wait q) (rc q) (requests q) (begun q) (dispatched q) (closed q).

Definition set_dryRun (v : bool) (q : TransferQueue) : TransferQueue :=
  mkTransferQueue (direction q) (adapter q) (adapterInProgress q) v (meter q)
    (errors q) (transferables q) (objects q) (batchSize q) (incoming q)
    (incoming_closed q) (errorc_closed q) (watchers q) (startProgress q)
    (wait q) (rc q) (requests q) (begun q) (dispatched q) (closed q).

Definition set_meter (v : list meter_call) (q : TransferQueue) : TransferQueue :=
  mkTransferQueue (direction q) (adapter q) (adapterInProgress q) (dryRun q) v
    (errors q) (transferables q) (objects q) (batchSize q) (incoming q)
    (incoming_closed q) (errorc_closed q) (watchers q) (startProgress q)
    (wait q) (rc q) (requests q) (begun q) (dispatched q) (closed q).

Definition set_errors (v : list error) (q : TransferQueue) : TransferQueue :=
  mkTransferQueue (direction q) (adapter q) (adapterInProgress q) (dryRun q)
    (meter q) v (transferables q) (objects q) (batchSize q) (incoming q)
    (incoming_closed q) (errorc_closed q) (watchers q) (startProgress q)
    (wait q) (rc q) (requests q) (begun q) (dispatched q) (closed q).

Definition set_transferables (v : gmap string Transferable) (q : TransferQueue) : TransferQueue :=
  mkTransferQueue (direction q) (adapter q) (adapterInProgress q) (dryRun q)
    (meter q) (errors q) v (objects q) (batchSize q) (incoming q)
    (incoming_closed q) (errorc_closed q) (watchers q) (startProgress q)
    (wait q) (rc q) (requests q) (begun q) (dispatched q) (closed q).

Definition set_objects (v : gmap string ObjectResource) (q : TransferQueue) : TransferQueue :=
  mkTransferQueue (direction q) (adapter q) (adapterInProgress q) (dryRun q)
    (meter q) (errors q) (transferables q) v (batchSize q) (incoming q)
    (incoming_closed q) (errorc_closed q) (watchers q) (startProgress q)
    (wait q) (rc q) (requests q) (begun q) (dispatched q) (closed q).

Definition set_batchSize (v : Z) (q : TransferQueue) : TransferQueue :=
  mkTransferQueue (direction q) (adapter q) (adapterInProgress q) (dryRun q)
    (meter q) (errors q) (transferables q) (objects q) v (incoming q)
    (incoming_closed q) (errorc_closed q) (watchers q) (startProgress q)
    (wait q) (rc q) (requests q) (begun q) (dispatched q) (closed q).

Definition set_incoming (v : list Transferable) (q : TransferQueue) : TransferQueue :=
  mkTransferQueue (direction q) (adapter q) (adapterInProgress q) (dryRun q)
    (meter q) (errors q) (transferables q) (objects q) (batchSize q) v
    (incoming_closed q) (errorc_closed q) (watchers q) (startProgress q)
    (wait q) (rc q) (requests q) (begun q) (dispatched q) (closed q).

Definition set_incoming_closed (v : bool) (q : TransferQueue) : TransferQueue :=
  mkTransferQueue (direction q) (adapter q) (adapterInProgress q) (dryRun q)
    (meter q) (errors q) (transferables q) (objects q) (batchSize q)
    (incoming q) v (errorc_closed q) (watchers q) (startProgress q) (wait q)
    (rc q) (requests q) (begun q) (dispatched q) (closed q).

Definition set_errorc_closed (v : bool) (q : TransferQueue) : TransferQueue :=
  mkTransferQueue (direction q) (adapter q) (adapterInProgress q) (dryRun q)
    (meter q) (errors q) (transferables q) (objects q) (batchSize q)
    (incoming q) (incoming_closed q) v (watchers q) (startProgress q) (wait q)
    (rc q) (requests q) (begun q) (dispatched q) (closed q).

Definition set_watchers (v : list watcher) (q : TransferQueue) : TransferQueue :=
  mkTransferQueue (direction q) (adapter q) (adapterInProgress q) (dryRun q)
    (meter q) (errors q) (transferables q) (objects q) (batchSize q)
    (incoming q) (incoming_closed q) (errorc_closed q) v (startProgress q)
    (wait q) (rc q) (requests q) (begun q) (dispatched q) (closed q).

Definition set_startProgress (v : bool) (q : TransferQueue) : TransferQueue :=
  mkTransferQueue (direction q) (adapter q) (adapterInProgress q) (dryRun q)
    (meter q) (errors q) (transferables q) (objects q) (batchSize q)
    (incoming q) (incoming_closed q) (errorc_closed q) (watchers q) v (wait q)
    (rc q) (requests q) (begun q) (dispatched q) (closed q).

Definition set_wait (v : Z) (q : TransferQueue) : TransferQueue :=
  mkTransferQueue (direction q) (adapter q) (adapterInProgress q) (dryRun q)
    (meter q) (errors q) (transferables q) (objects q) (batchSize q)
    (incoming q) (incoming_closed q) (errorc_closed q) (watchers q)
    (startProgress q) v (rc q) (requests q) (begun q) (dispatched q)
    (closed q).

Definition set_rc (v : retryCounter) (q : TransferQueue) : TransferQueue :=
  mkTransferQueue (direction q) (adapter q) (adapterInProgress q) (dryRun q)
    (meter q) (errors q) (transferables q) (objects q) (batchSize q)
    (incoming q) (incoming_closed q) (errorc_closed q) (watchers q)
    (startProgress q) (wait q) v (requests q) (begun q) (dispatched q)
    (closed q).

Definition set_requests (v : list (list ObjectResource)) (q : TransferQueue) : TransferQueue :=
  mkTransferQueue (direction q) (adapter q) (adapterInProgress q) (dryRun q)
    (meter q) (errors q) (transferables q) (objects q) (batchSize q)
    (incoming q) (incoming_closed q) (errorc_closed q) (watchers q)
    (startProgress q) (wait q) (rc q) v (begun q) (dispatched q) (closed q).

Definition set_begun (v : nat) (q : TransferQueue) : TransferQueue :=
  mkTransferQueue (direction q) (adapter q) (adapterInProgress q) (dryRun q)
    (meter q) (errors q) (transferables q) (objects q) (batchSize q)
    (incoming q) (incoming_closed q) (errorc_closed q) (watchers q)
    (startProgress q) (wait q) (rc q) (requests q) v (dispatched q) (closed q).

Definition set_dispatched (v : list (list Transfer)) (q : TransferQueue) : TransferQueue :=
  mkTransferQueue (direction q) (adapter q) (adapterInProgress q) (dryRun q)
    (meter q) (errors q) (transferables q) (objects q) (batchSize q)
    (incoming q) (incoming_closed q) (errorc_closed q) (watchers q)
    (startProgress q) (wait q) (rc q) (requests q) (begun q) v (closed q).

Definition set_closed (v : list (string * terminal)) (q : TransferQueue) : TransferQueue :=
  mkTransferQueue (direction q) (adapter q) (adapterInProgress q) (dryRun q)
    (meter q) (errors q) (transferables q) (objects q) (batchSize q)
    (incoming q) (incoming_closed q) (errorc_closed q) (watchers q)
    (startProgress q) (wait q) (rc q) (requests q) (begun q) (dispatched q) v.

(** *** Computations on the queue *)

(** A computation either returns, or stops: on a Go panic, blocked for ever on
    a channel or a wait group, or out of the fuel that bounds the batching
    loop. The state reached is kept in both cases. *)
Inductive fault :=
| Panic (msg : string)
| Blocked
| OutOfFuel.

Inductive result (A : Type) :=
| Ok (a : A) (q : TransferQueue)
| Fault (f : fault) (q : TransferQueue).
Arguments Ok {A} a q.
Arguments Fault {A} f q.

Definition M (A : Type) : Type := TransferQueue -> result A.

Definition state_of {A} (r : result A) : TransferQueue :=
  match r with Ok _ q => q | Fault _ q => q end.

Definition value_of {A} (r : result A) : option A :=
  match r with Ok a _ => Some a | Fault _ _ => None end.

Definition fault_of {A} (r : result A) : option fault :=
  match r with Ok _ _ => None | Fault f _ => Some f end.

Definition ret {A} (a : A) : M A := fun q => Ok a q.

Definition bind {A B} (m : M A) (f : A -> M B) : M B :=
  fun q => match m q with
           | Ok a q' => f a q'
           | Fault e q' => Fault e q'
           end.

Notation "x <- m ;; k" := (bind m (fun x => k))
  (at level 100, m at next level, right associativity,
   format "'[v' x  <-  m  ;; '/' k ']'").
Notation "m ;;; k" := (bind m (fun _ => k))
  (at level 100, right associativity, format "'[v' m  ;;; '/' k ']'").

Definition get : M TransferQueue := fun q => Ok q q.
Definition modify (f : TransferQueue -> TransferQueue) : M unit :=
  fun q => Ok tt (f q).
Definition stop {A} (f : fault) : M A := fun q => Fault f q.

Fixpoint foldM {A B} (f : B -> A -> M B) (l : list A) (b : B) : M B :=
  match l with
  | [] => ret b
  | x :: l => b' <- f b x ;; foldM f l b'
  end.

(** The wait group: [Add(1)], [Done()] (which panics below zero) and [Wait()]
    (which returns when the counter is zero; a positive counter when nothing
    runs any more blocks for ever). [wait_Done] also records which oid it
    closes, and how. *)
Definition wait_Add (n : Z) : M unit :=
  modify (fun q => set_wait (wait q + n) q).

Definition wait_Done (oid : string) (how : terminal) : M unit :=
  fun q =>
    if bool_decide (wait q <= 0)
    then Fault (Panic "sync: negative WaitGroup counter") q
    else Ok tt (set_closed (closed q ++ [(oid, how)]) (set_wait (wait q - 1) q)).

Definition wait_Wait : M unit :=
  fun q => if bool_decide (wait q = 0) then Ok tt q else Fault Blocked q.

(** [q.errorc <- err], received by [errorCollector], which appends it to
    [q.errors]. *)
Definition errorc_send (e : error) : M unit :=
  fun q =>
    if errorc_closed q then Fault (Panic "send on closed channel") q
    else Ok tt (set_errors (errors q ++ [e]) q).

Definition meter_do (c : meter_call) : M unit :=
  modify (fun q => set_meter (meter q ++ [c]) q).

(** [q.Skip(size)]. *)
Definition Skip (size : Z) : M unit := meter_do (MSkip size).

(** [t.SetObject(o)]. *)
Definition SetObject (t : Transferable) (o : ObjectResource) : M unit :=
  modify (fun q => set_objects (<[t_Oid t := o]> (objects q)) q).

(** [for _, c := range q.watchers { c <- oid }]: the send panics at the first
    closed channel, after the channels before it have received the oid. *)
Fixpoint send_all (oid : string) (ws : list watcher) : list watcher * bool :=
  match ws with
  | [] => ([], true)
  | c :: ws =>
      if w_closed c then (c :: ws, false)
      else
        let r := send_all oid ws in
        (mkWatcher (w_sent c ++ [oid]) false :: r.1, r.2)
  end.

Definition notify_watchers (oid : string) : M unit :=
  fun q =>
    let r := send_all oid (watchers q) in
    if r.2 then Ok tt (set_watchers r.1 q)
    else Fault (Panic "send on closed channel") (set_watchers r.1 q).

Definition transferKind (q : TransferQueue) : string :=
  match direction q with
  | Download => "download"
  | Upload => "upload"
  end.

Definition canRetry (err : error) : bool := errors_IsRetriableError err.

Definition canRetryObject (q : TransferQueue) (oid : string) (err : error) : bool :=
  if (CanRetry oid (rc q)).2 then canRetry err else false.

(** *** Options and construction *)

Definition TransferQueueOption : Type := TransferQueue -> TransferQueue.

Definition DryRun (dryRun : bool) : TransferQueueOption := set_dryRun dryRun.
Definition WithBatchSize (size : Z) : TransferQueueOption := set_batchSize size.

(** [NewTransferQueue(dir, options...)]; [cfg] is the configured number of
    retries, if any. The two goroutines that [run] starts are [errorCollector],
    folded into [errorc_send], and [collectBatches], below. *)
Definition NewTransferQueue (cfg : option Z) (dir : Direction)
    (options : list TransferQueueOption) : TransferQueue :=
  let q := mkTransferQueue dir None false false [] [] ∅ ∅ defaultBatchSize
             [] false false [] false 0 (newRetryCounter cfg) [] 0%nat [] [] in
  foldl (fun q opt => opt q) q options.

(** *** [Add] and [Watch] *)

Definition incoming_send (t : Transferable) : M unit :=
  fun q =>
    if incoming_closed q then Fault (Panic "send on closed channel") q
    else Ok tt (set_incoming (incoming q ++ [t]) q).

Definition Add (t : Transferable) : M unit :=
  q <- get ;;
  match transferables q !! t_Oid t with
  | None =>
      wait_Add 1 ;;;
      modify (fun q => set_transferables (<[t_Oid t := t]> (transferables q)) q) ;;;
      incoming_send t
  | Some _ => ret tt
  end.

Definition Watch : M nat :=
  q <- get ;;
  modify (set_watchers (watchers q ++ [mkWatcher [] false])) ;;;
  ret (length (watchers q)).

(** *** The adapter *)

Definition finishAdapter : M unit :=
  q <- get ;;
  if adapterInProgress q
  then modify (fun q => set_adapter None (set_adapterInProgress false q))
  else ret tt.

Definition useAdapter (w : World) (name : string) : M unit :=
  q <- get ;;
  let fresh := modify (set_adapter (Some (NewAdapterOrDefault w name (direction q)))) in
  match adapter q with
  | Some a => if String.eqb a name then ret tt else finishAdapter ;;; fresh
  | None => fresh
  end.

Definition ensureAdapterBegun (w : World) : M (option error) :=
  q <- get ;;
  if adapterInProgress q then ret None
  else
    match adapter q with
    | None => stop (Panic "invalid memory address or nil pointer dereference")
    | Some a =>
        modify (fun q => set_begun (S (begun q)) q) ;;;
        match adapter_Begin w (begun q) a with
        | Some err => ret (Some err)
        | None => modify (set_adapterInProgress true) ;;; ret None
        end
    end.

Definition makeDryRunResults (ts : list Transfer) : list TransferResult :=
  (fun t => mkTransferResult t None) <$> ts.

(** [q.adapter.Add(pending...)]: the results, in the order of completion. *)
Definition adapter_Add_call (w : World) (pending : list Transfer)
  : M (list TransferResult) :=
  q <- get ;;
  modify (set_dispatched (dispatched q ++ [pending])) ;;;
  ret (adapter_Add w (length (dispatched q)) pending).

(** [handleTransferResult(res, retries)]; the channel [retries] is the list of
    what was sent on it. *)
Definition handleTransferResult (retries : list Transferable)
    (res : TransferResult) : M (list Transferable) :=
  let oid := Oid (Object (res_Transfer res)) in
  q <- get ;;
  match res_Error res with
  | Some err =>
      if canRetryObject q oid err
      then
        match transferables q !! oid with
        | Some t => ret (retries ++ [t])
        | None => errorc_send err ;;; ret retries
        end
      else errorc_send err ;;; wait_Done oid FailedTerminal ;;; ret retries
  | None =>
      notify_watchers oid ;;;
      meter_do (MFinishTransfer (Name (res_Transfer res))) ;;;
      wait_Done oid Succeeded ;;;
      ret retries
  end.

(** [addToAdapter(pending)]: the goroutine that handles the results runs until
    it closes [retries], which is what the caller waits for; the value is what
    the caller reads from that channel. *)
Definition addToAdapter (w : World) (pending : list Transfer)
  : M (list Transferable) :=
  begun <- ensureAdapterBegun w ;;
  match begun with
  | Some err =>
      errorc_send err ;;;
      foldM (fun _ t =>
               Skip (Size (Object t)) ;;;
               wait_Done (Oid (Object t)) FailedTerminal) pending tt ;;;
      ret []
  | None =>
      q <- get ;;
      results <- (if dryRun q then ret (makeDryRunResults pending)
                  else adapter_Add_call w pending) ;;
      foldM handleTransferResult results []
  end.

(** *** The batch call *)

(** [api.Batch] is not among the sources; the client of the same package,
    [tqClient.Batch], answers an empty request itself and sends any other to
    the endpoint, and every failure it reports is one error for the whole
    batch. *)
Definition api_Batch (w : World) (objects : list ObjectResource)
    (operation : string) (transferAdapterNames : list string)
  : M (error + (list ObjectResource * string)) :=
  match objects with
  | [] => ret (inr ([], ""))
  | _ :: _ =>
      q <- get ;;
      modify (set_requests (requests q ++ [objects])) ;;;
      ret (batch_endpoint w (length (requests q)) operation objects
             transferAdapterNames)
  end.

(** One turn of the loop over [batch] after a failed batch call. *)
Definition retry_or_close (err : error) (next : Batch) (t : Transferable)
  : M Batch :=
  q <- get ;;
  if canRetryObject q (t_Oid t) err
  then modify (fun q => set_rc (Increment (t_Oid t) (rc q)) q) ;;; ret (next ++ [t])
  else wait_Done (t_Oid t) FailedTerminal ;;; ret next.

(** One turn of the loop over the objects of a batch response. Where the
    source finds no [Transferable] for the oid, [t] is the nil interface and
    [t.Size()] panics. *)
Definition negotiated (toTransfer : list Transfer) (o : ObjectResource)
  : M (list Transfer) :=
  q <- get ;;
  match Error o with
  | Some e =>
      errorc_send (errors_Wrapf e (Oid o)) ;;;
      Skip (Size o) ;;;
      wait_Done (Oid o) FailedTerminal ;;;
      ret toTransfer
  | None =>
      match Rel o (transferKind q) with
      | Some _ =>
          match transferables q !! Oid o with
          | Some t =>
              SetObject t o ;;;
              meter_do (MStartTransfer (t_Name t)) ;;;
              ret (toTransfer ++ [NewTransfer (t_Name t) o (t_Path t)])
          | None => stop (Panic "invalid memory address or nil pointer dereference")
          end
      | None =>
          Skip (Size o) ;;;
          wait_Done (Oid o) Skipped ;;;
          ret toTransfer
      end
  end.

(** One turn of the loop over the [retries] channel. *)
Definition enqueue_retry (next : Batch) (t : Transferable) : M Batch :=
  modify (fun q => set_rc (Increment (t_Oid t) (rc q)) q) ;;;
  ret (next ++ [t]).

Definition startProgress_Do : M unit :=
  q <- get ;;
  if startProgress q then ret tt
  else modify (set_startProgress true) ;;; meter_do MStart.

Definition enqueueAndCollectRetriesFor (w : World) (batch : Batch)
  : M (Batch * option error) :=
  q <- get ;;
  r <- api_Batch w (ApiObjects batch) (transferKind q)
         (GetAdapterNames w (direction q)) ;;
  match r with
  | inl err =>
      next <- foldM (retry_or_close err) batch [] ;;
      ret (next, Some err)
  | inr (objs, adapterName) =>
      useAdapter w adapterName ;;;
      startProgress_Do ;;;
      toTransfer <- foldM negotiated objs [] ;;
      retries <- addToAdapter w toTransfer ;;
      next <- foldM enqueue_retry retries [] ;;
      ret (next, None)
  end.

(** *** [collectBatches] *)

(** The inner loop: read from [incoming] until the batch is full or the
    channel is closed; [None] when the channel is empty and still open. *)
Fixpoint fill (max : Z) (closed : bool) (inc : list Transferable) (batch : Batch)
  : option (bool * Batch * list Transferable) :=
  if IsFull batch max then Some (false, batch, inc)
  else
    match inc with
    | [] => if closed then Some (true, batch, []) else None
    | t :: inc => fill max closed inc (batch ++ [t])
    end.

Definition receive (batch : Batch) : M (bool * Batch) :=
  fun q =>
    match fill (batchSize q) (incoming_closed q) (incoming q) batch with
    | Some (closing, batch, inc) => Ok (closing, batch) (set_incoming inc q)
    | None => Fault Blocked q
    end.

Fixpoint collectBatches_loop (w : World) (fuel : nat) (closing : bool)
    (batch : Batch) : M unit :=
  match fuel with
  | O => stop OutOfFuel
  | S fuel =>
      cb <- (if closing then ret (closing, batch) else receive batch) ;;
      let closing := cb.1 in
      let batch := sort_Sort (sort_Reverse Less) cb.2 in
      re <- enqueueAndCollectRetriesFor w batch ;;
      let retries := re.1 in
      match re.2 with Some err => errorc_send err | None => ret tt end ;;;
      if closing && bool_decide (length retries = 0%nat)
      then ret tt
      else collectBatches_loop w fuel closing retries
  end.

Definition collectBatches (w : World) (fuel : nat) : M unit :=
  collectBatches_loop w fuel false [].

(** *** [Wait] *)

Definition close_incoming : M unit :=
  fun q =>
    if incoming_closed q then Fault (Panic "close of closed channel") q
    else Ok tt (set_incoming_closed true q).

Definition close_errorc : M unit :=
  fun q =>
    if errorc_closed q then Fault (Panic "close of closed channel") q
    else Ok tt (set_errorc_closed true q).

Definition close_watchers : M unit :=
  fun q =>
    if forallb (fun c => negb (w_closed c)) (watchers q)
    then Ok tt (set_watchers ((fun c => mkWatcher (w_sent c) true) <$> watchers q) q)
    else Fault (Panic "close of closed channel") q.

(** [Wait()]. The batching goroutine only reads [incoming], and blocks on it:
    what it does is a function of what it receives, so the model runs it here,
    once the channel is closed, to its end. *)
Definition Wait (w : World) (fuel : nat) : M unit :=
  close_incoming ;;;
  collectBatches w fuel ;;;
  wait_Wait ;;;
  finishAdapter ;;;
  close_errorc ;;;
  close_watchers ;;;
  meter_do MFinish.

Definition Errors (q : TransferQueue) : list error := errors q.

(** A whole session: the objects are added, then [Wait] is called. *)
Definition session (w : World) (fuel : nat) (ts : list Transferable) : M unit :=
  foldM (fun _ t => Add t) ts tt ;;;
  Wait w fuel.

(** *** Reasoning about computations *)

Lemma bind_Ok {A B} (m : M A) (f : A -> M B) q a q' :
  m q = Ok a q' -> bind m f q = f a q'.
Proof. unfold bind. by intros ->. Qed.

Lemma bind_Fault {A B} (m : M A) (f : A -> M B) q e q' :
  m q = Fault e q' -> bind m f q = Fault e q'.
Proof. unfold bind. by intros ->. Qed.

Lemma bind_inv {A B} (m : M A) (f : A -> M B) q b q'' :
  bind m f q = Ok b q'' -> exists a q', m q = Ok a q' /\ f a q' = Ok b q''.
Proof. unfold bind. destruct (m q) as [a q'|]; [eauto | done]. Qed.

(** [steps R m]: whatever [m] does, returning or not, the state it reaches is
    related by [R] to the state it starts from. *)
Definition steps (R : relation TransferQueue) {A} (m : M A) : Prop :=
  forall q, R q (state_of (m q)).

Section Steps.
Context (R : relation TransferQueue) `{!PreOrder R}.

Lemma steps_ret {A} (a : A) : steps R (ret a).
Proof. intros q. reflexivity. Qed.

Lemma steps_get : steps R get.
Proof. intros q. reflexivity. Qed.

Lemma steps_stop {A} (f : fault) : steps R (@stop A f).
Proof. intros q. reflexivity. Qed.

Lemma steps_bind {A B} (m : M A) (f : A -> M B) :
  steps R m -> (forall a, steps R (f a)) -> steps R (bind m f).
Proof.
  intros Hm Hf q. unfold bind. specialize (Hm q).
  destruct (m q) as [a q'|e q']; [| done].
  etrans; [exact Hm | apply Hf].
Qed.

Lemma steps_foldM {A B} (f : B -> A -> M B) (l : list A) (b : B) :
  (forall b x, steps R (f b x)) -> steps R (foldM f l b).
Proof.
  intros Hf. revert b. induction l as [|x l IH]; intros b; simpl.
  - apply steps_ret.
  - apply steps_bind; [apply Hf | done].
Qed.

Lemma steps_modify (f : TransferQueue -> TransferQueue) :
  (forall q, R q (f q)) -> steps R (modify f).
Proof. intros Hf q. apply Hf. Qed.

End Steps.

(** What no step of the batching loop changes, and what it only extends. *)
Record frame (q q' : TransferQueue) : Prop := mkFrame {
  fr_direction : direction q' = direction q;
  fr_dryRun : dryRun q' = dryRun q;
  fr_batchSize : batchSize q' = batchSize q;
  fr_transferables : transferables q' = transferables q;
  fr_incoming_closed : incoming_closed q' = incoming_closed q;
  fr_errorc_closed : errorc_closed q' = errorc_closed q;
  fr_MaxRetries : MaxRetries (rc q') = MaxRetries (rc q);
  fr_watchers : w_closed <$> watchers q' = w_closed <$> watchers q;
  fr_account : wait q' + Z.of_nat (length (closed q'))
               = wait q + Z.of_nat (length (closed q));
  fr_closed : closed q `prefix_of` closed q';
  fr_errors : errors q `prefix_of` errors q';
  fr_requests : requests q `prefix_of` requests q';
  fr_dispatched : dispatched q `prefix_of` dispatched q'
}.

Global Instance frame_preorder : PreOrder frame.
Proof.
  split.
  - intros q. by split.
  - intros q1 q2 q3 [] []. split; try congruence; try (by etrans); lia.
Qed.

Lemma prefix_snoc {A} (l : list A) (x : A) : l `prefix_of` l ++ [x].
Proof. by apply prefix_app_r. Qed.

Local Hint Resolve prefix_snoc : core.

(** Primitive steps are settled by unfolding them; composite computations are
    taken apart along their binds, loops and case distinctions. *)
Ltac unfold_prims :=
  repeat progress unfold wait_Add, wait_Done, wait_Wait, errorc_send, Skip,
    meter_do, SetObject, incoming_send, finishAdapter, useAdapter,
    ensureAdapterBegun, adapter_Add_call, api_Batch, startProgress_Do,
    close_incoming, close_errorc, close_watchers, receive, modify, get, ret,
    bind, stop.

Ltac prim_step fin :=
  intros ?q; unfold_prims; unfold state_of;
  repeat (case_match; simplify_eq/=); fin.

Ltac is_prim m :=
  lazymatch m with
  | wait_Add _ => idtac | wait_Done _ _ => idtac | wait_Wait => idtac
  | errorc_send _ => idtac | Skip _ => idtac | meter_do _ => idtac
  | SetObject _ _ => idtac | incoming_send _ => idtac
  | finishAdapter => idtac | useAdapter _ _ => idtac
  | ensureAdapterBegun _ => idtac | adapter_Add_call _ _ => idtac
  | api_Batch _ _ _ _ => idtac | startProgress_Do => idtac
  | close_incoming => idtac | close_errorc => idtac
  | close_watchers => idtac | receive _ => idtac | modify _ => idtac
  end.

Ltac steps_with R fin :=
  repeat first
    [ apply (steps_ret R) | apply (steps_get R) | apply (steps_stop R)
    | solve [auto with nocore steps]
    | lazymatch goal with
      | |- steps _ ?m => is_prim m; solve [prim_step fin]
      end
    | lazymatch goal with
      | |- steps _ (foldM _ _ _) => apply (steps_foldM R); intros
      | |- steps _ (bind _ _) => apply (steps_bind R); [| intros]
      end
    | progress case_match ].

Create HintDb steps.

Lemma send_all_closed oid ws :
  w_closed <$> (send_all oid ws).1 = w_closed <$> ws.
Proof.
  induction ws as [|c ws IH]; [done |]. cbn [send_all].
  destruct (w_closed c) eqn:Hc; [done |]. cbn [fst].
  rewrite !fmap_cons, IH. cbn. by rewrite Hc.
Qed.

Lemma send_all_open oid ws :
  Forall (fun c => w_closed c = false) ws ->
  send_all oid ws
  = ((fun c => mkWatcher (w_sent c ++ [oid]) false) <$> ws, true).
Proof.
  induction 1 as [|c ws Hc _ IH]; [done |]. cbn [send_all].
  by rewrite Hc, IH.
Qed.

Lemma frame_notify_watchers oid : steps frame (notify_watchers oid).
Proof.
  intros q. unfold notify_watchers.
  pose proof (send_all_closed oid (watchers q)) as Hclosed.
  destruct (send_all oid (watchers q)) as [ws [|]]; by split.
Qed.

Global Hint Resolve frame_notify_watchers : steps.

Ltac frame_fin :=
  try reflexivity; split; cbn; auto; rewrite ?length_app; cbn; try lia.

Ltac frame_steps := steps_with frame frame_fin.

Lemma frame_handleTransferResult retries res :
  steps frame (handleTransferResult retries res).
Proof. unfold handleTransferResult. frame_steps. Qed.

Global Hint Resolve frame_handleTransferResult : steps.

Lemma frame_addToAdapter w pending : steps frame (addToAdapter w pending).
Proof. unfold addToAdapter. frame_steps. Qed.

Lemma frame_retry_or_close err next t : steps frame (retry_or_close err next t).
Proof. unfold retry_or_close. frame_steps. Qed.

Lemma frame_negotiated toTransfer o : steps frame (negotiated toTransfer o).
Proof. unfold negotiated. frame_steps. Qed.

Lemma frame_enqueue_retry next t : steps frame (enqueue_retry next t).
Proof. unfold enqueue_retry. frame_steps. Qed.

Global Hint Resolve frame_addToAdapter frame_retry_or_close frame_negotiated
  frame_enqueue_retry : steps.

Lemma frame_enqueueAndCollectRetriesFor w batch :
  steps frame (enqueueAndCollectRetriesFor w batch).
Proof. unfold enqueueAndCollectRetriesFor. frame_steps. Qed.

(** *** The retry counter *)

(** The counter as a Go value: the bound and every stored count are [int]s. *)
Definition rc_ok (r : retryCounter) : Prop :=
  MaxRetries r <= int_max /\
  forall oid c, count r !! oid = Some c -> int_min <= c <= int_max.

Lemma wrap_int_range z : int_min <= wrap_int z <= int_max.
Proof.
  unfold wrap_int, int_min, int_max.
  pose proof (Z.mod_pos_bound (z + 2 ^ 63) (2 ^ 64)). lia.
Qed.

Lemma wrap_int_id z : int_min <= z <= int_max -> wrap_int z = z.
Proof.
  unfold wrap_int, int_min, int_max. intros Hz.
  rewrite Z.mod_small by lia. lia.
Qed.

Lemma CountFor_range oid r : rc_ok r -> int_min <= CountFor oid r <= int_max.
Proof.
  intros [_ Hr]. unfold CountFor.
  destruct (count r !! oid) as [c|] eqn:Hc; [by eapply Hr |].
  unfold int_min, int_max. simpl. lia.
Qed.

Lemma Increment_ok oid r : rc_ok r -> rc_ok (Increment oid r).
Proof.
  intros [Hmax Hr]. split; [done |]. intros oid' c. simpl.
  destruct (decide (oid = oid')) as [<-|Hne].
  - rewrite lookup_insert_eq. intros [= <-]. apply wrap_int_range.
  - rewrite lookup_insert_ne by done. apply Hr.
Qed.

Lemma MaxRetries_Increment oid r : MaxRetries (Increment oid r) = MaxRetries r.
Proof. done. Qed.

Lemma CountFor_Increment_ne oid oid' r :
  oid <> oid' -> CountFor oid' (Increment oid r) = CountFor oid' r.
Proof. intros Hne. unfold CountFor. simpl. by rewrite lookup_insert_ne. Qed.

Lemma CountFor_Increment_wrap oid r :
  CountFor oid (Increment oid r) = wrap_int (CountFor oid r + 1).
Proof. unfold CountFor at 1. simpl. by rewrite lookup_insert_eq. Qed.

(** An increment that [CanRetry] allowed does not wrap around. *)
Lemma CountFor_Increment oid r :
  rc_ok r -> CountFor oid r < MaxRetries r ->
  CountFor oid (Increment oid r) = CountFor oid r + 1.
Proof.
  intros Hr Hlt. rewrite CountFor_Increment_wrap.
  pose proof (CountFor_range oid r Hr). destruct Hr as [Hmax _].
  apply wrap_int_id. lia.
Qed.

Lemma newRetryCounter_ok cfg :
  (forall max, cfg = Some max -> max <= int_max) -> rc_ok (newRetryCounter cfg).
Proof.
  intros Hcfg. split; [| done]. unfold newRetryCounter. simpl.
  case_bool_decide; [done |].
  destruct cfg as [max|]; simpl; [by apply Hcfg | done].
Qed.

Lemma canRetryObject_spec q oid err :
  canRetryObject q oid err = true <->
  CountFor oid (rc q) < MaxRetries (rc q) /\ err_retriable err = true.
Proof.
  unfold canRetryObject, CanRetry, canRetry, errors_IsRetriableError. simpl.
  case_bool_decide; [tauto |]. split; [done | tauto].
Qed.

(** *** Sorting a batch *)

Definition larger_first (x y : Transferable) : Prop := t_Size y <= t_Size x.

Lemma sort_Sort_Permutation batch :
  sort_Sort (sort_Reverse Less) batch ≡ₚ batch.
Proof. apply merge_sort_Permutation. Qed.

Lemma StronglySorted_impl {A} (R1 R2 : relation A) l :
  (forall x y, R1 x y -> R2 x y) -> StronglySorted R1 l -> StronglySorted R2 l.
Proof.
  intros HR. induction 1 as [|x l _ IH Hx]; constructor; [done |].
  eapply Forall_impl; [exact Hx | auto].
Qed.

Lemma sort_Sort_larger_first batch :
  StronglySorted larger_first (sort_Sort (sort_Reverse Less) batch).
Proof.
  unfold sort_Sort.
  set (R := fun x y : Transferable => Is_true (negb (sort_Reverse Less y x))).
  assert (HR : forall x y, R x y <-> larger_first x y).
  { intros x y. unfold R, sort_Reverse, Less, larger_first.
    case_bool_decide; simpl; split; intros; try done; lia. }
  assert (Transitive R).
  { intros x y z. rewrite !HR. unfold larger_first. lia. }
  assert (Total R).
  { intros x y. rewrite !HR. unfold larger_first. lia. }
  eapply StronglySorted_impl; [apply HR |].
  by apply StronglySorted_merge_sort.
Qed.

(** A request to the batch endpoint lists its objects largest first. *)
Definition descending (objs : list ObjectResource) : Prop :=
  StronglySorted (fun a b => Size b <= Size a) objs.

Lemma ApiObjects_descending batch :
  StronglySorted larger_first batch -> descending (ApiObjects batch).
Proof.
  intros Hs. unfold descending, ApiObjects.
  eapply StronglySorted_fmap; [| exact Hs]. by intros x y.
Qed.

(** The requests only grow, by requests that are sorted. *)
Definition sorted_requests (q q' : TransferQueue) : Prop :=
  exists new, requests q' = requests q ++ new /\ Forall descending new.

Global Instance sorted_requests_preorder : PreOrder sorted_requests.
Proof.
  split.
  - intros q. exists []. by rewrite app_nil_r.
  - intros q1 q2 q3 (n1 & H1 & Hn1) (n2 & H2 & Hn2). exists (n1 ++ n2).
    rewrite H2, H1, app_assoc. split; [done |]. by apply Forall_app.
Qed.

Lemma sorted_requests_same q q' :
  requests q' = requests q -> sorted_requests q q'.
Proof. intros Hq. exists []. by rewrite app_nil_r. Qed.

Lemma sorted_api_Batch w objects operation names :
  descending objects -> steps sorted_requests (api_Batch w objects operation names).
Proof.
  intros Hs q. unfold api_Batch. destruct objects as [|o objects]; cbn.
  - reflexivity.
  - exists [o :: objects]. split; [done |]. constructor; [done | constructor].
Qed.

Lemma sorted_notify_watchers oid : steps sorted_requests (notify_watchers oid).
Proof.
  intros q. unfold notify_watchers.
  destruct (send_all oid (watchers q)) as [ws [|]]; by apply sorted_requests_same.
Qed.

Global Hint Resolve sorted_api_Batch sorted_notify_watchers : steps.

Ltac sorted_steps :=
  steps_with sorted_requests ltac:(by apply sorted_requests_same).

Lemma sorted_handleTransferResult retries res :
  steps sorted_requests (handleTransferResult retries res).
Proof. unfold handleTransferResult. sorted_steps. Qed.

Global Hint Resolve sorted_handleTransferResult : steps.

Lemma sorted_enqueueAndCollectRetriesFor w batch :
  descending (ApiObjects batch) ->
  steps sorted_requests (enqueueAndCollectRetriesFor w batch).
Proof.
  intros Hs.
  unfold enqueueAndCollectRetriesFor, retry_or_close, negotiated, addToAdapter,
    enqueue_retry.
  sorted_steps.
Qed.

Lemma sorted_collectBatches_loop w fuel closing batch :
  steps sorted_requests (collectBatches_loop w fuel closing batch).
Proof.
  revert closing batch. induction fuel as [|fuel IH]; intros closing batch.
  - apply steps_stop; apply _.
  - cbn [collectBatches_loop].
    apply (steps_bind sorted_requests); [sorted_steps |]. intros cb.
    apply (steps_bind sorted_requests).
    { apply sorted_enqueueAndCollectRetriesFor, ApiObjects_descending,
        sort_Sort_larger_first. }
    intros re. apply (steps_bind sorted_requests); [sorted_steps |].
    intros _. destruct (_ && _); [apply steps_ret; apply _ | apply IH].
Qed.

(** *** A failed batch call *)

Lemma wait_Done_Ok oid how q :
  0 < wait q ->
  wait_Done oid how q
  = Ok tt (set_closed (closed q ++ [(oid, how)]) (set_wait (wait q - 1) q)).
Proof. intros Hw. unfold wait_Done. by rewrite bool_decide_false by lia. Qed.

Lemma errorc_send_Ok e q :
  errorc_closed q = false ->
  errorc_send e q = Ok tt (set_errors (errors q ++ [e]) q).
Proof. intros Hc. unfold errorc_send. by rewrite Hc. Qed.

Definition incremented (oids : list string) (r : retryCounter) : retryCounter :=
  foldl (fun r oid => Increment oid r) r oids.

Lemma incremented_ok oids r : rc_ok r -> rc_ok (incremented oids r).
Proof.
  revert r. induction oids as [|oid oids IH]; intros r Hr; [done |].
  simpl. by apply IH, Increment_ok.
Qed.

Lemma MaxRetries_incremented oids r :
  MaxRetries (incremented oids r) = MaxRetries r.
Proof.
  revert r. induction oids as [|oid oids IH]; intros r; [done |].
  simpl. by rewrite IH.
Qed.

Lemma CountFor_incremented_notin oid oids r :
  oid ∉ oids -> CountFor oid (incremented oids r) = CountFor oid r.
Proof.
  revert r. induction oids as [|oid' oids IH]; intros r Hnotin; [done |].
  apply not_elem_of_cons in Hnotin as [Hne Hnotin]. simpl.
  rewrite IH by done. by apply CountFor_Increment_ne.
Qed.

Lemma CountFor_incremented_in oid oids r :
  rc_ok r -> NoDup oids -> oid ∈ oids ->
  CountFor oid r < MaxRetries r ->
  CountFor oid (incremented oids r) = CountFor oid r + 1.
Proof.
  revert r. induction oids as [|oid' oids IH]; intros r Hr Hnd Hin Hlt.
  { by apply elem_of_nil in Hin. }
  apply NoDup_cons in Hnd as [Hnotin Hnd]. simpl.
  apply elem_of_cons in Hin as [->|Hin].
  - rewrite CountFor_incremented_notin by done. by apply CountFor_Increment.
  - assert (oid' <> oid) by (by intros ->).
    rewrite IH; [by rewrite CountFor_Increment_ne | by apply Increment_ok
                | done | done |].
    by rewrite CountFor_Increment_ne, MaxRetries_Increment.
Qed.

Lemma canRetryObject_other q q' oid err :
  MaxRetries (rc q') = MaxRetries (rc q) ->
  CountFor oid (rc q') = CountFor oid (rc q) ->
  canRetryObject q' oid err = canRetryObject q oid err.
Proof. intros Hmax Hc. unfold canRetryObject, CanRetry. simpl. by rewrite Hmax, Hc. Qed.

Lemma foldM_cons_Ok {A B} (f : B -> A -> M B) x l b q b' q' :
  f b x q = Ok b' q' -> foldM f (x :: l) b q = foldM f l b' q'.
Proof. intros Hf. cbn [foldM]. by apply bind_Ok. Qed.

Lemma foldM_cons_Fault {A B} (f : B -> A -> M B) x l b q e q' :
  f b x q = Fault e q' -> foldM f (x :: l) b q = Fault e q'.
Proof. intros Hf. cbn [foldM]. by apply bind_Fault. Qed.

Lemma retry_or_close_retry err next t q :
  canRetryObject q (t_Oid t) err = true ->
  retry_or_close err next t q
  = Ok (next ++ [t]) (set_rc (Increment (t_Oid t) (rc q)) q).
Proof. intros Hcan. unfold retry_or_close, bind, get, modify, ret. by rewrite Hcan. Qed.

Lemma retry_or_close_close err next t q :
  canRetryObject q (t_Oid t) err = false ->
  0 < wait q ->
  retry_or_close err next t q
  = Ok next (set_closed (closed q ++ [(t_Oid t, FailedTerminal)])
               (set_wait (wait q - 1) q)).
Proof.
  intros Hcan Hwait. unfold retry_or_close, bind, get, ret.
  by rewrite Hcan, wait_Done_Ok.
Qed.

(** The loop over the batch after a failed call: the objects that can be
    retried form the next batch, in order, each with one more retry counted;
    the others are closed as failed. *)
Lemma retry_or_close_loop_with err (can : Transferable -> bool) batch :
  forall next q,
  NoDup (t_Oid <$> batch) ->
  Z.of_nat (length batch) <= wait q ->
  (forall t, t ∈ batch -> canRetryObject q (t_Oid t) err = can t) ->
  let keep := filter (fun t => can t) batch in
  let drop := filter (fun t => negb (can t)) batch in
  foldM (retry_or_close err) batch next q
  = Ok (next ++ keep)
      (set_rc (incremented (t_Oid <$> keep) (rc q))
         (set_closed (closed q ++ ((fun t => (t_Oid t, FailedTerminal)) <$> drop))
            (set_wait (wait q - Z.of_nat (length drop)) q))).
Proof.
  induction batch as [|t batch IH]; intros next q Hnd Hwait Hcan keep drop.
  { subst keep drop. cbn. rewrite !app_nil_r, Z.sub_0_r. by destruct q. }
  rewrite fmap_cons in Hnd. apply NoDup_cons in Hnd as [Hnotin Hnd].
  rewrite length_cons in Hwait.
  assert (Hne : forall t', t' ∈ batch -> t_Oid t ≠ t_Oid t').
  { intros t' Hin Heq. apply Hnotin. rewrite Heq. by apply list_elem_of_fmap_2. }
  pose proof (Hcan t (list_elem_of_here _ _)) as Hcant.
  subst keep drop. destruct (can t) eqn:Hc.
  - rewrite (foldM_cons_Ok _ _ _ _ _ _ _ (retry_or_close_retry _ _ _ _ Hcant)).
    rewrite IH; [| done | cbn; lia |]; cycle 1.
    { intros t' Hin. rewrite <- (Hcan t') by by apply list_elem_of_further.
      apply canRetryObject_other; [done |]. cbn.
      by apply CountFor_Increment_ne, Hne. }
    rewrite filter_cons_True by (by rewrite Hc).
    rewrite filter_cons_False by (rewrite Hc; simpl; tauto).
    cbn. by rewrite <- app_assoc.
  - rewrite (foldM_cons_Ok _ _ _ _ _ _ _
               (retry_or_close_close _ _ _ _ Hcant ltac:(lia))).
    rewrite IH; [| done | cbn; lia |]; cycle 1.
    { intros t' Hin. rewrite <- (Hcan t') by by apply list_elem_of_further.
      by apply canRetryObject_other. }
    rewrite filter_cons_False by (rewrite Hc; simpl; tauto).
    rewrite filter_cons_True by (rewrite Hc; simpl; tauto).
    rewrite fmap_cons. cbn. rewrite <- app_assoc. cbn.
    f_equal. unfold set_rc, set_closed, set_wait. cbn. f_equal. lia.
Qed.

Lemma api_Batch_request w objects operation names q :
  objects <> [] ->
  api_Batch w objects operation names q
  = Ok (batch_endpoint w (length (requests q)) operation objects names)
      (set_requests (requests q ++ [objects]) q).
Proof. intros Hne. by destruct objects. Qed.

Lemma api_Batch_empty w operation names q :
  api_Batch w [] operation names q = Ok (inr ([], "")) q.
Proof. done. Qed.

Lemma ApiObjects_nil batch : ApiObjects batch = [] <-> batch = [].
Proof. by destruct batch. Qed.

(** Whether the batching loop retries [t] after the whole-batch error [err]:
    the object has retries left and the error is retriable. *)
Definition retried (q : TransferQueue) (err : error) (t : Transferable) : bool :=
  bool_decide (CountFor (t_Oid t) (rc q) < MaxRetries (rc q)) && err_retriable err.

Lemma canRetryObject_retried q err t :
  canRetryObject q (t_Oid t) err = retried q err t.
Proof.
  unfold canRetryObject, retried, CanRetry, canRetry, errors_IsRetriableError.
  simpl. by case_bool_decide.
Qed.

Lemma enqueueAndCollectRetriesFor_failed w batch q err :
  batch <> [] ->
  NoDup (t_Oid <$> batch) ->
  Z.of_nat (length batch) <= wait q ->
  batch_endpoint w (length (requests q)) (transferKind q) (ApiObjects batch)
    (GetAdapterNames w (direction q)) = inl err ->
  enqueueAndCollectRetriesFor w batch q
  = Ok (filter (fun t => retried q err t) batch, Some err)
      (set_rc (incremented (t_Oid <$> filter (fun t => retried q err t) batch) (rc q))
         (set_closed
            (closed q ++ ((fun t => (t_Oid t, FailedTerminal))
                            <$> filter (fun t => negb (retried q err t)) batch))
            (set_wait
               (wait q - Z.of_nat (length (filter (fun t => negb (retried q err t)) batch)))
               (set_requests (requests q ++ [ApiObjects batch]) q)))).
Proof.
  intros Hne Hnd Hwait Hend. unfold enqueueAndCollectRetriesFor.
  unfold bind at 1, get at 1.
  rewrite (bind_Ok _ _ _ _ _ (api_Batch_request _ _ _ _ _
                                ltac:(by rewrite ApiObjects_nil))).
  rewrite Hend.
  erewrite bind_Ok; [reflexivity |].
  by rewrite (retry_or_close_loop_with err (retried q err) batch [] _ Hnd)
    by first [done | intros; apply canRetryObject_retried].
Qed.

(** *** An object nobody asked for *)

Lemma negotiated_unknown toTransfer o q a :
  Error o = None ->
  Rel o (transferKind q) = Some a ->
  transferables q !! Oid o = None ->
  negotiated toTransfer o q
  = Fault (Panic "invalid memory address or nil pointer dereference") q.
Proof.
  intros Herr Hrel Hnone. unfold negotiated, bind, get, stop.
  by rewrite Herr, Hrel, Hnone.
Qed.

(** *** What a turn of the batching loop leaves alone *)

Lemma steps_Ok (R : relation TransferQueue) {A} (m : M A) q a q' :
  steps R m -> m q = Ok a q' -> R q q'.
Proof. intros Hm Hq. specialize (Hm q). by rewrite Hq in Hm. Qed.

(** [same f]: the component [f] of the queue is not changed. *)
Definition same {X} (f : TransferQueue -> X) : relation TransferQueue :=
  fun q q' => f q' = f q.

Global Instance same_preorder {X} (f : TransferQueue -> X) : PreOrder (same f).
Proof. split; [by intros q | intros q1 q2 q3; unfold same; congruence]. Qed.

Lemma same_notify_watchers {X} (f : TransferQueue -> X) oid :
  (forall ws q, f (set_watchers ws q) = f q) ->
  steps (same f) (notify_watchers oid).
Proof.
  intros Hf q. unfold notify_watchers, same.
  destruct (send_all oid (watchers q)) as [ws [|]]; apply Hf.
Qed.

Global Hint Extern 1 (steps (same _) (notify_watchers _)) =>
  apply same_notify_watchers; intros; reflexivity : steps.

Ltac same_steps f := steps_with (same f) ltac:(reflexivity).

Lemma incoming_enqueueAndCollectRetriesFor w batch :
  steps (same incoming) (enqueueAndCollectRetriesFor w batch).
Proof.
  unfold enqueueAndCollectRetriesFor, retry_or_close, negotiated, addToAdapter,
    enqueue_retry, handleTransferResult.
  same_steps incoming.
Qed.

Lemma rc_negotiated toTransfer o : steps (same rc) (negotiated toTransfer o).
Proof. unfold negotiated. same_steps rc. Qed.

Lemma rc_addToAdapter w pending : steps (same rc) (addToAdapter w pending).
Proof. unfold addToAdapter, handleTransferResult. same_steps rc. Qed.

Lemma rc_useAdapter w name : steps (same rc) (useAdapter w name).
Proof. same_steps rc. Qed.

Lemma rc_startProgress_Do : steps (same rc) startProgress_Do.
Proof. same_steps rc. Qed.

Lemma watchers_negotiated toTransfer o :
  steps (same watchers) (negotiated toTransfer o).
Proof. unfold negotiated. same_steps watchers. Qed.

Lemma adapter_negotiated toTransfer o :
  steps (same adapter) (negotiated toTransfer o).
Proof. unfold negotiated. same_steps adapter. Qed.

Lemma adapterInProgress_negotiated toTransfer o :
  steps (same adapterInProgress) (negotiated toTransfer o).
Proof. unfold negotiated. same_steps adapterInProgress. Qed.

Lemma dispatched_negotiated toTransfer o :
  steps (same dispatched) (negotiated toTransfer o).
Proof. unfold negotiated. same_steps dispatched. Qed.

Global Hint Resolve rc_negotiated watchers_negotiated adapter_negotiated
  adapterInProgress_negotiated dispatched_negotiated : steps.

(** *** The steps of a turn, when nothing stops them *)

(** One object of the response: it is closed, or a transfer is added. *)
Lemma negotiated_Ok toTransfer o q :
  errorc_closed q = false ->
  0 < wait q ->
  is_Some (transferables q !! Oid o) ->
  exists toTransfer' q',
    negotiated toTransfer o q = Ok toTransfer' q' /\
    ((exists how, how <> Succeeded /\ toTransfer' = toTransfer /\
        closed q' = closed q ++ [(Oid o, how)]) \/
     (exists t, transferables q !! Oid o = Some t /\
        Error o = None /\ is_Some (Rel o (transferKind q)) /\
        toTransfer' = toTransfer ++ [NewTransfer (t_Name t) o (t_Path t)] /\
        closed q' = closed q)).
Proof.
  intros Herrc Hwait [t Ht]. unfold negotiated, bind, get.
  destruct (Error o) as [e|] eqn:He.
  - rewrite (errorc_send_Ok _ _ Herrc). unfold Skip, meter_do, modify.
    rewrite wait_Done_Ok by done. unfold ret.
    eexists _, _. split; [reflexivity |]. left. by exists FailedTerminal.
  - destruct (Rel o (transferKind q)) as [a|] eqn:Hrel.
    + rewrite Ht. unfold SetObject, meter_do, modify, ret.
      eexists _, _. split; [reflexivity |]. right. exists t.
      split_and!; [done | done | by eexists | done | done].
    + unfold Skip, meter_do, modify. rewrite wait_Done_Ok by done. unfold ret.
      eexists _, _. split; [reflexivity |]. left. by exists Skipped.
Qed.

Definition transfer_oid (t : Transfer) : string := Oid (Object t).

(** The loop over the objects of a response. *)
Lemma negotiated_loop objs : forall toTransfer q,
  errorc_closed q = false ->
  Z.of_nat (length objs) <= wait q ->
  Forall (fun o => is_Some (transferables q !! Oid o)) objs ->
  exists new q' cl,
    foldM negotiated objs toTransfer q = Ok (toTransfer ++ new) q' /\
    closed q' = closed q ++ cl /\
    Forall (fun p => p.2 <> Succeeded) cl /\
    cl.*1 ++ (transfer_oid <$> new) ≡ₚ Oid <$> objs /\
    Forall (fun tr => exists t o,
              transferables q !! transfer_oid tr = Some t /\
              o ∈ objs /\ Error o = None /\ is_Some (Rel o (transferKind q)) /\
              tr = NewTransfer (t_Name t) o (t_Path t)) new.
Proof.
  induction objs as [|o objs IH]; intros toTransfer q Herrc Hwait Hknown.
  { exists [], q, []. rewrite !app_nil_r. by split_and!. }
  rewrite length_cons in Hwait.
  apply Forall_cons in Hknown as [Ho Hknown].
  destruct (negotiated_Ok toTransfer o q Herrc ltac:(lia) Ho)
    as (toT1 & q1 & Hstep & Hcases).
  pose proof (steps_Ok _ _ _ _ _ (frame_negotiated toTransfer o) Hstep) as Hfr.
  rewrite (foldM_cons_Ok _ _ _ _ _ _ _ Hstep).
  assert (Hkind : transferKind q1 = transferKind q).
  { unfold transferKind. by rewrite (fr_direction _ _ Hfr). }
  destruct (IH toT1 q1) as (new & q' & cl & Hrun & Hcl & Hhow & Hperm & Hnew).
  { by rewrite (fr_errorc_closed _ _ Hfr). }
  { pose proof (fr_account _ _ Hfr) as Hacc.
    destruct Hcases as [(how & _ & _ & Hc)|(t & _ & _ & _ & _ & Hc)];
      rewrite Hc in Hacc; rewrite ?length_app in Hacc; simpl in Hacc; lia. }
  { by rewrite (fr_transferables _ _ Hfr). }
  rewrite (fr_transferables _ _ Hfr), Hkind in Hnew.
  assert (Hnew' : Forall (fun tr => exists t o',
              transferables q !! transfer_oid tr = Some t /\
              o' ∈ o :: objs /\ Error o' = None /\
              is_Some (Rel o' (transferKind q)) /\
              tr = NewTransfer (t_Name t) o' (t_Path t)) new).
  { eapply Forall_impl; [exact Hnew |]. intros tr (t & o' & ? & ? & ?).
    exists t, o'. split_and!; try tauto. by apply list_elem_of_further. }
  destruct Hcases as [(how & Hne & -> & Hc)|(t & Ht & He & Hr & -> & Hc)].
  - exists new, q', ((Oid o, how) :: cl). rewrite Hrun, Hcl, Hc.
    split_and!; [done | by rewrite <- app_assoc | by constructor | | done].
    rewrite fmap_cons. simpl. by rewrite Hperm.
  - exists (NewTransfer (t_Name t) o (t_Path t) :: new), q', cl.
    rewrite Hrun, Hcl, Hc.
    split_and!; [by rewrite <- app_assoc | done | done | |].
    + rewrite !fmap_cons. rewrite <- Hperm.
      by rewrite <- Permutation_middle.
    + constructor; [| done]. exists t, o.
      split_and!; [done | apply list_elem_of_here | done | done | done].
Qed.

Definition watchers_open (q : TransferQueue) : Prop :=
  Forall (fun c => w_closed c = false) (watchers q).

Lemma watchers_open_frame q q' : frame q q' -> watchers_open q -> watchers_open q'.
Proof.
  intros Hfr Hopen. unfold watchers_open in *.
  apply (Forall_fmap w_closed (fun b => b = false)).
  rewrite (fr_watchers _ _ Hfr). by apply Forall_fmap.
Qed.

Lemma notify_watchers_Ok oid q :
  watchers_open q ->
  notify_watchers oid q
  = Ok tt (set_watchers
             ((fun c => mkWatcher (w_sent c ++ [oid]) false) <$> watchers q) q).
Proof. intros Hopen. unfold notify_watchers. by rewrite send_all_open. Qed.

(** The keys of the registry are the oids of the objects it holds. *)
Definition keyed (q : TransferQueue) : Prop :=
  forall oid t, transferables q !! oid = Some t -> t_Oid t = oid.

Definition result_oid (res : TransferResult) : string :=
  transfer_oid (res_Transfer res).

(** One result of the adapter: the object is closed, or sent to be retried. *)
Lemma handleTransferResult_Ok retries res q :
  errorc_closed q = false ->
  watchers_open q ->
  0 < wait q ->
  is_Some (transferables q !! result_oid res) ->
  exists retries' q',
    handleTransferResult retries res q = Ok retries' q' /\
    ((exists how, retries' = retries /\
        closed q' = closed q ++ [(result_oid res, how)] /\
        (how = Succeeded <-> res_Error res = None)) \/
     (exists t err, transferables q !! result_oid res = Some t /\
        res_Error res = Some err /\
        canRetryObject q (result_oid res) err = true /\
        retries' = retries ++ [t] /\
        closed q' = closed q)).
Proof.
  intros Herrc Hopen Hwait [t Ht]. unfold handleTransferResult, bind, get.
  fold (transfer_oid (res_Transfer res)). fold (result_oid res).
  destruct (res_Error res) as [err|] eqn:He.
  - destruct (canRetryObject q (result_oid res) err) eqn:Hcan.
    + rewrite Ht. unfold ret. eexists _, _. split; [reflexivity |].
      right. by exists t, err.
    + rewrite (errorc_send_Ok _ _ Herrc), wait_Done_Ok by done. unfold ret.
      eexists _, _. split; [reflexivity |]. left. exists FailedTerminal.
      by split_and!.
  - rewrite (notify_watchers_Ok _ _ Hopen). unfold meter_do, modify.
    rewrite wait_Done_Ok by done. unfold ret.
    eexists _, _. split; [reflexivity |]. left. exists Succeeded.
    by split_and!.
Qed.

Lemma rc_handleTransferResult retries res :
  steps (same rc) (handleTransferResult retries res).
Proof. unfold handleTransferResult. same_steps rc. Qed.

(** The loop over the results of the adapter. *)
Lemma handleTransferResult_loop results : forall retries q,
  errorc_closed q = false ->
  watchers_open q ->
  keyed q ->
  Z.of_nat (length results) <= wait q ->
  Forall (fun res => is_Some (transferables q !! result_oid res)) results ->
  exists new q' cl,
    foldM handleTransferResult results retries q = Ok (retries ++ new) q' /\
    closed q' = closed q ++ cl /\
    cl.*1 ++ (t_Oid <$> new) ≡ₚ result_oid <$> results /\
    Forall (fun t => transferables q !! t_Oid t = Some t /\
                     CountFor (t_Oid t) (rc q) < MaxRetries (rc q)) new.
Proof.
  induction results as [|res results IH];
    intros retries q Herrc Hopen Hkeyed Hwait Hknown.
  { exists [], q, []. rewrite !app_nil_r. by split_and!. }
  rewrite length_cons in Hwait.
  apply Forall_cons in Hknown as [Hres Hknown].
  destruct (handleTransferResult_Ok retries res q Herrc Hopen ltac:(lia) Hres)
    as (retries1 & q1 & Hstep & Hcases).
  pose proof (steps_Ok _ _ _ _ _ (frame_handleTransferResult retries res) Hstep)
    as Hfr.
  pose proof (steps_Ok _ _ _ _ _ (rc_handleTransferResult retries res) Hstep)
    as Hrc. unfold same in Hrc.
  rewrite (foldM_cons_Ok _ _ _ _ _ _ _ Hstep).
  destruct (IH retries1 q1) as (new & q' & cl & Hrun & Hcl & Hperm & Hnew).
  { by rewrite (fr_errorc_closed _ _ Hfr). }
  { by eapply watchers_open_frame. }
  { unfold keyed. by rewrite (fr_transferables _ _ Hfr). }
  { pose proof (fr_account _ _ Hfr) as Hacc.
    destruct Hcases as [(how & _ & Hc & _)|(t & err & _ & _ & _ & _ & Hc)];
      rewrite Hc in Hacc; rewrite ?length_app in Hacc; simpl in Hacc; lia. }
  { by rewrite (fr_transferables _ _ Hfr). }
  rewrite (fr_transferables _ _ Hfr), Hrc in Hnew.
  destruct Hcases as [(how & -> & Hc & _)|(t & err & Ht & _ & Hcan & -> & Hc)].
  - exists new, q', ((result_oid res, how) :: cl). rewrite Hrun, Hcl, Hc.
    split_and!; [done | by rewrite <- app_assoc | | done].
    rewrite fmap_cons. simpl. by rewrite Hperm.
  - exists (t :: new), q', cl. rewrite Hrun, Hcl, Hc.
    assert (Hoid : t_Oid t = result_oid res) by by apply Hkeyed.
    split_and!; [by rewrite <- app_assoc | done | |].
    + rewrite !fmap_cons, Hoid, <- Hperm. by rewrite <- Permutation_middle.
    + constructor; [| done]. rewrite Hoid. split; [done |].
      by apply canRetryObject_spec in Hcan as [? _].
Qed.

(** The loop that closes the pending transfers when the adapter does not
    start. *)
Lemma skip_loop pending : forall q,
  Z.of_nat (length pending) <= wait q ->
  exists q',
    foldM (fun _ t => Skip (Size (Object t)) ;;;
                      wait_Done (Oid (Object t)) FailedTerminal) pending tt q
    = Ok tt q' /\
    closed q' = closed q
                ++ ((fun t => (transfer_oid t, FailedTerminal)) <$> pending).
Proof.
  induction pending as [|t pending IH]; intros q Hwait.
  { exists q. by rewrite app_nil_r. }
  rewrite length_cons in Hwait. cbn [foldM].
  unfold bind at 1, bind at 1, Skip, meter_do, modify.
  rewrite wait_Done_Ok by (cbn; lia).
  destruct (IH (set_closed
                  (closed q ++ [(Oid (Object t), FailedTerminal)])
                  (set_wait (wait q - 1) (set_meter (meter q ++ [MSkip (Size (Object t))]) q))))
    as (q' & Hrun & Hcl); [cbn; lia |].
  exists q'. split; [exact Hrun |]. rewrite Hcl. cbn.
  by rewrite <- app_assoc.
Qed.

(** The loop that reads the [retries] channel. *)
Lemma enqueue_retry_loop retries : forall next q,
  foldM enqueue_retry retries next q
  = Ok (next ++ retries) (set_rc (incremented (t_Oid <$> retries) (rc q)) q).
Proof.
  induction retries as [|t retries IH]; intros next q.
  { cbn. rewrite app_nil_r. by destruct q as [? ? ? ? ? ? ? ? ? ? ? ? ? ? ? []]. }
  cbn [foldM]. unfold enqueue_retry at 1, bind at 1, bind at 1, modify, ret.
  rewrite IH. by rewrite <- app_assoc.
Qed.

(** *** The contract of the collaborators *)

(** The batch endpoint answers a request with one object per object asked
    for, and the adapter returns one result per transfer it was given, in any
    order. *)
Record well_behaved (w : World) : Prop := mkWellBehaved {
  one_object_per_request : forall n operation objs names res name,
    batch_endpoint w n operation objs names = inr (res, name) ->
    Oid <$> res ≡ₚ Oid <$> objs;
  one_result_per_transfer : forall n pending,
    res_Transfer <$> adapter_Add w n pending ≡ₚ pending
}.

Lemma ensureAdapterBegun_Ok w q :
  is_Some (adapter q) ->
  exists err q', ensureAdapterBegun w q = Ok err q'.
Proof.
  intros [a Ha]. unfold ensureAdapterBegun, bind, get, modify, ret.
  destruct (adapterInProgress q); [by eexists _, _ |]. rewrite Ha.
  destruct (adapter_Begin w (begun q) a); by eexists _, _.
Qed.

Lemma frame_ensureAdapterBegun w : steps frame (ensureAdapterBegun w).
Proof. frame_steps. Qed.

Lemma rc_ensureAdapterBegun w : steps (same rc) (ensureAdapterBegun w).
Proof. same_steps rc. Qed.

Lemma closed_ensureAdapterBegun w : steps (same closed) (ensureAdapterBegun w).
Proof. same_steps closed. Qed.

Lemma adapter_Add_call_Ok w pending q :
  adapter_Add_call w pending q
  = Ok (adapter_Add w (length (dispatched q)) pending)
      (set_dispatched (dispatched q ++ [pending]) q).
Proof. done. Qed.

Lemma Forall_Permutation_impl {A} (P : A -> Prop) (l k : list A) :
  l ≡ₚ k -> Forall P k -> Forall P l.
Proof. intros Hperm. by rewrite Hperm. Qed.

Lemma eq_reflexivity {A} (l k : list A) : l = k -> l ≡ₚ k.
Proof. by intros ->. Qed.

(** [addToAdapter]: every pending transfer is closed or comes back to be
    retried. *)
Lemma addToAdapter_Ok w pending q :
  well_behaved w ->
  errorc_closed q = false ->
  watchers_open q ->
  keyed q ->
  is_Some (adapter q) ->
  Z.of_nat (length pending) <= wait q ->
  Forall (fun t => is_Some (transferables q !! transfer_oid t)) pending ->
  exists retries q' cl,
    addToAdapter w pending q = Ok retries q' /\
    closed q' = closed q ++ cl /\
    cl.*1 ++ (t_Oid <$> retries) ≡ₚ transfer_oid <$> pending /\
    Forall (fun t => transferables q !! t_Oid t = Some t /\
                     CountFor (t_Oid t) (rc q) < MaxRetries (rc q)) retries.
Proof.
  intros Hw Herrc Hopen Hkeyed Hadapter Hwait Hknown.
  destruct (ensureAdapterBegun_Ok w q Hadapter) as (err & q1 & Hbegun).
  pose proof (steps_Ok _ _ _ _ _ (frame_ensureAdapterBegun w) Hbegun) as Hfr.
  pose proof (steps_Ok _ _ _ _ _ (rc_ensureAdapterBegun w) Hbegun) as Hrc.
  pose proof (steps_Ok _ _ _ _ _ (closed_ensureAdapterBegun w) Hbegun) as Hcl1.
  unfold same in Hrc, Hcl1.
  assert (Hwait1 : Z.of_nat (length pending) <= wait q1).
  { pose proof (fr_account _ _ Hfr) as Hacc. rewrite Hcl1 in Hacc. lia. }
  unfold addToAdapter. rewrite (bind_Ok _ _ _ _ _ Hbegun).
  destruct err as [err|].
  - rewrite (bind_Ok _ _ _ _ _
               (errorc_send_Ok err q1 ltac:(by rewrite (fr_errorc_closed _ _ Hfr)))).
    destruct (skip_loop pending (set_errors (errors q1 ++ [err]) q1) Hwait1)
      as (q' & Hrun & Hcl).
    rewrite (bind_Ok _ _ _ _ _ Hrun). unfold ret. cbn in Hcl.
    eexists [], q', _. split; [reflexivity |]. split; [by rewrite Hcl, Hcl1 |].
    split; [| done]. rewrite app_nil_r, <- list_fmap_compose.
    reflexivity.
  - unfold bind at 1, get at 1.
    set (results := if dryRun q1 then makeDryRunResults pending
                    else adapter_Add w (length (dispatched q1)) pending).
    set (q2 := if dryRun q1 then q1
               else set_dispatched (dispatched q1 ++ [pending]) q1).
    assert (Hresults : (if dryRun q1 then ret (makeDryRunResults pending)
                        else adapter_Add_call w pending) q1 = Ok results q2).
    { subst results q2. by destruct (dryRun q1). }
    rewrite (bind_Ok _ _ _ _ _ Hresults).
    assert (Hperm : res_Transfer <$> results ≡ₚ pending).
    { subst results. destruct (dryRun q1).
      - unfold makeDryRunResults. rewrite <- list_fmap_compose.
        change (id <$> pending ≡ₚ pending). by rewrite list_fmap_id.
      - apply Hw. }
    assert (Hq2 : transferables q2 = transferables q /\ rc q2 = rc q
                  /\ closed q2 = closed q /\ wait q2 = wait q1
                  /\ errorc_closed q2 = false /\ watchers_open q2).
    { pose proof (watchers_open_frame _ _ Hfr Hopen).
      subst q2. destruct (dryRun q1); cbn;
        by rewrite (fr_transferables _ _ Hfr), (fr_errorc_closed _ _ Hfr). }
    destruct Hq2 as (Htr2 & Hrc2 & Hcl2 & Hwait2 & Herrc2 & Hopen2).
    destruct (handleTransferResult_loop results [] q2)
      as (new & q' & cl & Hrun & Hcl & Hp & Hnew); try done.
    { unfold keyed. by rewrite Htr2. }
    { rewrite Hwait2, <- (length_fmap res_Transfer), Hperm. done. }
    { rewrite Htr2. apply (Forall_fmap res_Transfer
        (fun t => is_Some (transferables q !! transfer_oid t))).
      by eapply Forall_Permutation_impl. }
    exists new, q', cl. split; [exact Hrun |].
    rewrite Hcl, Hcl2. split; [done |].
    rewrite Htr2, Hrc2 in Hnew. split; [| done].
    rewrite Hp. unfold result_oid.
    rewrite (list_fmap_compose res_Transfer transfer_oid). by rewrite Hperm.
Qed.

(** *** One turn of the batching loop *)

(** The queue can take a turn: its channels are open, its registry is keyed by
    oid and its retry counter is a Go value. *)
Record ready (q : TransferQueue) : Prop := mkReady {
  rd_errorc : errorc_closed q = false;
  rd_watchers : watchers_open q;
  rd_keyed : keyed q;
  rd_rc : rc_ok (rc q)
}.

(** The objects of [batch] are registered, distinct, and still counted by the
    wait group. *)
Record held (q : TransferQueue) (batch : Batch) : Prop := mkHeld {
  hd_registered : forall t, t ∈ batch -> transferables q !! t_Oid t = Some t;
  hd_distinct : NoDup (t_Oid <$> batch);
  hd_counted : Z.of_nat (length batch) <= wait q
}.

Lemma ready_frame q q' : frame q q' -> rc q' = rc q -> ready q -> ready q'.
Proof.
  intros Hfr Hrc [He Hw Hk Hr]. split.
  - by rewrite (fr_errorc_closed _ _ Hfr).
  - by eapply watchers_open_frame.
  - unfold keyed. by rewrite (fr_transferables _ _ Hfr).
  - by rewrite Hrc.
Qed.

Lemma useAdapter_Ok w name q :
  exists q', useAdapter w name q = Ok tt q' /\ is_Some (adapter q') /\
             closed q' = closed q /\ rc q' = rc q.
Proof.
  unfold useAdapter, finishAdapter, bind, get, modify, ret.
  destruct (adapter q) as [a|] eqn:Ha.
  - destruct (String.eqb a name).
    + exists q. by rewrite Ha.
    + destruct (adapterInProgress q); by eexists.
  - by eexists.
Qed.

Lemma startProgress_Do_Ok q :
  exists q', startProgress_Do q = Ok tt q' /\ adapter q' = adapter q /\
             closed q' = closed q /\ rc q' = rc q.
Proof.
  unfold startProgress_Do, meter_do, bind, get, modify, ret.
  destruct (startProgress q); by eexists.
Qed.

Lemma frame_useAdapter w name : steps frame (useAdapter w name).
Proof. frame_steps. Qed.

Lemma frame_startProgress_Do : steps frame startProgress_Do.
Proof. frame_steps. Qed.

Lemma frame_negotiated_loop objs toTransfer :
  steps frame (foldM negotiated objs toTransfer).
Proof. frame_steps. Qed.

Lemma rc_negotiated_loop objs toTransfer :
  steps (same rc) (foldM negotiated objs toTransfer).
Proof. same_steps rc. Qed.

Lemma adapter_negotiated_loop objs toTransfer :
  steps (same adapter) (foldM negotiated objs toTransfer).
Proof. same_steps adapter. Qed.

(** What follows a batch call that succeeded. *)
Definition transfer_objects (w : World) (objs : list ObjectResource)
    (adapterName : string) : M (Batch * option error) :=
  useAdapter w adapterName ;;;
  startProgress_Do ;;;
  toTransfer <- foldM negotiated objs [] ;;
  retries <- addToAdapter w toTransfer ;;
  next <- foldM enqueue_retry retries [] ;;
  ret (next, None).

Lemma enqueueAndCollectRetriesFor_unfold w batch q :
  enqueueAndCollectRetriesFor w batch q
  = match api_Batch w (ApiObjects batch) (transferKind q)
            (GetAdapterNames w (direction q)) q with
    | Ok (inl err) q1 =>
        (next <- foldM (retry_or_close err) batch [] ;; ret (next, Some err)) q1
    | Ok (inr (objs, adapterName)) q1 => transfer_objects w objs adapterName q1
    | Fault e q1 => Fault e q1
    end.
Proof.
  unfold enqueueAndCollectRetriesFor, bind at 1, get at 1, bind at 1.
  destruct (api_Batch _ _ _ _ q) as [[err|[objs name]] q1|]; reflexivity.
Qed.

Lemma registered_oid q batch oid :
  held q batch -> oid ∈ t_Oid <$> batch ->
  exists t, t ∈ batch /\ t_Oid t = oid /\ transferables q !! oid = Some t.
Proof.
  intros Hheld (t & -> & Hin)%list_elem_of_fmap_1.
  exists t. split_and!; [done | done | by apply Hheld].
Qed.

Lemma transfer_objects_Ok w objs adapterName batch q :
  well_behaved w -> ready q -> held q batch ->
  Oid <$> objs ≡ₚ t_Oid <$> batch ->
  exists next q' cl,
    transfer_objects w objs adapterName q = Ok (next, None) q' /\
    closed q' = closed q ++ cl /\
    cl.*1 ++ (t_Oid <$> next) ≡ₚ t_Oid <$> batch /\
    (forall t, t ∈ next ->
       t ∈ batch /\ CountFor (t_Oid t) (rc q) < MaxRetries (rc q)) /\
    rc q' = incremented (t_Oid <$> next) (rc q).
Proof.
  intros Hw Hready Hheld Hobjs. unfold transfer_objects.
  destruct (useAdapter_Ok w adapterName q) as (q1 & Hrun1 & Had1 & Hcl1 & Hrc1).
  pose proof (steps_Ok _ _ _ _ _ (frame_useAdapter w adapterName) Hrun1) as Hfr1.
  rewrite (bind_Ok _ _ _ _ _ Hrun1).
  destruct (startProgress_Do_Ok q1) as (q2 & Hrun2 & Had2 & Hcl2 & Hrc2).
  pose proof (steps_Ok _ _ _ _ _ frame_startProgress_Do Hrun2) as Hfr2.
  rewrite (bind_Ok _ _ _ _ _ Hrun2).
  assert (Hfr02 : frame q q2) by by etrans.
  assert (Hrc02 : rc q2 = rc q) by congruence.
  assert (Hcl02 : closed q2 = closed q) by congruence.
  pose proof (ready_frame _ _ Hfr02 Hrc02 Hready) as Hready2.
  assert (Hwait2 : wait q2 = wait q).
  { pose proof (fr_account _ _ Hfr02) as Hacc. rewrite Hcl02 in Hacc. lia. }
  assert (Hlen : length objs = length batch).
  { rewrite <- (length_fmap Oid objs), Hobjs. apply length_fmap. }
  destruct (negotiated_loop objs [] q2) as (new & q3 & cla & Hrun3 & Hcl3 & _ & Hpa & Hnew).
  { apply Hready2. }
  { rewrite Hwait2, Hlen. apply Hheld. }
  { rewrite (fr_transferables _ _ Hfr02). apply Forall_forall. intros o Ho.
    destruct (registered_oid q batch (Oid o) Hheld) as (t & _ & _ & Ht);
      [| by eexists].
    rewrite <- Hobjs. by apply list_elem_of_fmap_2. }
  rewrite (bind_Ok _ _ _ _ _ Hrun3). cbn [app].
  pose proof (steps_Ok _ _ _ _ _ (frame_negotiated_loop objs []) Hrun3) as Hfr3.
  pose proof (steps_Ok _ _ _ _ _ (rc_negotiated_loop objs []) Hrun3) as Hrc3.
  pose proof (steps_Ok _ _ _ _ _ (adapter_negotiated_loop objs []) Hrun3) as Had3.
  unfold same in Hrc3, Had3.
  assert (Hfr03 : frame q q3) by by etrans.
  assert (Hrc03 : rc q3 = rc q) by congruence.
  pose proof (ready_frame _ _ Hfr03 Hrc03 Hready) as Hready3.
  assert (Hcount : (length cla + length new = length batch)%nat).
  { rewrite <- (length_fmap t_Oid batch), <- Hobjs, <- Hpa.
    by rewrite length_app, !length_fmap. }
  destruct (addToAdapter_Ok w new q3 Hw) as (retries & q4 & clb & Hrun4 & Hcl4 & Hpb & Hretries).
  { apply Hready3. }
  { apply Hready3. }
  { apply Hready3. }
  { rewrite Had3, Had2. exact Had1. }
  { pose proof (fr_account _ _ Hfr3) as Hacc. rewrite Hcl3 in Hacc.
    rewrite length_app in Hacc. pose proof (hd_counted _ _ Hheld). lia. }
  { rewrite (fr_transferables _ _ Hfr3).
    eapply Forall_impl; [exact Hnew |]. intros tr (t & o & Ht & _). by eexists. }
  rewrite (bind_Ok _ _ _ _ _ Hrun4).
  rewrite (bind_Ok _ _ _ _ _ (enqueue_retry_loop retries [] q4)). cbn [app].
  pose proof (steps_Ok _ _ _ _ _ (rc_addToAdapter w new) Hrun4) as Hrc4.
  unfold same in Hrc4.
  rewrite (fr_transferables _ _ Hfr03), Hrc03 in Hretries.
  assert (Hperm : (cla ++ clb).*1 ++ (t_Oid <$> retries) ≡ₚ t_Oid <$> batch).
  { rewrite fmap_app, <- app_assoc, Hpb, Hpa. done. }
  eexists retries, _, (cla ++ clb). split; [reflexivity |]. cbn.
  split_and!.
  - by rewrite Hcl4, Hcl3, Hcl02, app_assoc.
  - exact Hperm.
  - intros t Hin. rewrite Forall_forall in Hretries.
    destruct (Hretries t Hin) as [Ht Hlt]. split; [| done].
    destruct (registered_oid q batch (t_Oid t) Hheld) as (t' & Hin' & _ & Ht').
    { rewrite <- Hperm. apply elem_of_app. right. by apply list_elem_of_fmap_2. }
    by simplify_eq.
  - by rewrite Hrc4, Hrc03.
Qed.

(** A whole turn: the batch call and what follows it. Every object of the
    batch is closed or is in the next batch, with one more retry counted. *)
Lemma enqueueAndCollectRetriesFor_Ok w batch q :
  well_behaved w -> ready q -> held q batch ->
  exists next err q' cl,
    enqueueAndCollectRetriesFor w batch q = Ok (next, err) q' /\
    closed q' = closed q ++ cl /\
    cl.*1 ++ (t_Oid <$> next) ≡ₚ t_Oid <$> batch /\
    (forall t, t ∈ next ->
       t ∈ batch /\ CountFor (t_Oid t) (rc q) < MaxRetries (rc q)) /\
    rc q' = incremented (t_Oid <$> next) (rc q).
Proof.
  intros Hw Hready Hheld. rewrite enqueueAndCollectRetriesFor_unfold.
  destruct batch as [|t0 batch0] eqn:Hbatch.
  { rewrite api_Batch_empty.
    destruct (transfer_objects_Ok w [] "" [] q Hw Hready Hheld ltac:(done))
      as (next & q' & cl & Hrun & Hrest).
    by exists next, None, q', cl. }
  rewrite <- Hbatch in *. assert (Hne : batch <> []) by by rewrite Hbatch.
  clear Hbatch t0 batch0.
  rewrite api_Batch_request by by rewrite ApiObjects_nil.
  set (q1 := set_requests _ q).
  assert (Hready1 : ready q1) by by destruct Hready.
  assert (Hheld1 : held q1 batch) by by destruct Hheld.
  destruct (batch_endpoint _ _ _ _ _) as [err|[objs name]] eqn:Hend.
  - pose proof (retry_or_close_loop_with err (retried q err) batch [] q1
                  (hd_distinct _ _ Hheld1) (hd_counted _ _ Hheld1)
                  (fun t _ => canRetryObject_retried q1 err t)) as Hloop.
    cbv zeta in Hloop. rewrite (bind_Ok _ _ _ _ _ Hloop). unfold ret. cbn [app].
    eexists _, (Some err), _, _. split; [reflexivity |]. cbn.
    split_and!; [done | | | done].
    + rewrite <- list_fmap_compose. cbn.
      change (fst ∘ _) with t_Oid.
      rewrite <- fmap_app, (comm (++)).
      f_equiv. rewrite <- (filter_app_complement (fun t => retried q err t) batch) at 3.
      f_equiv. apply eq_reflexivity, list_filter_iff. intros t.
      destruct (retried q err t); naive_solver.
    + intros t [Hret Hin]%list_elem_of_filter. split; [done |].
      unfold retried in Hret. apply andb_prop_elim in Hret as [Hlt _].
      by apply bool_decide_unpack in Hlt.
  - destruct (transfer_objects_Ok w objs name batch q1 Hw Hready1 Hheld1)
      as (next & q' & cl & Hrun & Hrest).
    { rewrite (one_object_per_request w Hw _ _ _ _ _ _ Hend).
      unfold ApiObjects. by rewrite <- list_fmap_compose. }
    by exists next, None, q', cl.
Qed.

(** After a turn the queue can take the next one, on the next batch. *)
Lemma enqueueAndCollectRetriesFor_next w batch q next err q' :
  well_behaved w -> ready q -> held q batch ->
  enqueueAndCollectRetriesFor w batch q = Ok (next, err) q' ->
  exists cl,
    closed q' = closed q ++ cl /\
    cl.*1 ++ (t_Oid <$> next) ≡ₚ t_Oid <$> batch /\
    (forall t, t ∈ next ->
       t ∈ batch /\ CountFor (t_Oid t) (rc q) < MaxRetries (rc q)) /\
    rc q' = incremented (t_Oid <$> next) (rc q) /\
    frame q q' /\ incoming q' = incoming q /\
    wait q' = wait q - Z.of_nat (length cl) /\
    ready q' /\ NoDup (t_Oid <$> next).
Proof.
  intros Hw Hready Hheld Hrun.
  destruct (enqueueAndCollectRetriesFor_Ok w batch q Hw Hready Hheld)
    as (next' & err' & q'' & cl & Hrun' & Hcl & Hperm & Hnext & Hrc).
  rewrite Hrun in Hrun'. injection Hrun' as <- <- <-.
  pose proof (steps_Ok _ _ _ _ _ (frame_enqueueAndCollectRetriesFor w batch) Hrun)
    as Hfr.
  pose proof (steps_Ok _ _ _ _ _ (incoming_enqueueAndCollectRetriesFor w batch) Hrun)
    as Hinc.
  exists cl. split_and!; try done.
  - pose proof (fr_account _ _ Hfr) as Hacc. rewrite Hcl, length_app in Hacc. lia.
  - destruct Hready as [He Hwo Hk Hr]. split.
    + by rewrite (fr_errorc_closed _ _ Hfr).
    + by eapply watchers_open_frame.
    + unfold keyed. by rewrite (fr_transferables _ _ Hfr).
    + rewrite Hrc. by apply incremented_ok.
  - pose proof (hd_distinct _ _ Hheld) as Hnd. rewrite <- Hperm in Hnd.
    by apply NoDup_app in Hnd as (_ & _ & Hnd).
Qed.

(** *** The batching loop *)

(** The inner loop on a closed channel: it takes what the batch still has room
    for, and sees the close when the channel runs dry first. *)
Lemma fill_closed max inc : forall batch,
  fill max true inc batch
  = Some (bool_decide (Z.of_nat (length batch + length inc) < max),
          batch ++ take (Z.to_nat (max - Z.of_nat (length batch))) inc,
          drop (Z.to_nat (max - Z.of_nat (length batch))) inc).
Proof.
  induction inc as [|t inc IH]; intros batch; cbn [fill]; unfold IsFull.
  - case_bool_decide.
    + rewrite bool_decide_false by (simpl; lia).
      by rewrite take_nil, drop_nil, app_nil_r.
    + rewrite bool_decide_true by (simpl; lia).
      by rewrite take_nil, drop_nil, app_nil_r.
  - case_bool_decide as Hfull.
    + rewrite bool_decide_false by lia.
      replace (Z.to_nat _) with 0%nat by lia. by rewrite app_nil_r.
    + rewrite IH, length_app. simpl length.
      replace (Z.to_nat (max - Z.of_nat (length batch)))
        with (S (Z.to_nat (max - Z.of_nat (length batch + 1)))) by lia.
      cbn [take drop]. rewrite <- app_assoc. cbn [app].
      do 3 f_equal. apply bool_decide_ext. lia.
Qed.

Lemma receive_closed batch q :
  incoming_closed q = true ->
  let k := Z.to_nat (batchSize q - Z.of_nat (length batch)) in
  receive batch q
  = Ok (bool_decide (Z.of_nat (length batch + length (incoming q)) < batchSize q),
        batch ++ take k (incoming q))
      (set_incoming (drop k (incoming q)) q).
Proof. intros Hc k. unfold receive. by rewrite Hc, fill_closed. Qed.

Lemma frame_receive batch : steps frame (receive batch).
Proof. frame_steps. Qed.

Lemma frame_collectBatches_loop w fuel closing batch :
  steps frame (collectBatches_loop w fuel closing batch).
Proof.
  revert closing batch. induction fuel as [|fuel IH]; intros closing batch.
  - apply steps_stop; apply _.
  - cbn [collectBatches_loop].
    apply (steps_bind frame); [frame_steps; apply frame_receive |]. intros cb.
    apply (steps_bind frame); [apply frame_enqueueAndCollectRetriesFor |].
    intros re. apply (steps_bind frame); [frame_steps |].
    intros _. destruct (_ && _); [apply steps_ret; apply _ | apply IH].
Qed.

(** The retries an object has left. *)
Definition budget (r : retryCounter) (oid : string) : nat :=
  Z.to_nat (MaxRetries r - CountFor oid r).

(** A bound on the turns the loop still takes. *)
Definition turns (q : TransferQueue) (closing : bool) (batch : Batch) : nat :=
  2 * length (incoming q) + (if closing then 0 else 1) + length batch
  + sum_list_with (budget (rc q)) (t_Oid <$> batch ++ incoming q).

Lemma budget_incremented_in r oids oid :
  rc_ok r -> NoDup oids -> oid ∈ oids -> CountFor oid r < MaxRetries r ->
  S (budget (incremented oids r) oid) = budget r oid.
Proof.
  intros Hr Hnd Hin Hlt. unfold budget.
  rewrite MaxRetries_incremented, CountFor_incremented_in by done. lia.
Qed.

Lemma budget_incremented_notin r oids oid :
  oid ∉ oids -> budget (incremented oids r) oid = budget r oid.
Proof.
  intros Hnotin. unfold budget.
  by rewrite MaxRetries_incremented, CountFor_incremented_notin.
Qed.

Lemma sum_budget_incremented_in r oids (l : list string) :
  rc_ok r -> NoDup oids ->
  Forall (fun oid => oid ∈ oids /\ CountFor oid r < MaxRetries r) l ->
  (sum_list_with (budget (incremented oids r)) l + length l
   = sum_list_with (budget r) l)%nat.
Proof.
  intros Hr Hnd. induction 1 as [|oid l [Hin Hlt] _ IH]; [done |].
  cbn [sum_list_with length].
  pose proof (budget_incremented_in r oids oid Hr Hnd Hin Hlt). lia.
Qed.

Lemma sum_budget_incremented_notin r oids (l : list string) :
  Forall (fun oid => oid ∉ oids) l ->
  sum_list_with (budget (incremented oids r)) l = sum_list_with (budget r) l.
Proof.
  induction 1 as [|oid l Hnotin _ IH]; [done |].
  cbn [sum_list_with]. by rewrite IH, budget_incremented_notin.
Qed.

(** The state of the loop at the head of a turn: every object of the batch in
    hand and of the channel is registered and counted by the wait group, the
    channel is closed, and the batches have room for an object. *)
Record looping (q : TransferQueue) (closing : bool) (batch : Batch) : Prop :=
  mkLooping {
    lp_ready : ready q;
    lp_held : held q (batch ++ incoming q);
    lp_wait : wait q = Z.of_nat (length (batch ++ incoming q));
    lp_closed : incoming_closed q = true;
    lp_size : 1 <= batchSize q;
    lp_closing : closing = true -> incoming q = []
  }.

Lemma receive_or_keep closing batch q :
  looping q closing batch ->
  exists closing1 batch1 q1,
    (if closing then ret (closing, batch) else receive batch) q
    = Ok (closing1, batch1) q1 /\
    looping q1 closing1 batch1 /\
    batch1 ++ incoming q1 = batch ++ incoming q /\
    closed q1 = closed q /\
    (turns q1 closing1 batch1 <= turns q closing batch)%nat /\
    (closing1 = false -> batch1 <> []).
Proof.
  intros Hloop. destruct closing.
  { exists true, batch, q. by split_and!. }
  rewrite (receive_closed batch q (lp_closed _ _ _ Hloop)). cbv zeta.
  set (k := Z.to_nat (batchSize q - Z.of_nat (length batch))).
  set (closing1 := bool_decide _).
  eexists closing1, _, _. split; [reflexivity |].
  assert (Happ : (batch ++ take k (incoming q)) ++ drop k (incoming q)
                 = batch ++ incoming q).
  { by rewrite <- app_assoc, take_drop. }
  pose proof (lp_size _ _ _ Hloop) as Hsize.
  split_and!.
  - destruct Hloop as [[] [] ? ? ? ?]. split; cbn; rewrite ?Happ; try done.
    subst closing1. intros Hc%bool_decide_eq_true.
    apply drop_ge. subst k. lia.
  - done.
  - done.
  - unfold turns. cbn [incoming set_incoming rc set_incoming].
    rewrite Happ. cbn. rewrite length_app, length_take, length_drop.
    destruct closing1; lia.
  - subst closing1. intros Hc%bool_decide_eq_false Hnil.
    apply app_eq_nil in Hnil as [-> Hnil].
    apply (f_equal length) in Hnil. rewrite length_take in Hnil.
    subst k. simpl in *. lia.
Qed.

Lemma held_Permutation q batch batch' :
  batch' ≡ₚ batch -> held q batch -> held q batch'.
Proof.
  intros Hperm [Hreg Hnd Hcount]. split.
  - intros t Hin. apply Hreg. by rewrite <- Hperm.
  - by rewrite Hperm.
  - by rewrite Hperm.
Qed.

Lemma held_app_l q batch rest : held q (batch ++ rest) -> held q batch.
Proof.
  intros [Hreg Hnd Hcount]. split.
  - intros t Hin. apply Hreg, elem_of_app. by left.
  - rewrite fmap_app in Hnd. by apply NoDup_app in Hnd as [? _].
  - rewrite length_app in Hcount. lia.
Qed.

(** A turn closes the loop, or leaves it with fewer turns to take. *)
Lemma turn_Ok w closing batch q :
  well_behaved w ->
  looping q closing batch ->
  (closing = false -> batch <> []) ->
  exists next err q' cl,
    enqueueAndCollectRetriesFor w (sort_Sort (sort_Reverse Less) batch) q
    = Ok (next, err) q' /\
    errorc_closed q' = false /\
    closed q' = closed q ++ cl /\
    cl.*1 ++ (t_Oid <$> next) ≡ₚ t_Oid <$> batch /\
    incoming q' = incoming q /\
    wait q' = wait q - Z.of_nat (length cl) /\
    (closing && bool_decide (length next = 0%nat) = false ->
     looping q' closing next /\
     (turns q' closing next < turns q closing batch)%nat).
Proof.
  intros Hw Hloop Hbatch.
  set (sorted := sort_Sort (sort_Reverse Less) batch).
  assert (Hsorted : sorted ≡ₚ batch) by apply sort_Sort_Permutation.
  pose proof (lp_ready _ _ _ Hloop) as Hready.
  assert (Hheld : held q sorted).
  { eapply held_Permutation; [exact Hsorted |].
    eapply held_app_l, lp_held, Hloop. }
  destruct (enqueueAndCollectRetriesFor_Ok w sorted q Hw Hready Hheld)
    as (next & err & q' & cl0 & Hrun & _).
  destruct (enqueueAndCollectRetriesFor_next w sorted q next err q'
              Hw Hready Hheld Hrun)
    as (cl & Hcl & Hperm & Hnext & Hrc & Hfr & Hinc & Hwait & Hready' & Hnd).
  rewrite Hsorted in Hperm.
  exists next, err, q', cl.
  split_and!; [done | apply Hready' | done | done | done | done |].
  intros Hcont.
  pose proof (lp_held _ _ _ Hloop) as [Hreg Hdist Hcount].
  assert (Hlen : (length cl + length next = length batch)%nat).
  { rewrite <- (length_fmap t_Oid batch), <- Hperm.
    by rewrite length_app, !length_fmap. }
  assert (Hdist' : NoDup (cl.*1 ++ (t_Oid <$> next) ++ (t_Oid <$> incoming q))).
  { rewrite app_assoc, Hperm, <- fmap_app. done. }
  apply NoDup_app in Hdist' as (_ & _ & Hdist').
  split.
  - split.
    + done.
    + split.
      * intros t Hin. rewrite (fr_transferables _ _ Hfr). apply Hreg.
        rewrite Hinc in Hin. apply elem_of_app in Hin as [Hin|Hin].
        -- apply elem_of_app. left. rewrite <- Hsorted. by apply Hnext.
        -- apply elem_of_app. by right.
      * by rewrite Hinc, fmap_app.
      * rewrite Hwait, Hinc, (lp_wait _ _ _ Hloop), !length_app. lia.
    + rewrite Hwait, Hinc, (lp_wait _ _ _ Hloop), !length_app. lia.
    + rewrite (fr_incoming_closed _ _ Hfr). apply Hloop.
    + rewrite (fr_batchSize _ _ Hfr). apply Hloop.
    + rewrite Hinc. apply Hloop.
  - unfold turns. rewrite Hinc, Hrc, !fmap_app, !sum_list_with_app.
    assert (Hin_next : Forall (fun oid => oid ∈ t_Oid <$> next /\
                CountFor oid (rc q) < MaxRetries (rc q)) (t_Oid <$> next)).
    { apply Forall_fmap, Forall_forall. intros t Hin. split.
      - by apply list_elem_of_fmap_2.
      - by apply Hnext. }
    pose proof (sum_budget_incremented_in (rc q) (t_Oid <$> next)
                  (t_Oid <$> next) (rd_rc _ Hready) Hnd Hin_next) as Hsum1.
    rewrite length_fmap in Hsum1.
    rewrite (sum_budget_incremented_notin (rc q) (t_Oid <$> next)
               (t_Oid <$> incoming q)); cycle 1.
    { apply Forall_forall. intros oid Hin Hin'.
      apply NoDup_app in Hdist' as (_ & Hdisj & _). by apply (Hdisj oid). }
    assert (Hsum2 : sum_list_with (budget (rc q)) (t_Oid <$> batch)
                    = (sum_list_with (budget (rc q)) cl.*1
                       + sum_list_with (budget (rc q)) (t_Oid <$> next))%nat).
    { by rewrite <- Hperm, sum_list_with_app. }
    assert (batch <> []).
    { destruct closing; [| by apply Hbatch].
      intros ->. destruct next; [done | simpl in Hlen; lia]. }
    assert (0 < length batch)%nat by (destruct batch; [done | simpl; lia]).
    lia.
Qed.

Lemma looping_set_errors es q closing batch :
  looping q closing batch -> looping (set_errors es q) closing batch.
Proof. by intros [[] [] ? ? ? ?]. Qed.

(** With fuel for the turns it has left, the loop returns, and by then it has
    closed every object of its batch and of the channel once. *)
Lemma collectBatches_loop_Ok w :
  well_behaved w ->
  forall fuel closing batch q,
  looping q closing batch ->
  (turns q closing batch < fuel)%nat ->
  exists q' cl,
    collectBatches_loop w fuel closing batch q = Ok tt q' /\
    closed q' = closed q ++ cl /\
    cl.*1 ≡ₚ t_Oid <$> batch ++ incoming q /\
    wait q' = 0 /\
    incoming q' = [] /\
    errorc_closed q' = false.
Proof.
  intros Hw. induction fuel as [|fuel IH]; intros closing batch q Hloop Hfuel;
    [lia |].
  cbn [collectBatches_loop].
  destruct (receive_or_keep closing batch q Hloop)
    as (closing1 & batch1 & q1 & Hrun1 & Hloop1 & Happ & Hcl1 & Hturns1 & Hne1).
  rewrite (bind_Ok _ _ _ _ _ Hrun1). cbn [fst snd].
  destruct (turn_Ok w closing1 batch1 q1 Hw Hloop1 Hne1)
    as (next & err & q2 & cl & Hrun2 & Herrc2 & Hcl2 & Hperm & Hinc2 & Hwait2
        & Hcont).
  rewrite (bind_Ok _ _ _ _ _ Hrun2). cbn [fst snd].
  set (q3 := match err with
             | Some e => set_errors (errors q2 ++ [e]) q2
             | None => q2
             end).
  assert (Hrun3 : match err with Some e => errorc_send e | None => ret tt end q2
                  = Ok tt q3).
  { subst q3. destruct err as [e|]; [by apply errorc_send_Ok | done]. }
  rewrite (bind_Ok _ _ _ _ _ Hrun3).
  assert (Hq3 : closed q3 = closed q2 /\ wait q3 = wait q2 /\
                incoming q3 = incoming q2 /\ errorc_closed q3 = false /\
                turns q3 closing1 next = turns q2 closing1 next /\
                (looping q2 closing1 next -> looping q3 closing1 next)).
  { subst q3. destruct err as [e|]; split_and!; try done.
    apply looping_set_errors. }
  destruct Hq3 as (Hcl3 & Hwait3 & Hinc3 & Herrc3 & Hturns3 & Hloop3).
  destruct (closing1 && bool_decide (length next = 0%nat)) eqn:Hstop.
  - apply andb_true_iff in Hstop as [-> Hnext%bool_decide_eq_true].
    apply nil_length_inv in Hnext as ->.
    pose proof (lp_closing _ _ _ Hloop1 eq_refl) as Hinc1.
    rewrite Hinc1, app_nil_r in Happ. cbn in Hperm. rewrite app_nil_r in Hperm.
    exists q3, cl. unfold ret.
    split_and!; [done | by rewrite Hcl3, Hcl2, Hcl1 | by rewrite <- Happ | |
                 by rewrite Hinc3, Hinc2 | done].
    rewrite Hwait3, Hwait2, (lp_wait _ _ _ Hloop1), Hinc1, app_nil_r.
    rewrite <- (length_fmap t_Oid batch1), <- Hperm, length_fmap. lia.
  - destruct (Hcont eq_refl) as [Hloop2 Hturns2].
    destruct (IH closing1 next q3 (Hloop3 Hloop2) ltac:(lia))
      as (q' & cl' & Hrun & Hcl & Hperm' & Hwait & Hinc & Herrc).
    exists q', (cl ++ cl').
    split_and!; [done | by rewrite Hcl, Hcl3, Hcl2, Hcl1, app_assoc | | done..].
    rewrite fmap_app, Hperm', Hinc3, Hinc2, <- Happ, !fmap_app, <- Hperm.
    by rewrite <- !app_assoc.
Qed.

(** *** Adding objects, and waiting *)

(** The queue while objects are added: nothing has been processed yet, and the
    channel holds the objects registered so far, one per oid. *)
Record adding (q : TransferQueue) : Prop := mkAdding {
  ad_ready : ready q;
  ad_open : incoming_closed q = false;
  ad_held : held q (incoming q);
  ad_wait : wait q = Z.of_nat (length (incoming q));
  ad_dom : forall oid,
    is_Some (transferables q !! oid) <-> oid ∈ t_Oid <$> incoming q;
  ad_size : 1 <= batchSize q;
  ad_closed : closed q = []
}.

(** A queue as [NewTransferQueue] returns it, after any number of [Watch]. *)
Definition new_queue (q : TransferQueue) : Prop :=
  adding q /\ incoming q = [] /\ requests q = [] /\ dispatched q = [] /\
  errors q = [] /\ Forall (fun c => w_sent c = []) (watchers q) /\
  count (rc q) = ∅.

Lemma NewTransferQueue_new cfg dir dry size :
  (forall max, cfg = Some max -> max <= int_max) ->
  1 <= size ->
  new_queue (NewTransferQueue cfg dir [DryRun dry; WithBatchSize size]).
Proof.
  intros Hcfg Hsize. split_and!; try done. split; try done.
  - split; [done | by constructor | done | by apply newRetryCounter_ok].
  - split; [by intros t ?%elem_of_nil | constructor | done].
  - intros oid. cbn. rewrite lookup_empty. split; [by intros [] |].
    by intros ?%elem_of_nil.
Qed.

Lemma NewTransferQueue_default_new cfg dir :
  (forall max, cfg = Some max -> max <= int_max) ->
  new_queue (NewTransferQueue cfg dir []).
Proof.
  intros Hcfg. split_and!; try done. split; try done.
  - split; [done | by constructor | done | by apply newRetryCounter_ok].
  - split; [by intros t ?%elem_of_nil | constructor | done].
  - intros oid. cbn. rewrite lookup_empty. split; [by intros [] |].
    by intros ?%elem_of_nil.
Qed.

Lemma Watch_new q :
  new_queue q -> new_queue (state_of (Watch q)).
Proof.
  intros ([[He Hw Hk Hr] Ho [Hreg Hnd Hc] Hwait Hdom Hsize Hcl]
          & Hinc & Hreq & Hdis & Herr & Hsent & Hcount).
  split_and!; try done.
  - split; try done. split; try done.
    unfold watchers_open. cbn. apply Forall_app. split; [done |].
    by repeat constructor.
  - cbn. apply Forall_app. split; [done |]. by repeat constructor.
Qed.

(** [Add] registers a new oid and sends the object; it drops an object whose
    oid is registered already. *)
Lemma Add_Ok t q :
  adding q ->
  exists q',
    Add t q = Ok tt q' /\ adding q' /\
    incoming q' = (if decide (t_Oid t ∈ t_Oid <$> incoming q) then incoming q
                   else incoming q ++ [t]) /\
    watchers q' = watchers q /\ requests q' = requests q /\
    dispatched q' = dispatched q /\ errors q' = errors q /\ rc q' = rc q /\
    batchSize q' = batchSize q /\ dryRun q' = dryRun q.
Proof.
  intros Hadd. pose proof Hadd as [[He Hw Hk Hr] Ho [Hreg Hnd Hc] Hwait Hdom Hsize Hcl].
  unfold Add, bind, get.
  destruct (transferables q !! t_Oid t) as [t'|] eqn:Ht.
  - exists q. rewrite decide_True by (apply Hdom; by eexists). by split_and!.
  - assert (Hnotin : t_Oid t ∉ t_Oid <$> incoming q).
    { intros Hin%Hdom. rewrite Ht in Hin. by destruct Hin. }
    rewrite decide_False by done.
    unfold wait_Add, modify, incoming_send. cbn. rewrite Ho.
    eexists. split; [reflexivity |]. split_and!; try done.
    split; cbn; try done.
    + split; try done. intros oid t'. cbn.
      destruct (decide (t_Oid t = oid)) as [<-|Hne].
      * rewrite lookup_insert_eq. by intros [= <-].
      * rewrite lookup_insert_ne by done. apply Hk.
    + split; cbn.
      * intros t' [Hin| ->%list_elem_of_singleton]%elem_of_app.
        -- rewrite lookup_insert_ne; [by apply Hreg |].
           intros Heq. apply Hnotin. rewrite Heq. by apply list_elem_of_fmap_2.
        -- apply lookup_insert_eq.
      * rewrite fmap_app. apply NoDup_app. split_and!; [done | | apply NoDup_singleton].
        intros oid Hin ->%list_elem_of_singleton. done.
      * rewrite length_app. simpl. lia.
    + rewrite length_app. simpl. lia.
    + intros oid. rewrite fmap_app, elem_of_app. cbn.
      rewrite list_elem_of_singleton.
      destruct (decide (t_Oid t = oid)) as [<-|Hne].
      * rewrite lookup_insert_eq. split; [by right | by eexists].
      * rewrite lookup_insert_ne by done. rewrite Hdom.
        split; [tauto |]. by intros [?|?].
Qed.

Lemma Add_loop ts : forall q,
  adding q ->
  exists q',
    foldM (fun _ t => Add t) ts tt q = Ok tt q' /\ adding q' /\
    (forall oid, oid ∈ t_Oid <$> incoming q' <->
                 oid ∈ t_Oid <$> incoming q \/ oid ∈ t_Oid <$> ts) /\
    watchers q' = watchers q /\ requests q' = requests q /\
    dispatched q' = dispatched q /\ errors q' = errors q /\ rc q' = rc q /\
    batchSize q' = batchSize q /\ dryRun q' = dryRun q.
Proof.
  induction ts as [|t ts IH]; intros q Hadd.
  { exists q. split_and!; try done. intros oid. rewrite elem_of_nil. tauto. }
  destruct (Add_Ok t q Hadd)
    as (q1 & Hrun1 & Hadd1 & Hinc1 & Hw1 & Hr1 & Hd1 & He1 & Hrc1 & Hb1 & Hdr1).
  rewrite (foldM_cons_Ok _ _ _ _ _ _ _ Hrun1).
  destruct (IH q1 Hadd1)
    as (q' & Hrun & Hadd' & Hinc & Hw & Hr & Hd & He & Hrc & Hb & Hdr).
  exists q'. split_and!; try congruence.
  intros oid. rewrite Hinc, Hinc1, fmap_cons, elem_of_cons.
  destruct (decide _) as [Hin|Hnotin].
  - split; [tauto |]. intros [?|[->|?]]; auto.
  - rewrite fmap_app, elem_of_app. cbn [fmap list_fmap].
    rewrite list_elem_of_singleton. tauto.
Qed.

(** What [Wait] does once the batching loop is through. *)
Definition wind_up : M unit :=
  wait_Wait ;;;
  finishAdapter ;;;
  close_errorc ;;;
  close_watchers ;;;
  meter_do MFinish.

Lemma Wait_unfold w fuel :
  Wait w fuel = (close_incoming ;;; collectBatches w fuel ;;; wind_up).
Proof. done. Qed.

Lemma watchers_open_forallb ws :
  Forall (fun c => w_closed c = false) ws ->
  forallb (fun c => negb (w_closed c)) ws = true.
Proof. induction 1 as [|c ws Hc _ IH]; [done |]. cbn. by rewrite Hc, IH. Qed.

Lemma wind_up_Ok q :
  wait q = 0 -> errorc_closed q = false -> watchers_open q ->
  exists q',
    wind_up q = Ok tt q' /\
    watchers q' = (fun c => mkWatcher (w_sent c) true) <$> watchers q.
Proof.
  intros Hwait Herrc Hopen.
  unfold wind_up. unfold_prims.
  rewrite bool_decide_true by done.
  destruct (adapterInProgress q); cbn; rewrite Herrc; cbn;
    rewrite (watchers_open_forallb _ Hopen); by eexists.
Qed.

Lemma closed_wind_up : steps (same closed) wind_up.
Proof. unfold wind_up. same_steps closed. Qed.

Lemma wait_wind_up : steps (same wait) wind_up.
Proof. unfold wind_up. same_steps wait. Qed.

Lemma adding_looping q :
  adding q -> looping (set_incoming_closed true q) false [].
Proof. intros [[] ? [] ? ? ? ?]. by split. Qed.

(** [Wait] returns, given fuel for the turns of the loop, and by then every
    object of the channel is closed once and the wait group is at zero. *)
Lemma Wait_Ok w q fuel :
  well_behaved w -> adding q ->
  (turns (set_incoming_closed true q) false [] < fuel)%nat ->
  exists q',
    Wait w fuel q = Ok tt q' /\
    wait q' = 0 /\
    (closed q').*1 ≡ₚ t_Oid <$> incoming q.
Proof.
  intros Hw Hadd Hfuel. rewrite Wait_unfold.
  assert (Hrun1 : close_incoming q = Ok tt (set_incoming_closed true q)).
  { unfold close_incoming. by rewrite (ad_open _ Hadd). }
  rewrite (bind_Ok _ _ _ _ _ Hrun1).
  pose proof (adding_looping q Hadd) as Hloop.
  destruct (collectBatches_loop_Ok w Hw fuel false [] _ Hloop Hfuel)
    as (q2 & cl & Hrun2 & Hcl2 & Hperm & Hwait2 & Hinc2 & Herrc2).
  unfold collectBatches. rewrite (bind_Ok _ _ _ _ _ Hrun2).
  pose proof (steps_Ok _ _ _ _ _ (frame_collectBatches_loop w fuel false []) Hrun2)
    as Hfr.
  destruct (wind_up_Ok q2 Hwait2 Herrc2) as (q' & Hrun3 & _).
  { eapply watchers_open_frame; [exact Hfr |]. apply Hloop. }
  exists q'. split; [exact Hrun3 |].
  pose proof (steps_Ok _ _ _ _ _ closed_wind_up Hrun3) as Hcl3.
  pose proof (steps_Ok _ _ _ _ _ wait_wind_up Hrun3) as Hwait3.
  unfold same in Hcl3, Hwait3. rewrite Hwait3, Hcl3, Hcl2. split; [done |].
  cbn in Hperm |- *. by rewrite (ad_closed _ Hadd).
Qed.

Lemma session_unfold w fuel ts :
  session w fuel ts = (foldM (fun _ t => Add t) ts tt ;;; Wait w fuel).
Proof. done. Qed.

(** The fuel a session needs: a bound on the turns of its batching loop. *)
Definition session_fuel (ts : list Transferable) (q : TransferQueue) : nat :=
  S (turns (set_incoming_closed true
              (state_of (foldM (fun _ t => Add t) ts tt q))) false []).

Lemma session_Ok w q ts fuel :
  well_behaved w -> new_queue q ->
  (session_fuel ts q <= fuel)%nat ->
  exists q',
    session w fuel ts q = Ok tt q' /\
    wait q' = 0 /\
    NoDup (closed q').*1 /\
    (forall oid, oid ∈ (closed q').*1 <-> oid ∈ t_Oid <$> ts).
Proof.
  intros Hw (Hadd & Hinc & _) Hfuel. rewrite session_unfold.
  destruct (Add_loop ts q Hadd) as (q1 & Hrun1 & Hadd1 & Hinc1 & _).
  unfold session_fuel in Hfuel. rewrite Hrun1 in Hfuel. cbn [state_of] in Hfuel.
  rewrite (bind_Ok _ _ _ _ _ Hrun1).
  destruct (Wait_Ok w q1 fuel Hw Hadd1 ltac:(lia)) as (q' & Hrun & Hwait & Hperm).
  exists q'. split_and!; [done | done | |].
  - rewrite Hperm. apply Hadd1.
  - intros oid. rewrite Hperm, Hinc1, Hinc, elem_of_nil. cbn. tauto.
Qed.

(** *** A session in which nothing fails *)

(** The batch call always succeeds, the adapter always starts, and every
    transfer succeeds. *)
Record never_fails (w : World) : Prop := mkNeverFails {
  nf_well_behaved : well_behaved w;
  nf_endpoint : forall n operation objs names err,
    batch_endpoint w n operation objs names <> inl err;
  nf_begin : forall n name, adapter_Begin w n name = None;
  nf_results : forall n pending,
    Forall (fun res => res_Error res = None) (adapter_Add w n pending)
}.

Lemma handleTransferResult_success retries res q retries' q' :
  res_Error res = None ->
  handleTransferResult retries res q = Ok retries' q' ->
  retries' = retries.
Proof.
  intros Hres. unfold handleTransferResult. rewrite Hres.
  intros (qa & q1 & [= <- <-] & Hrun)%bind_inv.
  apply bind_inv in Hrun as (? & q2 & _ & Hrun).
  apply bind_inv in Hrun as (? & q3 & _ & Hrun).
  apply bind_inv in Hrun as (? & q4 & _ & Hrun).
  by injection Hrun as <- _.
Qed.

Lemma handleTransferResult_loop_success results : forall retries q retries' q',
  Forall (fun res => res_Error res = None) results ->
  foldM handleTransferResult results retries q = Ok retries' q' ->
  retries' = retries.
Proof.
  induction results as [|res results IH]; intros retries q retries' q' Hall Hrun.
  { by injection Hrun as <- _. }
  apply Forall_cons in Hall as [Hres Hall]. cbn [foldM] in Hrun.
  apply bind_inv in Hrun as (retries1 & q1 & Hstep & Hrun).
  apply (handleTransferResult_success _ _ _ _ _ Hres) in Hstep as ->.
  by eapply IH.
Qed.

Lemma ensureAdapterBegun_begins w q err q' :
  (forall n name, adapter_Begin w n name = None) ->
  ensureAdapterBegun w q = Ok err q' -> err = None.
Proof.
  intros Hbegin. unfold ensureAdapterBegun, bind, get, modify, ret, stop.
  destruct (adapterInProgress q); [by intros [= <- _] |].
  destruct (adapter q) as [a|]; [| done]. rewrite Hbegin. by intros [= <- _].
Qed.

Lemma addToAdapter_success w pending q retries q' :
  never_fails w ->
  addToAdapter w pending q = Ok retries q' ->
  retries = [].
Proof.
  intros Hw. unfold addToAdapter.
  intros (err & q1 & Hbegun & Hrun)%bind_inv.
  apply (ensureAdapterBegun_begins _ _ _ _ (nf_begin w Hw)) in Hbegun as ->.
  apply bind_inv in Hrun as (qa & q2 & [= <- <-] & Hrun).
  apply bind_inv in Hrun as (results & q3 & Hresults & Hrun).
  eapply handleTransferResult_loop_success; [| exact Hrun].
  destruct (dryRun q1).
  - injection Hresults as <- _. unfold makeDryRunResults.
    by apply Forall_fmap, Forall_forall.
  - injection Hresults as <- _. apply Hw.
Qed.

Lemma requests_transfer_objects w objs name :
  steps (same requests) (transfer_objects w objs name).
Proof.
  unfold transfer_objects, addToAdapter, negotiated, handleTransferResult,
    enqueue_retry.
  same_steps requests.
Qed.

Lemma transfer_objects_success w objs name q next err q' :
  never_fails w ->
  transfer_objects w objs name q = Ok (next, err) q' ->
  next = [] /\ err = None /\ requests q' = requests q.
Proof.
  intros Hw Hrun.
  pose proof (steps_Ok _ _ _ _ _ (requests_transfer_objects w objs name) Hrun)
    as Hreq.
  unfold transfer_objects in Hrun.
  apply bind_inv in Hrun as (? & q1 & _ & Hrun).
  apply bind_inv in Hrun as (? & q2 & _ & Hrun).
  apply bind_inv in Hrun as (toTransfer & q3 & _ & Hrun).
  apply bind_inv in Hrun as (retries & q4 & Hadd & Hrun).
  apply (addToAdapter_success _ _ _ _ _ Hw) in Hadd as ->.
  by injection Hrun as <- <- _.
Qed.

(** A turn in which nothing fails sends the batch, unless it is empty, and
    leaves nothing to retry. *)
Lemma enqueueAndCollectRetriesFor_success w batch q next err q' :
  never_fails w ->
  enqueueAndCollectRetriesFor w batch q = Ok (next, err) q' ->
  next = [] /\ err = None /\
  requests q' = requests q ++ (if decide (batch = []) then []
                               else [ApiObjects batch]).
Proof.
  intros Hw. rewrite enqueueAndCollectRetriesFor_unfold.
  destruct (decide (batch = [])) as [->|Hne].
  - rewrite api_Batch_empty, app_nil_r. by apply transfer_objects_success.
  - rewrite api_Batch_request by by rewrite ApiObjects_nil.
    destruct (batch_endpoint _ _ _ _ _) as [e|[objs name]] eqn:Hend.
    { by apply nf_endpoint in Hend. }
    intros Hrun. by apply (transfer_objects_success _ _ _ _ _ _ _ Hw) in Hrun.
Qed.

Lemma sort_Sort_length batch :
  length (sort_Sort (sort_Reverse Less) batch) = length batch.
Proof. by rewrite sort_Sort_Permutation. Qed.

Lemma sort_Sort_nil batch :
  sort_Sort (sort_Reverse Less) batch = [] <-> batch = [].
Proof.
  split; [| by intros ->].
  intros Hnil. pose proof (sort_Sort_length batch) as Hlen.
  rewrite Hnil in Hlen. by destruct batch.
Qed.

Lemma incoming_closed_enqueueAndCollectRetriesFor w batch q re q' :
  enqueueAndCollectRetriesFor w batch q = Ok re q' ->
  incoming_closed q' = incoming_closed q /\ batchSize q' = batchSize q /\
  incoming q' = incoming q.
Proof.
  intros Hrun.
  pose proof (steps_Ok _ _ _ _ _ (frame_enqueueAndCollectRetriesFor w batch) Hrun)
    as Hfr.
  pose proof (steps_Ok _ _ _ _ _ (incoming_enqueueAndCollectRetriesFor w batch) Hrun)
    as Hinc.
  split_and!; [apply Hfr | apply Hfr | exact Hinc].
Qed.

(** The number of batches of at most [size] objects that [n] objects make. *)
Definition batches (n : nat) (size : Z) : Z := (Z.of_nat n + size - 1) / size.

Lemma batches_small n size : 1 <= size -> Z.of_nat n < size ->
  batches n size = if decide (n = 0%nat) then 0 else 1.
Proof.
  intros Hsize Hn. unfold batches. destruct (decide _) as [->|Hne].
  - apply Z.div_small. lia.
  - replace (Z.of_nat n + size - 1) with ((Z.of_nat n - 1) + 1 * size) by lia.
    rewrite Z.div_add, Z.div_small by lia. done.
Qed.

Lemma batches_large n size : 1 <= size -> size <= Z.of_nat n ->
  batches n size = 1 + batches (n - Z.to_nat size) size.
Proof.
  intros Hsize Hn. unfold batches.
  replace (Z.of_nat n + size - 1)
    with ((Z.of_nat (n - Z.to_nat size) + size - 1) + 1 * size) by lia.
  rewrite Z.div_add by lia. lia.
Qed.

(** When nothing fails, the loop sends one request per batch of the channel. *)
Lemma collectBatches_loop_success w :
  never_fails w ->
  forall fuel closing q q',
  incoming_closed q = true ->
  1 <= batchSize q ->
  (closing = true -> incoming q = []) ->
  collectBatches_loop w fuel closing [] q = Ok tt q' ->
  exists reqs,
    requests q' = requests q ++ reqs /\
    Z.of_nat (length reqs) = batches (length (incoming q)) (batchSize q) /\
    Forall (fun r => Z.of_nat (length r) <= batchSize q) reqs.
Proof.
  intros Hw. induction fuel as [|fuel IH];
    intros closing q q' Hclosed Hsize Hclosing Hrun; [done |].
  cbn [collectBatches_loop] in Hrun.
  apply bind_inv in Hrun as ([closing1 batch1] & q1 & Hrun1 & Hrun).
  cbn [fst snd] in Hrun.
  apply bind_inv in Hrun as ([next err] & q2 & Hrun2 & Hrun).
  cbn [fst snd] in Hrun.
  destruct (enqueueAndCollectRetriesFor_success _ _ _ _ _ _ Hw Hrun2)
    as (-> & -> & Hreq2).
  destruct (incoming_closed_enqueueAndCollectRetriesFor _ _ _ _ _ Hrun2)
    as (Hclosed2 & Hsize2 & Hinc2).
  apply bind_inv in Hrun as (? & q3 & Heq & Hrun).
  assert (q3 = q2) as -> by by injection Heq. clear Heq.
  cbn [length] in Hrun. rewrite bool_decide_true, andb_true_r in Hrun by done.
  assert (Hone : forall batch : Batch,
            Z.of_nat (length batch) <= batchSize q ->
            Forall (fun r => Z.of_nat (length r) <= batchSize q)
              (if decide (sort_Sort (sort_Reverse Less) batch = []) then []
               else [ApiObjects (sort_Sort (sort_Reverse Less) batch)])).
  { intros batch Hlen.
    destruct (decide (sort_Sort (sort_Reverse Less) batch = []));
      [constructor |].
    constructor; [| constructor]. unfold ApiObjects.
    by rewrite length_fmap, sort_Sort_length. }
  destruct closing.
  - injection Hrun1 as <- <- <-. injection Hrun as <-.
    rewrite (Hclosing eq_refl). rewrite decide_True in Hreq2 by done.
    exists []. split_and!; [done | | constructor].
    symmetry. apply Z.div_small. simpl. lia.
  - rewrite (receive_closed [] q Hclosed) in Hrun1. cbv zeta in Hrun1.
    cbn [app length] in Hrun1. rewrite Z.sub_0_r in Hrun1.
    injection Hrun1 as <- <- <-.
    cbn [requests set_incoming] in Hreq2.
    cbn [incoming_closed batchSize incoming set_incoming] in Hclosed2, Hsize2, Hinc2.
    set (n := length (incoming q)) in *.
    case_bool_decide as Hn.
    + injection Hrun as <-.
      rewrite take_ge in Hreq2 by lia.
      eexists. split; [exact Hreq2 |]. split; [| apply Hone; lia].
      rewrite batches_small by lia. fold n.
      destruct (decide (n = 0%nat)) as [Hz|Hnz].
      * apply nil_length_inv in Hz. rewrite Hz.
        by rewrite decide_True by done.
      * rewrite decide_False; [done |].
        rewrite sort_Sort_nil. intros Hnil. apply Hnz. unfold n.
        by rewrite Hnil.
    + destruct (IH false q2 q' ltac:(congruence) ltac:(lia) ltac:(done) Hrun)
        as (reqs & Hreq & Hcount & Hall).
      rewrite Hinc2, Hsize2, length_drop in Hcount. fold n in Hcount.
      rewrite Hsize2 in Hall.
      assert (Htake : length (take (Z.to_nat (batchSize q)) (incoming q))
                      = Z.to_nat (batchSize q)).
      { rewrite length_take. fold n. lia. }
      rewrite decide_False in Hreq2; cycle 1.
      { rewrite sort_Sort_nil. intros Hnil. rewrite Hnil in Htake.
        simpl in Htake. lia. }
      eexists (_ :: reqs). rewrite Hreq, Hreq2, <- app_assoc.
      split; [reflexivity |]. split.
      * rewrite (batches_large n) by lia. rewrite length_cons. lia.
      * constructor; [| done]. unfold ApiObjects.
        rewrite length_fmap, sort_Sort_length, Htake. lia.
Qed.

(** *** Examples *)

Definition example_action : Action := mkAction "https://lfs.example/objects".

(** The server grants a download of the object. *)
Definition grant (o : ObjectResource) : ObjectResource :=
  mkObjectResource (Oid o) (Size o) {[ "download" := example_action ]} None.

Definition tA : Transferable := mkTransferable "aaaa" 1024 "a.bin" "/tmp/a".
Definition tB : Transferable := mkTransferable "bbbb" 2048 "b.bin" "/tmp/b".
Definition tC : Transferable := mkTransferable "cccc" 10 "c.bin" "/tmp/c".

(** Every object is granted and every transfer succeeds. *)
Definition world_ok : World :=
  mkWorld (fun _ _ objs _ => inr (grant <$> objs, "basic"))
    (fun _ => ["basic"]) (fun name _ => name) (fun _ _ => None)
    (fun _ ts => (fun t => mkTransferResult t None) <$> ts).

(** Every object is granted and every transfer fails with [err]. *)
Definition world_failing (err : error) : World :=
  mkWorld (fun _ _ objs _ => inr (grant <$> objs, "basic"))
    (fun _ => ["basic"]) (fun name _ => name) (fun _ _ => None)
    (fun _ ts => (fun t => mkTransferResult t (Some err)) <$> ts).

(** The batch call fails with [err]. *)
Definition world_down (err : error) : World :=
  mkWorld (fun _ _ _ _ => inl err)
    (fun _ => ["basic"]) (fun name _ => name) (fun _ _ => None)
    (fun _ ts => (fun t => mkTransferResult t None) <$> ts).

(** The server answers with an object that was never requested. *)
Definition world_stranger : World :=
  mkWorld
    (fun _ _ _ _ =>
       inr ([mkObjectResource "zzzz" 7 {[ "download" := example_action ]} None],
            "basic"))
    (fun _ => ["basic"]) (fun name _ => name) (fun _ _ => None)
    (fun _ ts => (fun t => mkTransferResult t None) <$> ts).

Lemma grant_Oid (objs : list ObjectResource) :
  Oid <$> (grant <$> objs) = Oid <$> objs.
Proof. by rewrite <- list_fmap_compose. Qed.

Lemma world_ok_well_behaved : well_behaved world_ok.
Proof.
  split.
  - intros n op objs names res name [= <- <-]. by rewrite grant_Oid.
  - intros n pending. cbn. rewrite <- list_fmap_compose.
    change (id <$> pending ≡ₚ pending). by rewrite list_fmap_id.
Qed.

Lemma world_failing_well_behaved err : well_behaved (world_failing err).
Proof.
  split.
  - intros n op objs names res name [= <- <-]. by rewrite grant_Oid.
  - intros n pending. cbn. rewrite <- list_fmap_compose.
    change (id <$> pending ≡ₚ pending). by rewrite list_fmap_id.
Qed.

(** *** The claims *)

(** C7. Every request the batching loop sends to the batch endpoint lists the
    objects of its batch in descending order of size, whatever the endpoint
    and the adapter do, and whether the loop returns or not. *)
Theorem collectBatches_sorts_every_batch (w : World) (fuel : nat)
    (q : TransferQueue) :
  exists new,
    requests (state_of (collectBatches w fuel q)) = requests q ++ new /\
    Forall (StronglySorted (fun a b => Size b <= Size a)) new.
Proof. apply sorted_collectBatches_loop. Qed.

(** C6, as stated, fails: the batch call fails with an error that is not
    retriable; the object has used none of its retries, and still it is not
    put in the next batch, its counter stays at zero, and it is closed. *)
Lemma failed_batch_call_budget_is_not_enough :
  let err := Err "batch response: forbidden" false in
  let q := state_of (Add tA (NewTransferQueue None Download [])) in
  let r := enqueueAndCollectRetriesFor (world_down err) [tA] q in
  CountFor "aaaa" (rc q) < MaxRetries (rc q) /\
  value_of r = Some ([], Some err) /\
  CountFor "aaaa" (rc (state_of r)) = 0 /\
  closed (state_of r) = [("aaaa", FailedTerminal)].
Proof. split_and!; by vm_compute. Qed.

(** C6, amended. When the batch call fails as a whole, the objects of the
    batch that have retries left are put in the next batch, in order, each with
    its retry counter incremented, provided the error is retriable; every
    other object of the batch is closed as failed, its counter unchanged. *)
Theorem failed_batch_call_requeues (w : World) (batch : Batch)
    (q : TransferQueue) (err : error) :
  batch <> [] ->
  NoDup (t_Oid <$> batch) ->
  Z.of_nat (length batch) <= wait q ->
  rc_ok (rc q) ->
  batch_endpoint w (length (requests q)) (transferKind q) (ApiObjects batch)
    (GetAdapterNames w (direction q)) = inl err ->
  let retry t :=
    bool_decide (CountFor (t_Oid t) (rc q) < MaxRetries (rc q))
    && err_retriable err in
  exists q',
    enqueueAndCollectRetriesFor w batch q
    = Ok (filter (fun t => retry t) batch, Some err) q' /\
    (forall t, t ∈ batch ->
       CountFor (t_Oid t) (rc q')
       = CountFor (t_Oid t) (rc q) + (if retry t then 1 else 0)) /\
    closed q' = closed q ++ ((fun t => (t_Oid t, FailedTerminal))
                               <$> filter (fun t => negb (retry t)) batch) /\
    wait q' = wait q
              - Z.of_nat (length (filter (fun t => negb (retry t)) batch)).
Proof.
  intros Hne Hnd Hwait Hrc Hend retry.
  eexists. split; [by apply enqueueAndCollectRetriesFor_failed |].
  cbn. split; [| done]. intros t Hin.
  fold (retried q err t). change retry with (retried q err).
  assert (Hnd' : NoDup (t_Oid <$> filter (fun t => retried q err t) batch)).
  { clear -Hnd. induction batch as [|t batch IH]; [constructor |].
    rewrite fmap_cons in Hnd. apply NoDup_cons in Hnd as [Hnotin Hnd].
    rewrite filter_cons. destruct (decide _); [| by apply IH].
    rewrite fmap_cons. apply NoDup_cons. split; [| by apply IH].
    intros (t' & Heq & Hin)%list_elem_of_fmap_1.
    apply list_elem_of_filter in Hin as [_ Hin].
    apply Hnotin. rewrite Heq. by apply list_elem_of_fmap_2. }
  destruct (retried q err t) eqn:Hretry.
  - apply CountFor_incremented_in; [done | done | |].
    + apply list_elem_of_fmap_2, list_elem_of_filter. by rewrite Hretry.
    + unfold retried in Hretry. apply andb_true_iff in Hretry as [Hlt _].
      by apply bool_decide_eq_true in Hlt.
  - rewrite Z.add_0_r. apply CountFor_incremented_notin.
    intros (t' & Heq & Hin')%list_elem_of_fmap_1.
    apply list_elem_of_filter in Hin' as [Hret' Hin'].
    assert (t' = t) as ->.
    { clear -Hnd Hin Hin' Heq. induction batch as [|x batch IH].
      { by apply elem_of_nil in Hin. }
      rewrite fmap_cons in Hnd. apply NoDup_cons in Hnd as [Hnotin Hnd].
      apply elem_of_cons in Hin as [->|Hin], Hin' as [->|Hin']; [done | | |by apply IH].
      - exfalso. apply Hnotin. rewrite Heq. by apply list_elem_of_fmap_2.
      - exfalso. apply Hnotin. rewrite <- Heq. by apply list_elem_of_fmap_2. }
    by rewrite Hretry in Hret'.
Qed.

Lemma failed_batch_call_requeues_witness :
  let err := Err "batch response: timeout" true in
  let q := state_of (Add tB (state_of (Add tA (NewTransferQueue None Download [])))) in
  let retry t :=
    bool_decide (CountFor (t_Oid t) (rc q) < MaxRetries (rc q))
    && err_retriable err in
  exists q',
    enqueueAndCollectRetriesFor (world_down err) [tB; tA] q
    = Ok (filter (fun t => retry t) [tB; tA], Some err) q' /\
    (forall t, t ∈ [tB; tA] ->
       CountFor (t_Oid t) (rc q')
       = CountFor (t_Oid t) (rc q) + (if retry t then 1 else 0)) /\
    closed q' = closed q ++ ((fun t => (t_Oid t, FailedTerminal))
                               <$> filter (fun t => negb (retry t)) [tB; tA]) /\
    wait q' = wait q
              - Z.of_nat (length (filter (fun t => negb (retry t)) [tB; tA])).
Proof.
  intros err q.
  apply (failed_batch_call_requeues (world_down err) [tB; tA] q err).
  - done.
  - cbn. apply NoDup_cons_2; [| apply NoDup_singleton].
    apply not_elem_of_cons. split; [done | apply not_elem_of_nil].
  - by vm_compute.
  - by apply newRetryCounter_ok.
  - reflexivity.
Defined.

(** C9. The response carries an object with a download action whose oid was
    never added: the loop stops in a nil dereference; nothing is recorded as
    skipped, the wait group is not decremented, and the object that was added
    is never closed. *)
Theorem unknown_oid_in_response_panics :
  let r := session world_stranger 5 [tA] (NewTransferQueue None Download []) in
  fault_of r
  = Some (Panic "invalid memory address or nil pointer dereference") /\
  meter (state_of r) = [MStart] /\
  wait (state_of r) = 1 /\
  closed (state_of r) = [].
Proof. split_and!; by vm_compute. Qed.

(** ** Further properties of the queue *)

(** *** A whole session *)



(** *** The retry counter on its own *)

Lemma Increment_iter_ok oid n r :
  rc_ok r -> rc_ok (Nat.iter n (Increment oid) r).
Proof.
  intros Hr. induction n as [|n IH]; [done |].
  rewrite Nat.iter_succ. by apply Increment_ok.
Qed.

Lemma CountFor_Increment_iter oid n r :
  rc_ok r -> CountFor oid r + Z.of_nat n <= int_max ->
  CountFor oid (Nat.iter n (Increment oid) r) = CountFor oid r + Z.of_nat n.
Proof.
  intros Hr. induction n as [|n IH]; intros Hn; [simpl; lia |].
  rewrite Nat.iter_succ, CountFor_Increment_wrap, IH by lia.
  pose proof (CountFor_range oid r Hr). rewrite wrap_int_id; lia.
Qed.

Lemma CountFor_Increment_iter_ne oid oid' n r :
  oid <> oid' -> CountFor oid' (Nat.iter n (Increment oid) r) = CountFor oid' r.
Proof.
  intros Hne. induction n as [|n IH]; [done |].
  by rewrite Nat.iter_succ, CountFor_Increment_ne.
Qed.

Lemma MaxRetries_Increment_iter oid n r :
  MaxRetries (Nat.iter n (Increment oid) r) = MaxRetries r.
Proof. induction n as [|n IH]; [done |]. by rewrite Nat.iter_succ. Qed.


(** X10. [Increment] and [CountFor] keep one count per oid: after [n]
    increments of an oid its count is [n] higher (as long as that is an
    [int]), the counts of the other oids and the bound are as before, and
    [CanRetry] allows a retry exactly while the count is below the bound. *)
Theorem retries_are_counted_per_oid (r : retryCounter) (oid oid' : string)
    (n : nat) :
  rc_ok r ->
  CountFor oid r + Z.of_nat n <= int_max ->
  oid' <> oid ->
  let r' := Nat.iter n (Increment oid) r in
  CanRetry oid r'
  = (CountFor oid r + Z.of_nat n,
     bool_decide (CountFor oid r + Z.of_nat n < MaxRetries r)) /\
  CanRetry oid' r' = CanRetry oid' r.
Proof.
  intros Hr Hn Hne r'. unfold CanRetry. subst r'.
  rewrite MaxRetries_Increment_iter, CountFor_Increment_iter by done.
  by rewrite CountFor_Increment_iter_ne.
Qed.

Lemma retries_are_counted_per_oid_witness :
  let r' := Nat.iter 2 (Increment "aaaa") (newRetryCounter (Some 2)) in
  CanRetry "aaaa" r'
  = (CountFor "aaaa" (newRetryCounter (Some 2)) + Z.of_nat 2,
     bool_decide (CountFor "aaaa" (newRetryCounter (Some 2)) + Z.of_nat 2
                  < MaxRetries (newRetryCounter (Some 2)))) /\
  CanRetry "bbbb" r' = CanRetry "bbbb" (newRetryCounter (Some 2)).
Proof.
  apply (retries_are_counted_per_oid (newRetryCounter (Some 2)) "aaaa" "bbbb" 2).
  - apply newRetryCounter_ok. intros max [= <-]. by vm_compute.
  - by vm_compute.
  - done.
Defined.

(** *** [Add], from the outside *)

Lemma Add_registers t q :
  is_Some (transferables (state_of (Add t q)) !! t_Oid t).
Proof.
  unfold Add, bind, get, wait_Add, modify, incoming_send, ret.
  destruct (transferables q !! t_Oid t) as [t0|] eqn:Ht; cbn.
  - by rewrite Ht.
  - destruct (incoming_closed q); cbn; rewrite lookup_insert_eq; by eexists.
Qed.

(** X11. The first object added under an oid is the one the queue keeps: a
    later [Add] of an object with the same oid, be it the same object or one
    with another name, path or size, returns without changing the queue. *)
Theorem Add_drops_a_known_oid (t t' : Transferable) (q : TransferQueue) :
  t_Oid t' = t_Oid t ->
  Add t' (state_of (Add t q)) = Ok tt (state_of (Add t q)).
Proof.
  intros Hoid. destruct (Add_registers t q) as [t0 Ht0].
  unfold Add at 1, bind, get. by rewrite Hoid, Ht0.
Qed.

Lemma Add_drops_a_known_oid_witness :
  Add (mkTransferable "aaaa" 7 "other.bin" "/tmp/other")
    (state_of (Add tA (NewTransferQueue None Download [])))
  = Ok tt (state_of (Add tA (NewTransferQueue None Download []))).
Proof.
  apply (Add_drops_a_known_oid tA (mkTransferable "aaaa" 7 "other.bin" "/tmp/other")).
  reflexivity.
Defined.

(** *** [Wait], from the outside *)

Lemma value_of_Ok {A} (r : result A) (a : A) :
  value_of r = Some a -> r = Ok a (state_of r).
Proof. destruct r; [by intros [= ->] | done]. Qed.

(** What holds when [Wait] returns, whatever the endpoint and the adapter
    did. *)
Lemma Wait_returns w fuel q q' :
  Wait w fuel q = Ok tt q' ->
  incoming_closed q' = true /\
  errorc_closed q' = true /\
  adapterInProgress q' = false /\
  wait q' = 0 /\
  Forall (fun c => w_closed c = true) (watchers q') /\
  (exists calls, meter q' = calls ++ [MFinish]) /\
  Z.of_nat (length (closed q')) = wait q + Z.of_nat (length (closed q)) /\
  transferables q' = transferables q.
Proof.
  rewrite Wait_unfold. intros (? & q1 & Hrun1 & Hrun)%bind_inv.
  apply bind_inv in Hrun as (? & q2 & Hrun2 & Hrun).
  unfold wind_up in Hrun.
  apply bind_inv in Hrun as (? & q3 & Hrun3 & Hrun).
  apply bind_inv in Hrun as (? & q4 & Hrun4 & Hrun).
  apply bind_inv in Hrun as (? & q5 & Hrun5 & Hrun).
  apply bind_inv in Hrun as (? & q6 & Hrun6 & Hrun).
  unfold close_incoming in Hrun1.
  destruct (incoming_closed q) eqn:Hic; [done |].
  assert (q1 = set_incoming_closed true q) as -> by by injection Hrun1.
  pose proof (steps_Ok _ _ _ _ _ (frame_collectBatches_loop w fuel false [])
                Hrun2) as Hfr.
  unfold wait_Wait in Hrun3. case_bool_decide as Hwait; [| done].
  assert (q3 = q2) as -> by by injection Hrun3.
  assert (Hq4 : adapterInProgress q4 = false /\ wait q4 = wait q2 /\
                incoming_closed q4 = incoming_closed q2 /\
                errorc_closed q4 = errorc_closed q2 /\
                watchers q4 = watchers q2 /\ meter q4 = meter q2 /\
                closed q4 = closed q2 /\ transferables q4 = transferables q2).
  { unfold finishAdapter, bind, get, modify, ret in Hrun4.
    destruct (adapterInProgress q2) eqn:Hin; by simplify_eq/=. }
  destruct Hq4 as (Hin4 & Hwait4 & Hic4 & Hec4 & Hw4 & Hm4 & Hcl4 & Htr4).
  unfold close_errorc in Hrun5.
  destruct (errorc_closed q4) eqn:Hec; [done |].
  assert (q5 = set_errorc_closed true q4) as -> by by injection Hrun5.
  unfold close_watchers in Hrun6. cbn in Hrun6.
  destruct (forallb _ _); [| done].
  assert (q6 = set_watchers ((fun c => mkWatcher (w_sent c) true) <$> watchers q4)
                 (set_errorc_closed true q4)) as -> by by injection Hrun6.
  unfold meter_do, modify in Hrun.
  assert (q' = set_meter (meter q4 ++ [MFinish])
                 (set_watchers ((fun c => mkWatcher (w_sent c) true) <$> watchers q4)
                    (set_errorc_closed true q4))) as -> by by injection Hrun.
  cbn.
  rewrite Hin4, Hwait4, Hic4, Hcl4, Htr4, Hwait.
  rewrite (fr_incoming_closed _ _ Hfr), (fr_transferables _ _ Hfr).
  split_and!; try done.
  - apply Forall_fmap, Forall_forall. by intros c _.
  - by eexists.
  - pose proof (fr_account _ _ Hfr) as Hacc. cbn in Hacc. lia.
Qed.



(** X13. [Wait] can be called once: a second call, after the first has
    returned, panics on the close of the closed channel [incoming], and
    changes nothing. *)
Theorem Wait_twice_panics (w w' : World) (fuel fuel' : nat) (q : TransferQueue) :
  value_of (Wait w fuel q) = Some tt ->
  Wait w' fuel' (state_of (Wait w fuel q))
  = Fault (Panic "close of closed channel") (state_of (Wait w fuel q)).
Proof.
  intros Hrun%value_of_Ok.
  destruct (Wait_returns _ _ _ _ Hrun) as (Hic & _).
  rewrite Wait_unfold. apply bind_Fault. unfold close_incoming. by rewrite Hic.
Qed.

Lemma Wait_twice_panics_witness :
  Wait world_ok 5
    (state_of (Wait world_ok 5
                 (state_of (Add tA (NewTransferQueue None Download [])))))
  = Fault (Panic "close of closed channel")
      (state_of (Wait world_ok 5
                   (state_of (Add tA (NewTransferQueue None Download []))))).
Proof.
  apply (Wait_twice_panics world_ok world_ok 5 5
           (state_of (Add tA (NewTransferQueue None Download [])))).
  by vm_compute.
Defined.

(** X14. After [Wait] has returned, [Add] does not quietly drop a new object:
    it registers the oid, increments the wait group, and then panics on the
    send on the closed channel. *)
Theorem Add_after_Wait_panics (w : World) (fuel : nat) (q : TransferQueue)
    (t : Transferable) :
  value_of (Wait w fuel q) = Some tt ->
  transferables q !! t_Oid t = None ->
  let r := Add t (state_of (Wait w fuel q)) in
  fault_of r = Some (Panic "send on closed channel") /\
  wait (state_of r) = 1 /\
  transferables (state_of r) !! t_Oid t = Some t.
Proof.
  intros Hrun%value_of_Ok Hnew r.
  destruct (Wait_returns _ _ _ _ Hrun) as (Hic & _ & _ & Hwait & _ & _ & _ & Htr).
  subst r. unfold Add, bind, get, wait_Add, modify, incoming_send.
  rewrite Htr, Hnew. cbn. rewrite Hic, Hwait. cbn.
  by rewrite lookup_insert_eq.
Qed.

Lemma Add_after_Wait_panics_witness :
  let r := Add tB (state_of (Wait world_ok 5
                     (state_of (Add tA (NewTransferQueue None Download []))))) in
  fault_of r = Some (Panic "send on closed channel") /\
  wait (state_of r) = 1 /\
  transferables (state_of r) !! t_Oid tB = Some tB.
Proof.
  apply (Add_after_Wait_panics world_ok 5
           (state_of (Add tA (NewTransferQueue None Download []))) tB).
  - by vm_compute.
  - by vm_compute.
Defined.

(** *** A dry run *)

(** [dry]: a queue in dry-run mode stays in it, and nothing more is handed to
    the adapter. *)
Definition dry (q q' : TransferQueue) : Prop :=
  dryRun q = true -> dryRun q' = true /\ dispatched q' = dispatched q.

Global Instance dry_preorder : PreOrder dry.
Proof.
  split.
  - by intros q Hq.
  - intros q1 q2 q3 H12 H23 Hq. destruct (H12 Hq) as [Hq2 Hd2].
    destruct (H23 Hq2) as [Hq3 Hd3]. split; congruence.
Qed.

Lemma dry_same q q' :
  dryRun q' = dryRun q -> dispatched q' = dispatched q -> dry q q'.
Proof. intros Hr Hd Hq. split; congruence. Qed.

Lemma dry_notify_watchers oid : steps dry (notify_watchers oid).
Proof.
  intros q. unfold notify_watchers.
  destruct (send_all oid (watchers q)) as [ws [|]]; by apply dry_same.
Qed.

Global Hint Resolve dry_notify_watchers : steps.

Ltac dry_steps := steps_with dry ltac:(by apply dry_same).

Lemma dry_handleTransferResult retries res :
  steps dry (handleTransferResult retries res).
Proof. unfold handleTransferResult. dry_steps. Qed.

Global Hint Resolve dry_handleTransferResult : steps.

Lemma dry_ensureAdapterBegun w : steps dry (ensureAdapterBegun w).
Proof. dry_steps. Qed.

(** The only call of [q.adapter.Add] is behind the test of [q.dryRun]. *)
Lemma dry_addToAdapter w pending : steps dry (addToAdapter w pending).
Proof.
  unfold addToAdapter.
  apply (steps_bind dry); [apply dry_ensureAdapterBegun |].
  intros [err|]; [dry_steps |].
  assert (Hrest : steps dry (results <- ret (makeDryRunResults pending) ;;
                             foldM handleTransferResult results [])) by dry_steps.
  intros q Hdry. pose proof (Hrest q Hdry) as Hq.
  unfold bind, get in *. by rewrite Hdry.
Qed.

Global Hint Resolve dry_addToAdapter : steps.

Lemma dry_enqueueAndCollectRetriesFor w batch :
  steps dry (enqueueAndCollectRetriesFor w batch).
Proof.
  unfold enqueueAndCollectRetriesFor, retry_or_close, negotiated, enqueue_retry.
  dry_steps.
Qed.

Lemma dry_collectBatches_loop w fuel closing batch :
  steps dry (collectBatches_loop w fuel closing batch).
Proof.
  revert closing batch. induction fuel as [|fuel IH]; intros closing batch.
  - apply steps_stop; apply _.
  - cbn [collectBatches_loop].
    apply (steps_bind dry); [dry_steps |]. intros cb.
    apply (steps_bind dry); [apply dry_enqueueAndCollectRetriesFor |].
    intros re. apply (steps_bind dry); [dry_steps |].
    intros _. destruct (_ && _); [apply steps_ret; apply _ | apply IH].
Qed.

Lemma dry_session w fuel ts : steps dry (session w fuel ts).
Proof.
  unfold session, Wait, collectBatches, Add.
  pose proof (dry_collectBatches_loop w fuel false []).
  dry_steps.
Qed.

(** X15. In dry-run mode the queue never hands a transfer to the adapter:
    through a whole session, whatever the endpoint and the adapter do and
    whether [Wait] returns or not, [q.adapter.Add] is not called. *)
Theorem dry_run_never_calls_adapter_Add (w : World) (fuel : nat)
    (ts : list Transferable) (q : TransferQueue) :
  dryRun q = true ->
  dispatched (state_of (session w fuel ts q)) = dispatched q.
Proof. intros Hdry. by apply (dry_session w fuel ts q). Qed.

Lemma dry_run_never_calls_adapter_Add_witness :
  dispatched (state_of (session world_ok 5 [tA; tB]
                          (NewTransferQueue None Download [DryRun true])))
  = dispatched (NewTransferQueue None Download [DryRun true]).
Proof.
  apply (dry_run_never_calls_adapter_Add world_ok 5 [tA; tB]
           (NewTransferQueue None Download [DryRun true])).
  reflexivity.
Defined.

(** *** What the batching loop leaves alone *)

(** X16. Whatever the endpoint and the adapter do, and whether it returns,
    panics or blocks, the batching loop never changes the registry of
    transferables, the batch size, the dry-run flag or the direction; it only
    appends to the errors collected and to the objects closed; and every
    [q.wait.Done()] it makes is one decrement of the wait group and nothing
    else touches the wait group. *)
Theorem collectBatches_keeps_the_books (w : World) (fuel : nat)
    (q : TransferQueue) :
  let q' := state_of (collectBatches w fuel q) in
  transferables q' = transferables q /\
  batchSize q' = batchSize q /\
  dryRun q' = dryRun q /\
  direction q' = direction q /\
  errors q `prefix_of` errors q' /\
  closed q `prefix_of` closed q' /\
  wait q' + Z.of_nat (length (closed q'))
  = wait q + Z.of_nat (length (closed q)).
Proof.
  intros q'.
  destruct (frame_collectBatches_loop w fuel false [] q). by split_and!.
Qed.

(** *** An adapter that does not start *)

Lemma skip_loop_state pending : forall q,
  Z.of_nat (length pending) <= wait q ->
  exists q',
    foldM (fun _ t => Skip (Size (Object t)) ;;;
                      wait_Done (Oid (Object t)) FailedTerminal) pending tt q
    = Ok tt q' /\
    closed q'
    = closed q ++ ((fun t => (transfer_oid t, FailedTerminal)) <$> pending) /\
    meter q' = meter q ++ ((fun t => MSkip (Size (Object t))) <$> pending) /\
    wait q' = wait q - Z.of_nat (length pending) /\
    errors q' = errors q /\ dispatched q' = dispatched q /\
    adapterInProgress q' = adapterInProgress q /\ begun q' = begun q.
Proof.
  induction pending as [|t pending IH]; intros q Hwait.
  { exists q. cbn [fmap list_fmap length]. rewrite !app_nil_r.
    change (Z.of_nat 0) with 0. rewrite Z.sub_0_r. by split_and!. }
  rewrite length_cons in Hwait. cbn [foldM].
  unfold bind at 1, bind at 1, Skip, meter_do, modify.
  rewrite wait_Done_Ok by (cbn [wait set_meter]; lia).
  destruct (IH (set_closed
                  (closed q ++ [(Oid (Object t), FailedTerminal)])
                  (set_wait (wait q - 1)
                     (set_meter (meter q ++ [MSkip (Size (Object t))]) q))))
    as (q' & Hrun & Hcl & Hm & Hw & He & Hd & Ha & Hb);
    [cbn [wait set_closed set_wait]; lia |].
  exists q'. split; [exact Hrun |].
  rewrite Hcl, Hm, Hw, He, Hd, Ha, Hb, length_cons, !fmap_cons.
  cbn [closed meter wait errors dispatched adapterInProgress begun
       set_closed set_wait set_meter].
  rewrite <- !app_assoc. split_and!; try done. lia.
Qed.

(** The adapter never starts. *)
Definition world_unstartable (err : error) : World :=
  mkWorld (fun _ _ objs _ => inr (grant <$> objs, "basic"))
    (fun _ => ["basic"]) (fun name _ => name) (fun _ _ => Some err)
    (fun _ ts => (fun t => mkTransferResult t None) <$> ts).

(** X17. When the adapter fails to start, [addToAdapter] reports that error
    once, and gives up every pending transfer: each is skipped on the meter
    and closed as failed, in order; nothing is handed to the adapter, nothing
    is retried, and the adapter is still not in progress, so that the next
    batch tries to start it again. *)
Theorem failed_Begin_gives_up_the_batch (w : World) (pending : list Transfer)
    (q : TransferQueue) (a : string) (err : error) :
  adapterInProgress q = false ->
  adapter q = Some a ->
  adapter_Begin w (begun q) a = Some err ->
  errorc_closed q = false ->
  Z.of_nat (length pending) <= wait q ->
  let r := addToAdapter w pending q in
  value_of r = Some [] /\
  errors (state_of r) = errors q ++ [err] /\
  closed (state_of r)
  = closed q ++ ((fun t => (transfer_oid t, FailedTerminal)) <$> pending) /\
  meter (state_of r)
  = meter q ++ ((fun t => MSkip (Size (Object t))) <$> pending) /\
  wait (state_of r) = wait q - Z.of_nat (length pending) /\
  dispatched (state_of r) = dispatched q /\
  adapterInProgress (state_of r) = false /\
  begun (state_of r) = S (begun q).
Proof.
  intros Hin Had Hbegin Herrc Hwait r.
  assert (Hbegun : ensureAdapterBegun w q
                   = Ok (Some err) (set_begun (S (begun q)) q)).
  { unfold ensureAdapterBegun, bind, get, modify, ret.
    by rewrite Hin, Had, Hbegin. }
  destruct (skip_loop_state pending
              (set_errors (errors q ++ [err]) (set_begun (S (begun q)) q)) Hwait)
    as (q' & Hrun & Hcl & Hm & Hw & He & Hd & Ha & Hb).
  assert (Hr : r = Ok [] q').
  { subst r. unfold addToAdapter. rewrite (bind_Ok _ _ _ _ _ Hbegun).
    rewrite (bind_Ok _ _ _ _ _
               (errorc_send_Ok err (set_begun (S (begun q)) q) Herrc)).
    by rewrite (bind_Ok _ _ _ _ _ Hrun). }
  rewrite Hr. cbn [value_of state_of].
  by rewrite Hcl, Hm, Hw, He, Hd, Ha, Hb.
Qed.

Lemma failed_Begin_gives_up_the_batch_witness :
  let err := Err "adapter: cannot start" false in
  let q := state_of (useAdapter (world_unstartable err) "basic"
             (state_of (Add tB (state_of (Add tA
                (NewTransferQueue None Download [])))))) in
  let pending := [NewTransfer "b.bin" (grant (mkObjectResource "bbbb" 2048 ∅ None)) "/tmp/b";
                  NewTransfer "a.bin" (grant (mkObjectResource "aaaa" 1024 ∅ None)) "/tmp/a"] in
  let r := addToAdapter (world_unstartable err) pending q in
  value_of r = Some [] /\
  errors (state_of r) = errors q ++ [err] /\
  closed (state_of r)
  = closed q ++ ((fun t => (transfer_oid t, FailedTerminal)) <$> pending) /\
  meter (state_of r)
  = meter q ++ ((fun t => MSkip (Size (Object t))) <$> pending) /\
  wait (state_of r) = wait q - Z.of_nat (length pending) /\
  dispatched (state_of r) = dispatched q /\
  adapterInProgress (state_of r) = false /\
  begun (state_of r) = S (begun q).
Proof.
  intros err q pending.
  apply (failed_Begin_gives_up_the_batch (world_unstartable err) pending q
           "basic" err).
  - reflexivity.
  - reflexivity.
  - reflexivity.
  - reflexivity.
  - by vm_compute.
Defined.

(** *** A session without objects *)

(** The one turn of the batching loop of a session without objects, up to
    the start of the adapter. *)
Lemma empty_session_turn (w : World) (cfg : option Z) (dir : Direction)
    (dry : bool) (fuel : nat) :
  let a := NewAdapterOrDefault w "" dir in
  let q3 := set_meter [MStart] (set_startProgress true (set_adapter (Some a)
              (set_incoming_closed true (NewTransferQueue cfg dir [DryRun dry])))) in
  session w (S fuel) [] (NewTransferQueue cfg dir [DryRun dry])
  = (retries <- addToAdapter w [] ;;
     next <- foldM enqueue_retry retries [] ;;
     if bool_decide (length next = 0%nat) then wind_up
     else collectBatches_loop w fuel true next ;;; wind_up) q3.
Proof.
  intros a q3.
  set (q0 := NewTransferQueue cfg dir [DryRun dry]) in *.
  rewrite session_unfold. cbn [foldM]. unfold bind at 1, ret at 1.
  rewrite Wait_unfold.
  rewrite (bind_Ok _ _ _ tt (set_incoming_closed true q0)) by done.
  unfold collectBatches. cbn [collectBatches_loop].
  unfold bind at 1.
  rewrite (bind_Ok _ _ _ (true, []) (set_incoming_closed true q0)) by done.
  cbn [fst snd].
  change (sort_Sort (sort_Reverse Less) []) with (@nil Transferable).
  unfold bind at 1. rewrite enqueueAndCollectRetriesFor_unfold, api_Batch_empty.
  unfold transfer_objects.
  rewrite (bind_Ok _ _ _ tt (set_adapter (Some a) (set_incoming_closed true q0)))
    by done.
  rewrite (bind_Ok _ _ _ tt q3) by done.
  cbn [foldM]. unfold bind at 1, ret at 1.
  unfold bind. destruct (addToAdapter w [] q3) as [retries q4|]; [| done].
  destruct (foldM enqueue_retry retries [] q4) as [next q5|]; [| done].
  unfold ret. cbn [fst snd andb].
  destruct (bool_decide (length next = 0%nat)); [done |].
  by destruct (collectBatches_loop w fuel true next q5).
Qed.

Lemma empty_session_unstartable (w : World) (cfg : option Z) (dir : Direction)
    (dry : bool) (fuel : nat) (err : error) :
  adapter_Begin w 0 (NewAdapterOrDefault w "" dir) = Some err ->
  let r := session w (S fuel) [] (NewTransferQueue cfg dir [DryRun dry]) in
  value_of r = Some tt /\ requests (state_of r) = [] /\
  begun (state_of r) = 1%nat /\ errors (state_of r) = [err] /\
  dispatched (state_of r) = [] /\ meter (state_of r) = [MStart; MFinish].
Proof.
  intros Hb r. subst r. rewrite empty_session_turn.
  set (q3 := set_meter [MStart] _).
  unfold addToAdapter, bind, get.
  assert (Hbegun : ensureAdapterBegun w q3 = Ok (Some err) (set_begun 1 q3)).
  { unfold ensureAdapterBegun, bind, get, modify, ret. cbn. by rewrite Hb. }
  rewrite Hbegun. by vm_compute.
Qed.

Lemma empty_session_started (w : World) (cfg : option Z) (dir : Direction)
    (dry : bool) (fuel : nat) :
  adapter_Add w 0 [] = [] ->
  adapter_Begin w 0 (NewAdapterOrDefault w "" dir) = None ->
  let r := session w (S fuel) [] (NewTransferQueue cfg dir [DryRun dry]) in
  value_of r = Some tt /\ requests (state_of r) = [] /\
  begun (state_of r) = 1%nat /\ errors (state_of r) = [] /\
  dispatched (state_of r) = (if dry then [] else [[]]) /\
  meter (state_of r) = [MStart; MFinish].
Proof.
  intros Hadd Hb r. subst r. destruct dry.
  - rewrite empty_session_turn.
    set (q3 := set_meter [MStart] _).
    unfold addToAdapter, bind, get.
    assert (Hbegun : ensureAdapterBegun w q3
                     = Ok None (set_adapterInProgress true (set_begun 1 q3))).
    { unfold ensureAdapterBegun, bind, get, modify, ret. cbn. by rewrite Hb. }
    rewrite Hbegun. by vm_compute.
  - rewrite empty_session_turn.
    set (q3 := set_meter [MStart] _).
    unfold addToAdapter, bind, get.
    assert (Hbegun : ensureAdapterBegun w q3
                     = Ok None (set_adapterInProgress true (set_begun 1 q3))).
    { unfold ensureAdapterBegun, bind, get, modify, ret. cbn. by rewrite Hb. }
    rewrite Hbegun.
    change (dryRun (set_adapterInProgress true (set_begun 1 q3))) with false.
    cbv iota. rewrite adapter_Add_call_Ok.
    change (length (dispatched (set_adapterInProgress true (set_begun 1 q3))))
      with 0%nat.
    rewrite Hadd. by vm_compute.
Qed.



(** *** The requests of a session in which nothing fails *)

Lemma requests_wind_up : steps (same requests) wind_up.
Proof. unfold wind_up. same_steps requests. Qed.

Lemma distinct_oids_length (l : list Transferable) (oids : list string) :
  NoDup (t_Oid <$> l) ->
  (forall oid, oid ∈ t_Oid <$> l <-> oid ∈ oids) ->
  length l = length (remove_dups oids).
Proof.
  intros Hnd Hiff. rewrite <- (length_fmap t_Oid l).
  apply Permutation_length, NoDup_Permutation; [done | apply NoDup_remove_dups |].
  intros oid. by rewrite elem_of_remove_dups.
Qed.

Lemma session_requests w q ts fuel q' :
  never_fails w -> new_queue q ->
  session w fuel ts q = Ok tt q' ->
  Z.of_nat (length (requests q'))
  = batches (length (remove_dups (t_Oid <$> ts))) (batchSize q) /\
  Forall (fun req => Z.of_nat (length req) <= batchSize q) (requests q').
Proof.
  intros Hw (Hadd & Hinc & Hreq & _) Hrun.
  destruct (Add_loop ts q Hadd)
    as (q1 & Hrun1 & Hadd1 & Hinc1 & _ & Hreq1 & _ & _ & _ & Hsize1 & _).
  rewrite session_unfold, (bind_Ok _ _ _ _ _ Hrun1), Wait_unfold in Hrun.
  apply bind_inv in Hrun as (? & q2 & Hrun2 & Hrun).
  apply bind_inv in Hrun as (? & q3 & Hrun3 & Hrun).
  unfold close_incoming in Hrun2. rewrite (ad_open _ Hadd1) in Hrun2.
  assert (q2 = set_incoming_closed true q1) as -> by by injection Hrun2.
  destruct x0.
  destruct (collectBatches_loop_success w Hw fuel false
              (set_incoming_closed true q1) q3 eq_refl
              (ad_size _ Hadd1) ltac:(done) Hrun3)
    as (reqs & Hreqs & Hcount & Hall).
  pose proof (steps_Ok _ _ _ _ _ requests_wind_up Hrun) as Hreq3.
  unfold same in Hreq3. cbn in Hreqs, Hcount, Hall.
  rewrite Hreq3, Hreqs, Hreq1, Hreq, app_nil_l, <- Hsize1. split; [| done].
  rewrite Hcount. f_equal. apply distinct_oids_length; [apply Hadd1 |].
  intros oid. rewrite Hinc1, Hinc, elem_of_nil. cbn. tauto.
Qed.


Lemma world_ok_never_fails : never_fails world_ok.
Proof.
  split.
  - apply world_ok_well_behaved.
  - done.
  - done.
  - intros n pending. cbn. by apply Forall_fmap, Forall_forall.
Qed.


(** *** What the watchers receive *)

(** [returns R m]: when [m] returns, the state it reaches is related by [R]
    to the state it starts from. *)
Definition returns (R : relation TransferQueue) {A} (m : M A) : Prop :=
  forall q a q', m q = Ok a q' -> R q q'.

Section Returns.
Context (R : relation TransferQueue) `{!PreOrder R}.

Lemma returns_steps {A} (m : M A) : steps R m -> returns R m.
Proof. intros Hm q a q' Hq. by eapply steps_Ok. Qed.

Lemma returns_bind {A B} (m : M A) (f : A -> M B) :
  returns R m -> (forall a, returns R (f a)) -> returns R (bind m f).
Proof.
  intros Hm Hf q b q'' (a & q' & Hq & Hq')%bind_inv.
  etrans; [by eapply Hm | by eapply Hf].
Qed.

Lemma returns_foldM {A B} (f : B -> A -> M B) (l : list A) (b : B) :
  (forall b x, returns R (f b x)) -> returns R (foldM f l b).
Proof.
  intros Hf. revert b. induction l as [|x l IH]; intros b; cbn [foldM].
  - apply returns_steps, steps_ret. apply _.
  - apply returns_bind; [apply Hf | done].
Qed.

End Returns.

Definition is_succeeded (how : terminal) : bool :=
  match how with Succeeded => true | _ => false end.

(** The oids closed as succeeded, in the order of their closing. *)
Definition succeeded (cl : list (string * terminal)) : list string :=
  (filter (fun p => is_succeeded p.2) cl).*1.

Lemma succeeded_app cl cl' : succeeded (cl ++ cl') = succeeded cl ++ succeeded cl'.
Proof. unfold succeeded. by rewrite filter_app, fmap_app. Qed.

(** [heard]: the watchers, all open, have been sent the oids closed as
    succeeded since, and nothing else. *)
Definition heard (q q' : TransferQueue) : Prop :=
  watchers_open q ->
  exists cl,
    closed q' = closed q ++ cl /\
    watchers q'
    = (fun c => mkWatcher (w_sent c ++ succeeded cl) false) <$> watchers q.

Lemma sent_nothing ws :
  Forall (fun c => w_closed c = false) ws ->
  (fun c => mkWatcher (w_sent c ++ []) false) <$> ws = ws.
Proof.
  induction 1 as [|[sent cl] ws Hc _ IH]; [done |].
  cbn in Hc. subst cl. rewrite fmap_cons, IH. cbn. by rewrite app_nil_r.
Qed.

Global Instance heard_preorder : PreOrder heard.
Proof.
  split.
  - intros q Hopen. exists []. rewrite app_nil_r. split; [done |].
    symmetry. by apply sent_nothing.
  - intros q1 q2 q3 H12 H23 Hopen.
    destruct (H12 Hopen) as (cl1 & Hcl1 & Hw1).
    destruct H23 as (cl2 & Hcl2 & Hw2).
    { unfold watchers_open. rewrite Hw1. by apply Forall_fmap, Forall_forall. }
    exists (cl1 ++ cl2). rewrite Hcl2, Hcl1, app_assoc. split; [done |].
    rewrite Hw2, Hw1, <- list_fmap_compose. apply list_fmap_ext.
    intros i c _. cbn. by rewrite succeeded_app, app_assoc.
Qed.

Lemma heard_unchanged q q' :
  closed q' = closed q -> watchers q' = watchers q -> heard q q'.
Proof.
  intros Hc Hw Hopen. exists []. rewrite Hc, Hw, app_nil_r. split; [done |].
  symmetry. by apply sent_nothing.
Qed.

(** A computation that leaves [closed] and [watchers] alone. *)
Lemma unheard {A} (m : M A) :
  steps (same closed) m -> steps (same watchers) m -> returns heard m.
Proof.
  intros Hc Hw q a q' Hq. apply heard_unchanged.
  - apply (steps_Ok _ _ _ _ _ Hc Hq).
  - apply (steps_Ok _ _ _ _ _ Hw Hq).
Qed.

Lemma heard_wait_Done oid how :
  is_succeeded how = false -> returns heard (wait_Done oid how).
Proof.
  intros Hhow q [] q' Hq Hopen. unfold wait_Done in Hq.
  case_bool_decide; [done |].
  assert (q' = set_closed (closed q ++ [(oid, how)]) (set_wait (wait q - 1) q))
    as -> by by injection Hq.
  exists [(oid, how)]. split; [done |]. cbn [watchers set_closed set_wait].
  unfold succeeded. rewrite filter_cons_False by (cbn; rewrite Hhow; cbn; tauto).
  symmetry. by apply sent_nothing.
Qed.

Create HintDb heard.

Global Hint Extern 1 (returns heard (wait_Done _ FailedTerminal)) =>
  apply heard_wait_Done; reflexivity : heard.
Global Hint Extern 1 (returns heard (wait_Done _ Skipped)) =>
  apply heard_wait_Done; reflexivity : heard.

Ltac heard_steps :=
  repeat first
    [ solve [auto with nocore heard]
    | lazymatch goal with
      | |- returns _ (foldM _ _ _) => apply (returns_foldM heard); intros
      | |- returns _ (bind _ _) => apply (returns_bind heard); [| intros]
      end
    | solve [apply unheard; [same_steps closed | same_steps watchers]]
    | progress case_match ].

(** A successful transfer: its oid is sent to every watcher, and the object
    is closed as succeeded. *)
Lemma heard_success oid name q u1 q1 u2 q2 u3 q3 :
  notify_watchers oid q = Ok u1 q1 ->
  meter_do (MFinishTransfer name) q1 = Ok u2 q2 ->
  wait_Done oid Succeeded q2 = Ok u3 q3 ->
  heard q q3.
Proof.
  intros Hq1 Hq2 Hq Hopen.
  rewrite (notify_watchers_Ok _ _ Hopen) in Hq1.
  match type of Hq1 with
  | Ok _ ?s = _ => assert (q1 = s) as -> by by injection Hq1
  end.
  unfold meter_do, modify in Hq2.
  match type of Hq2 with
  | Ok _ ?s = _ => assert (q2 = s) as -> by by injection Hq2
  end.
  unfold wait_Done in Hq. case_bool_decide; [done |].
  match type of Hq with
  | Ok _ ?s = _ => assert (q3 = s) as -> by by injection Hq
  end.
  by exists [(oid, Succeeded)].
Qed.

Lemma heard_handleTransferResult retries res :
  returns heard (handleTransferResult retries res).
Proof.
  unfold handleTransferResult.
  apply (returns_bind heard); [heard_steps |]. intros q.
  destruct (res_Error res) as [err|]; [heard_steps |].
  intros q0 a q' Hq.
  apply bind_inv in Hq as (u1 & q1 & Hq1 & Hq).
  apply bind_inv in Hq as (u2 & q2 & Hq2 & Hq).
  apply bind_inv in Hq as (u3 & q3 & Hq3 & Hq).
  assert (q' = q3) as -> by by injection Hq.
  by eapply heard_success.
Qed.

Global Hint Resolve heard_handleTransferResult : heard.

Lemma heard_enqueueAndCollectRetriesFor w batch :
  returns heard (enqueueAndCollectRetriesFor w batch).
Proof.
  unfold enqueueAndCollectRetriesFor, retry_or_close, negotiated, addToAdapter,
    enqueue_retry.
  heard_steps.
Qed.

Lemma heard_collectBatches_loop w fuel closing batch :
  returns heard (collectBatches_loop w fuel closing batch).
Proof.
  revert closing batch. induction fuel as [|fuel IH]; intros closing batch.
  - by intros q a q' Hq.
  - cbn [collectBatches_loop].
    apply (returns_bind heard); [heard_steps |]. intros cb.
    apply (returns_bind heard); [apply heard_enqueueAndCollectRetriesFor |].
    intros re. apply (returns_bind heard); [heard_steps |].
    intros _. destruct (_ && _); [heard_steps | apply IH].
Qed.

Lemma heard_Add t : returns heard (Add t).
Proof. unfold Add. heard_steps. Qed.

(** At the end of [Wait] the watchers are closed; nothing is sent or closed
    any more. *)
Lemma wind_up_watchers q q' :
  wind_up q = Ok tt q' ->
  closed q' = closed q /\
  watchers q' = (fun c => mkWatcher (w_sent c) true) <$> watchers q.
Proof.
  intros Hq. split; [apply (steps_Ok _ _ _ _ _ closed_wind_up Hq) |].
  unfold wind_up in Hq.
  apply bind_inv in Hq as (? & q1 & Hq1 & Hq).
  apply bind_inv in Hq as (? & q2 & Hq2 & Hq).
  apply bind_inv in Hq as (? & q3 & Hq3 & Hq).
  apply bind_inv in Hq as (? & q4 & Hq4 & Hq).
  assert (Hw1 : steps (same watchers) wait_Wait) by same_steps watchers.
  assert (Hw2 : steps (same watchers) finishAdapter) by same_steps watchers.
  assert (Hw3 : steps (same watchers) close_errorc) by same_steps watchers.
  assert (Hw5 : steps (same watchers) (meter_do MFinish)) by same_steps watchers.
  apply (steps_Ok _ _ _ _ _ Hw1) in Hq1.
  apply (steps_Ok _ _ _ _ _ Hw2) in Hq2.
  apply (steps_Ok _ _ _ _ _ Hw3) in Hq3.
  apply (steps_Ok _ _ _ _ _ Hw5) in Hq.
  unfold same in *. rewrite Hq, <- Hq1, <- Hq2, <- Hq3.
  unfold close_watchers in Hq4. destruct (forallb _ _); [| done].
  match type of Hq4 with
  | Ok _ ?s = _ => assert (q4 = s) as -> by by injection Hq4
  end.
  done.
Qed.

(** X20. When [Wait] returns at the end of a session, every channel that
    [Watch] had returned before, and that was still open, is closed, and has
    been sent exactly the oids of the objects closed as succeeded during the
    session, in the order in which they were closed; whatever the endpoint and
    the adapter did. *)
Theorem watchers_hear_every_success (w : World) (fuel : nat)
    (ts : list Transferable) (q : TransferQueue) :
  Forall (fun c => w_closed c = false) (watchers q) ->
  value_of (session w fuel ts q) = Some tt ->
  let q' := state_of (session w fuel ts q) in
  exists cl,
    closed q' = closed q ++ cl /\
    watchers q'
    = (fun c => mkWatcher (w_sent c ++ succeeded cl) true) <$> watchers q.
Proof.
  intros Hopen Hrun%value_of_Ok q'. fold q' in Hrun.
  rewrite session_unfold, Wait_unfold in Hrun.
  apply bind_inv in Hrun as (u1 & q1 & Hrun1 & Hrun).
  apply bind_inv in Hrun as (u2 & q2 & Hrun2 & Hrun).
  apply bind_inv in Hrun as (u3 & q3 & Hrun3 & Hrun).
  assert (Hclose : returns heard close_incoming)
    by (apply unheard; [same_steps closed | same_steps watchers]).
  pose proof (returns_foldM heard (fun _ t => Add t) ts tt
                (fun _ t => heard_Add t) _ _ _ Hrun1) as H1.
  pose proof (Hclose _ _ _ Hrun2) as H2.
  pose proof (heard_collectBatches_loop w fuel false [] _ _ _ Hrun3) as H3.
  destruct ((transitivity H1 (transitivity H2 H3)) Hopen) as (cl & Hcl & Hw).
  apply wind_up_watchers in Hrun as [Hcl' Hw'].
  exists cl. rewrite Hcl', Hw', Hcl, Hw, <- list_fmap_compose. done.
Qed.

Lemma watchers_hear_every_success_witness :
  let q := state_of (Watch (NewTransferQueue None Download [])) in
  let q' := state_of (session world_ok 5 [tA; tB] q) in
  exists cl,
    closed q' = closed q ++ cl /\
    watchers q'
    = (fun c => mkWatcher (w_sent c ++ succeeded cl) true) <$> watchers q.
Proof.
  intros q.
  apply (watchers_hear_every_success world_ok 5 [tA; tB] q).
  - by repeat constructor.
  - by vm_compute.
Defined.

(** *** How often an object is handed to the adapter *)

(** The number of transfers of [oid] handed to the adapter so far. *)
Definition dispatches (oid : string) (q : TransferQueue) : nat :=
  length (filter (fun t => transfer_oid t = oid) (concat (dispatched q))).

Lemma filter_eq_notin {A} (f : A -> string) (y : string) (l : list A) :
  y ∉ f <$> l -> filter (fun x => f x = y) l = [].
Proof.
  induction l as [|x l IH]; [done |].
  rewrite fmap_cons. intros [Hne Hnotin]%not_elem_of_cons.
  rewrite filter_cons_False by (by intros Heq). by apply IH.
Qed.

Lemma filter_eq_NoDup {A} (f : A -> string) (y : string) (l : list A) :
  NoDup (f <$> l) -> (length (filter (fun x => f x = y) l) <= 1)%nat.
Proof.
  induction l as [|x l IH]; [cbn; lia |].
  rewrite fmap_cons. intros [Hnotin Hnd]%NoDup_cons.
  rewrite filter_cons. destruct (decide (f x = y)) as [<-|Hne]; [| by apply IH].
  rewrite filter_eq_notin by done. cbn. lia.
Qed.

Lemma dispatches_same oid q q' :
  dispatched q' = dispatched q -> dispatches oid q' = dispatches oid q.
Proof. unfold dispatches. by intros ->. Qed.

Lemma dispatches_snoc oid q q' pending :
  dispatched q' = dispatched q ++ [pending] ->
  dispatches oid q'
  = (dispatches oid q
     + length (filter (fun t => transfer_oid t = oid) pending))%nat.
Proof.
  unfold dispatches. intros ->.
  rewrite concat_app, filter_app, length_app. cbn [concat].
  by rewrite app_nil_r.
Qed.

Lemma dispatched_handleTransferResult retries res :
  steps (same dispatched) (handleTransferResult retries res).
Proof. unfold handleTransferResult. same_steps dispatched. Qed.

Global Hint Resolve dispatched_handleTransferResult : steps.

(** [addToAdapter] calls [q.adapter.Add] at most once, with the pending
    transfers. *)
Lemma addToAdapter_dispatched w pending q retries q' :
  addToAdapter w pending q = Ok retries q' ->
  dispatched q' = dispatched q \/ dispatched q' = dispatched q ++ [pending].
Proof.
  unfold addToAdapter. intros (err & q1 & Hq1 & Hq)%bind_inv.
  assert (H1 : steps (same dispatched) (ensureAdapterBegun w))
    by same_steps dispatched.
  apply (steps_Ok _ _ _ _ _ H1) in Hq1. unfold same in Hq1.
  destruct err as [err|].
  - left. rewrite <- Hq1.
    assert (H2 : steps (same dispatched)
                   (errorc_send err ;;;
                    foldM (fun _ t => Skip (Size (Object t)) ;;;
                                      wait_Done (Oid (Object t)) FailedTerminal)
                      pending tt ;;; ret (@nil Transferable)))
      by same_steps dispatched.
    apply (steps_Ok _ _ _ _ _ H2 Hq).
  - apply bind_inv in Hq as (q1' & q1'' & Hget & Hq).
    assert (q1' = q1 /\ q1'' = q1) as [-> ->] by by injection Hget.
    apply bind_inv in Hq as (results & q2 & Hq2 & Hq).
    assert (H3 : steps (same dispatched) (foldM handleTransferResult results []))
      by same_steps dispatched.
    apply (steps_Ok _ _ _ _ _ H3) in Hq. unfold same in Hq. rewrite Hq.
    destruct (dryRun q1).
    + left. assert (q2 = q1) as -> by by injection Hq2. done.
    + right. rewrite adapter_Add_call_Ok in Hq2.
      match type of Hq2 with
      | Ok _ ?s = _ => assert (q2 = s) as -> by by injection Hq2
      end.
      cbn. by rewrite Hq1.
Qed.

Lemma dispatched_failed_batch err batch next :
  steps (same dispatched) (foldM (retry_or_close err) batch next).
Proof. unfold retry_or_close. same_steps dispatched. Qed.

(** A turn of the batching loop hands each object of its batch to the adapter
    at most once, and no other object. *)
Lemma enqueueAndCollectRetriesFor_dispatches w batch q next err q' oid :
  well_behaved w -> ready q -> held q batch ->
  enqueueAndCollectRetriesFor w batch q = Ok (next, err) q' ->
  (dispatches oid q <= dispatches oid q' <= dispatches oid q + 1)%nat /\
  (oid ∉ t_Oid <$> batch -> dispatches oid q' = dispatches oid q).
Proof.
  intros Hw Hready Hheld. rewrite enqueueAndCollectRetriesFor_unfold.
  assert (Hsame : forall q1 : TransferQueue,
            dispatched q1 = dispatched q ->
            (dispatches oid q <= dispatches oid q1 <= dispatches oid q + 1)%nat /\
            (oid ∉ t_Oid <$> batch -> dispatches oid q1 = dispatches oid q)).
  { intros q1 Hq1. rewrite (dispatches_same oid q q1 Hq1). split; [lia | done]. }
  assert (Hturn : forall objs name q1,
            dispatched q1 = dispatched q -> ready q1 -> held q1 batch ->
            Oid <$> objs ≡ₚ t_Oid <$> batch ->
            transfer_objects w objs name q1 = Ok (next, err) q' ->
            (dispatches oid q <= dispatches oid q' <= dispatches oid q + 1)%nat /\
            (oid ∉ t_Oid <$> batch -> dispatches oid q' = dispatches oid q)).
  { clear Hready Hheld. intros objs name q0 Hd0 Hready Hheld Hobjs Hrun.
    unfold transfer_objects in Hrun.
    apply bind_inv in Hrun as (u1 & q1 & Hrun1 & Hrun).
    apply bind_inv in Hrun as (u2 & q2 & Hrun2 & Hrun).
    apply bind_inv in Hrun as (toTransfer & q3 & Hrun3 & Hrun).
    apply bind_inv in Hrun as (retries & q4 & Hrun4 & Hrun).
    apply bind_inv in Hrun as (next' & q5 & Hrun5 & Hrun).
    assert (q' = q5) as -> by by injection Hrun. clear Hrun.
    pose proof (steps_Ok _ _ _ _ _ (frame_useAdapter w name) Hrun1) as Hfr1.
    pose proof (steps_Ok _ _ _ _ _ frame_startProgress_Do Hrun2) as Hfr2.
    assert (Hfr02 : frame q0 q2) by by etrans.
    destruct (useAdapter_Ok w name q0) as (q1' & Hrun1' & _ & Hcl1 & _).
    rewrite Hrun1 in Hrun1'. assert (q1' = q1) as -> by by injection Hrun1'.
    destruct (startProgress_Do_Ok q1) as (q2' & Hrun2' & _ & Hcl2 & _).
    rewrite Hrun2 in Hrun2'. assert (q2' = q2) as -> by by injection Hrun2'.
    assert (Hwait2 : wait q2 = wait q0).
    { pose proof (fr_account _ _ Hfr02) as Hacc. rewrite Hcl2, Hcl1 in Hacc. lia. }
    assert (Hlen : length objs = length batch).
    { rewrite <- (length_fmap Oid objs), Hobjs. apply length_fmap. }
    destruct (negotiated_loop objs [] q2)
      as (new & q3' & cla & Hrun3' & _ & _ & Hpa & _).
    { rewrite (fr_errorc_closed _ _ Hfr02). apply Hready. }
    { rewrite Hwait2, Hlen. apply Hheld. }
    { rewrite (fr_transferables _ _ Hfr02). apply Forall_forall. intros o Ho.
      destruct (registered_oid q0 batch (Oid o) Hheld) as (t & _ & _ & Ht);
        [| by eexists].
      rewrite <- Hobjs. by apply list_elem_of_fmap_2. }
    rewrite Hrun3 in Hrun3'. cbn [app] in Hrun3'.
    assert (toTransfer = new /\ q3' = q3) as [-> ->] by by injection Hrun3'.
    assert (Hd1 : steps (same dispatched) (useAdapter w name))
      by same_steps dispatched.
    assert (Hd2 : steps (same dispatched) startProgress_Do)
      by same_steps dispatched.
    assert (Hd3 : steps (same dispatched) (foldM negotiated objs []))
      by same_steps dispatched.
    assert (Hd5 : steps (same dispatched) (foldM enqueue_retry retries []))
      by (unfold enqueue_retry; same_steps dispatched).
    apply (steps_Ok _ _ _ _ _ Hd1) in Hrun1.
    apply (steps_Ok _ _ _ _ _ Hd2) in Hrun2.
    apply (steps_Ok _ _ _ _ _ Hd3) in Hrun3.
    apply (steps_Ok _ _ _ _ _ Hd5) in Hrun5.
    unfold same in *.
    assert (Hd03 : dispatched q3 = dispatched q) by congruence.
    destruct (addToAdapter_dispatched _ _ _ _ _ Hrun4) as [Hd4|Hd4].
    { apply Hsame. congruence. }
    assert (Hd : dispatched q5 = dispatched q ++ [new]) by congruence.
    rewrite (dispatches_snoc oid q q5 new Hd).
    assert (Hnd : NoDup (cla.*1 ++ (transfer_oid <$> new))).
    { rewrite Hpa, Hobjs. apply Hheld. }
    apply NoDup_app in Hnd as (_ & _ & Hnd).
    pose proof (filter_eq_NoDup transfer_oid oid new Hnd). split; [lia |].
    intros Hnotin. rewrite filter_eq_notin; [cbn; lia |].
    intros Hin. apply Hnotin. rewrite <- Hobjs, <- Hpa.
    apply elem_of_app. by right. }
  destruct batch as [|t0 batch0] eqn:Hbatch.
  { rewrite api_Batch_empty. by apply Hturn. }
  rewrite <- Hbatch in *. assert (Hne : batch <> []) by by rewrite Hbatch.
  clear Hbatch t0 batch0.
  rewrite api_Batch_request by by rewrite ApiObjects_nil.
  set (q1 := set_requests _ q).
  assert (Hready1 : ready q1) by by destruct Hready.
  assert (Hheld1 : held q1 batch) by by destruct Hheld.
  destruct (batch_endpoint _ _ _ _ _) as [e|[objs name]] eqn:Hend.
  - intros (next' & q2 & Hrun & Hret)%bind_inv.
    assert (q' = q2) as -> by by injection Hret.
    apply Hsame.
    apply (steps_Ok _ _ _ _ _ (dispatched_failed_batch e batch []) Hrun).
  - apply Hturn; [done | done | done |].
    rewrite (one_object_per_request w Hw _ _ _ _ _ _ Hend).
    unfold ApiObjects. by rewrite <- list_fmap_compose.
Qed.

(** No object has used more retries than it may, and an object still to be
    processed has been handed to the adapter no more often than it has been
    retried; a closed one, at most once more. *)
Definition within_budget (q : TransferQueue) (pending : list string) : Prop :=
  forall oid,
    CountFor oid (rc q) <= MaxRetries (rc q) /\
    Z.of_nat (dispatches oid q)
    <= CountFor oid (rc q) + (if decide (oid ∈ pending) then 0 else 1).

Lemma turn_budget w closing batch q next err q' :
  well_behaved w ->
  looping q closing batch ->
  within_budget q (t_Oid <$> batch ++ incoming q) ->
  enqueueAndCollectRetriesFor w (sort_Sort (sort_Reverse Less) batch) q
  = Ok (next, err) q' ->
  within_budget q' (t_Oid <$> next ++ incoming q').
Proof.
  intros Hw Hloop Hbudget Hrun.
  set (sorted := sort_Sort (sort_Reverse Less) batch) in *.
  assert (Hsorted : sorted ≡ₚ batch) by apply sort_Sort_Permutation.
  pose proof (lp_ready _ _ _ Hloop) as Hready.
  assert (Hheld : held q sorted).
  { eapply held_Permutation; [exact Hsorted |].
    eapply held_app_l, lp_held, Hloop. }
  destruct (enqueueAndCollectRetriesFor_next w sorted q next err q'
              Hw Hready Hheld Hrun)
    as (cl & _ & Hperm & Hnext & Hrc & _ & Hinc & _ & _ & Hnd).
  pose proof (hd_distinct _ _ (lp_held _ _ _ Hloop)) as Hdist.
  rewrite fmap_app in Hdist.
  apply NoDup_app in Hdist as (_ & Hdisj & _).
  intros oid. destruct (Hbudget oid) as [Hcount Hdisp].
  destruct (enqueueAndCollectRetriesFor_dispatches w sorted q next err q' oid
              Hw Hready Hheld Hrun) as [[_ Hmore] Hother].
  rewrite Hsorted in Hother, Hperm.
  rewrite Hrc, MaxRetries_incremented, Hinc, !fmap_app.
  rewrite fmap_app in Hdisp.
  destruct (decide (oid ∈ t_Oid <$> next)) as [Hin|Hnotin].
  - assert (Hlt : CountFor oid (rc q) < MaxRetries (rc q)).
    { apply list_elem_of_fmap_1 in Hin as (t & -> & Hin). by apply Hnext. }
    assert (Hbatch : oid ∈ t_Oid <$> batch).
    { rewrite <- Hperm. apply elem_of_app. by right. }
    rewrite CountFor_incremented_in by (done || apply Hready).
    rewrite decide_True in Hdisp by (apply elem_of_app; by left).
    rewrite decide_True by (apply elem_of_app; by left). lia.
  - rewrite CountFor_incremented_notin by done. split; [done |].
    destruct (decide (oid ∈ t_Oid <$> batch)) as [Hbatch|Hnobatch].
    + rewrite decide_True in Hdisp by (apply elem_of_app; by left).
      rewrite decide_False; [lia |].
      intros [?|Hi]%elem_of_app; [done | by apply (Hdisj oid)].
    + rewrite (Hother Hnobatch).
      destruct (decide (oid ∈ t_Oid <$> incoming q)) as [Hi|Hni].
      * rewrite decide_True in Hdisp by (apply elem_of_app; by right).
        rewrite decide_True by (apply elem_of_app; by right). done.
      * rewrite decide_False in Hdisp
          by (intros [?|?]%elem_of_app; done).
        rewrite decide_False by (intros [?|?]%elem_of_app; done). done.
Qed.

Lemma within_budget_same q q' pending :
  rc q' = rc q -> dispatched q' = dispatched q ->
  within_budget q pending -> within_budget q' pending.
Proof.
  intros Hrc Hd Hb oid. unfold dispatches. rewrite Hrc, Hd. apply Hb.
Qed.

Lemma rc_receive (closing : bool) (batch : Batch) :
  steps (same rc) (if closing then ret (closing, batch) else receive batch).
Proof. same_steps rc. Qed.

Lemma dispatched_receive (closing : bool) (batch : Batch) :
  steps (same dispatched) (if closing then ret (closing, batch) else receive batch).
Proof. same_steps dispatched. Qed.

(** When the batching loop returns, no object has been handed to the adapter
    more than once per retry it was allowed, and once more. *)
Lemma collectBatches_loop_budget w :
  well_behaved w ->
  forall fuel closing batch q q',
  looping q closing batch ->
  within_budget q (t_Oid <$> batch ++ incoming q) ->
  collectBatches_loop w fuel closing batch q = Ok tt q' ->
  forall oid, Z.of_nat (dispatches oid q') <= MaxRetries (rc q) + 1.
Proof.
  intros Hw. induction fuel as [|fuel IH];
    intros closing batch q q' Hloop Hbudget Hrun; [done |].
  cbn [collectBatches_loop] in Hrun.
  destruct (receive_or_keep closing batch q Hloop)
    as (closing1 & batch1 & q1 & Hrun1 & Hloop1 & Happ & _ & _ & Hne1).
  pose proof (steps_Ok _ _ _ _ _ (rc_receive closing batch) Hrun1) as Hrc1.
  pose proof (steps_Ok _ _ _ _ _ (dispatched_receive closing batch) Hrun1) as Hd1.
  unfold same in Hrc1, Hd1.
  rewrite (bind_Ok _ _ _ _ _ Hrun1) in Hrun. cbn [fst snd] in Hrun.
  assert (Hbudget1 : within_budget q1 (t_Oid <$> batch1 ++ incoming q1)).
  { rewrite Happ. by eapply within_budget_same. }
  destruct (turn_Ok w closing1 batch1 q1 Hw Hloop1 Hne1)
    as (next & err & q2 & cl & Hrun2 & Herrc2 & _ & _ & _ & _ & Hcont).
  pose proof (turn_budget w closing1 batch1 q1 next err q2 Hw Hloop1 Hbudget1
                Hrun2) as Hbudget2.
  pose proof (steps_Ok _ _ _ _ _
                (frame_enqueueAndCollectRetriesFor w _) Hrun2) as Hfr2.
  rewrite (bind_Ok _ _ _ _ _ Hrun2) in Hrun. cbn [fst snd] in Hrun.
  set (q3 := match err with
             | Some e => set_errors (errors q2 ++ [e]) q2
             | None => q2
             end).
  assert (Hrun3 : match err with Some e => errorc_send e | None => ret tt end q2
                  = Ok tt q3).
  { subst q3. destruct err as [e|]; [by apply errorc_send_Ok | done]. }
  rewrite (bind_Ok _ _ _ _ _ Hrun3) in Hrun.
  assert (Hq3 : rc q3 = rc q2 /\ dispatched q3 = dispatched q2 /\
                incoming q3 = incoming q2 /\
                (looping q2 closing1 next -> looping q3 closing1 next)).
  { subst q3. destruct err as [e|]; split_and!; try done.
    apply looping_set_errors. }
  destruct Hq3 as (Hrc3 & Hd3 & Hinc3 & Hloop3).
  assert (Hbudget3 : within_budget q3 (t_Oid <$> next ++ incoming q3)).
  { rewrite Hinc3. by eapply within_budget_same. }
  assert (Hmax : MaxRetries (rc q3) = MaxRetries (rc q)).
  { by rewrite Hrc3, (fr_MaxRetries _ _ Hfr2), Hrc1. }
  destruct (closing1 && bool_decide (length next = 0%nat)) eqn:Hstop.
  - assert (q' = q3) as -> by by injection Hrun.
    intros oid. destruct (Hbudget3 oid) as [Hc Hdisp]. rewrite <- Hmax.
    destruct (decide _); lia.
  - destruct (Hcont eq_refl) as [Hloop2 _]. rewrite <- Hmax.
    by eapply IH; [apply Hloop3 | |].
Qed.



(** *** An adapter that fails every transfer *)

(** The batch call succeeds and grants every object, the adapter starts, and
    every transfer fails with an error that can be retried. *)
Record always_failing (w : World) (operation : string) : Prop :=
  mkAlwaysFailing {
    af_well_behaved : well_behaved w;
    af_granted : forall n objs names,
      exists res name,
        batch_endpoint w n operation objs names = inr (res, name) /\
        Forall (fun o => Error o = None /\ is_Some (Rel o operation)) res;
    af_begin : forall n name, adapter_Begin w n name = None;
    af_results : forall n pending,
      Forall (fun res => exists err,
                res_Error res = Some err /\ err_retriable err = true)
        (adapter_Add w n pending)
  }.

Lemma negotiated_granted_loop objs : forall toTransfer q,
  Forall (fun o => Error o = None /\ is_Some (Rel o (transferKind q)) /\
                   is_Some (transferables q !! Oid o)) objs ->
  exists new q',
    foldM negotiated objs toTransfer q = Ok (toTransfer ++ new) q' /\
    transfer_oid <$> new = Oid <$> objs /\
    closed q' = closed q /\ wait q' = wait q /\ errors q' = errors q.
Proof.
  induction objs as [|o objs IH]; intros toTransfer q Hall.
  { exists [], q. by rewrite app_nil_r. }
  apply Forall_cons in Hall as [(He & [a Ha] & [t Ht]) Hall].
  set (q1 := set_meter (meter q ++ [MStartTransfer (t_Name t)])
               (set_objects (<[t_Oid t := o]> (objects q)) q)).
  assert (Hstep : negotiated toTransfer o q
                  = Ok (toTransfer ++ [NewTransfer (t_Name t) o (t_Path t)]) q1).
  { unfold negotiated, bind, get. by rewrite He, Ha, Ht. }
  rewrite (foldM_cons_Ok _ _ _ _ _ _ _ Hstep).
  destruct (IH (toTransfer ++ [NewTransfer (t_Name t) o (t_Path t)]) q1)
    as (new & q' & Hrun & Hoids & Hcl & Hw & Herr); [done |].
  exists (NewTransfer (t_Name t) o (t_Path t) :: new), q'.
  rewrite Hrun, <- app_assoc. split_and!; try done.
  by rewrite !fmap_cons, Hoids.
Qed.

(** The loop over the results of the adapter, when every transfer has failed
    with an error that can be retried: an object is closed, as failed and with
    its error reported, exactly when it has no retry left. *)
Lemma handleTransferResult_failing_loop results : forall retries q,
  errorc_closed q = false ->
  Z.of_nat (length results) <= wait q ->
  Forall (fun res =>
            (exists err, res_Error res = Some err /\ err_retriable err = true) /\
            is_Some (transferables q !! result_oid res)) results ->
  exists new q' cl,
    foldM handleTransferResult results retries q = Ok (retries ++ new) q' /\
    closed q' = closed q ++ cl /\
    Forall (fun p => p.2 = FailedTerminal /\
                     MaxRetries (rc q) <= CountFor p.1 (rc q)) cl /\
    length (errors q') = (length (errors q) + length cl)%nat.
Proof.
  induction results as [|res results IH]; intros retries q Herrc Hwait Hall.
  { exists [], q, []. rewrite !app_nil_r. by split_and!. }
  rewrite length_cons in Hwait.
  apply Forall_cons in Hall as [((err & He & Hretry) & [t Ht]) Hall].
  destruct (decide (CountFor (result_oid res) (rc q) < MaxRetries (rc q)))
    as [Hlt|Hge].
  - assert (Hstep : handleTransferResult retries res q = Ok (retries ++ [t]) q).
    { unfold handleTransferResult, bind, get. rewrite He.
      fold (transfer_oid (res_Transfer res)). fold (result_oid res).
      rewrite (proj2 (canRetryObject_spec q (result_oid res) err)) by done.
      by rewrite Ht. }
    rewrite (foldM_cons_Ok _ _ _ _ _ _ _ Hstep).
    destruct (IH (retries ++ [t]) q Herrc ltac:(lia) Hall)
      as (new & q' & cl & Hrun & Hrest).
    exists (t :: new), q', cl. by rewrite Hrun, <- app_assoc.
  - set (q1 := set_closed (closed q ++ [(result_oid res, FailedTerminal)])
                 (set_wait (wait q - 1) (set_errors (errors q ++ [err]) q))).
    assert (Hstep : handleTransferResult retries res q = Ok retries q1).
    { unfold handleTransferResult, bind, get. rewrite He.
      fold (transfer_oid (res_Transfer res)). fold (result_oid res).
      destruct (canRetryObject q (result_oid res) err) eqn:Hcan.
      { by apply canRetryObject_spec in Hcan as [? _]. }
      rewrite (errorc_send_Ok _ _ Herrc).
      by rewrite wait_Done_Ok by (cbn; lia). }
    rewrite (foldM_cons_Ok _ _ _ _ _ _ _ Hstep).
    destruct (IH retries q1) as (new & q' & cl & Hrun & Hcl & Hall' & Herrs);
      [done | cbn; lia | done |].
    exists new, q', ((result_oid res, FailedTerminal) :: cl).
    rewrite Hrun, Hcl, Herrs. cbn [closed errors set_closed set_wait set_errors q1].
    rewrite <- app_assoc, length_app. cbn [length app].
    split_and!; [done | done | | lia].
    constructor; [| done]. cbn. split; [done | lia].
Qed.

Lemma filter_eq_in {A} (f : A -> string) (y : string) (l : list A) :
  NoDup (f <$> l) -> y ∈ f <$> l ->
  length (filter (fun x => f x = y) l) = 1%nat.
Proof.
  induction l as [|x l IH]; [by intros _ ?%elem_of_nil |].
  rewrite fmap_cons. intros [Hnotin Hnd]%NoDup_cons Hin.
  rewrite filter_cons. destruct (decide (f x = y)) as [<-|Hne].
  - by rewrite filter_eq_notin.
  - apply IH; [done |]. by apply elem_of_cons in Hin as [?|?].
Qed.

(** [addToAdapter], outside a dry run, when the adapter starts and fails every
    transfer. *)
Lemma addToAdapter_failing w operation pending q :
  always_failing w operation ->
  dryRun q = false ->
  errorc_closed q = false ->
  is_Some (adapter q) ->
  Z.of_nat (length pending) <= wait q ->
  Forall (fun t => is_Some (transferables q !! transfer_oid t)) pending ->
  exists retries q' cl,
    addToAdapter w pending q = Ok retries q' /\
    dispatched q' = dispatched q ++ [pending] /\
    closed q' = closed q ++ cl /\
    Forall (fun p => p.2 = FailedTerminal /\
                     MaxRetries (rc q) <= CountFor p.1 (rc q)) cl /\
    length (errors q') = (length (errors q) + length cl)%nat.
Proof.
  intros Hw Hdry Herrc Hadapter Hwait Hknown.
  destruct (ensureAdapterBegun_Ok w q Hadapter) as (err & q1 & Hbegun).
  pose proof (ensureAdapterBegun_begins _ _ _ _ (af_begin _ _ Hw) Hbegun) as ->.
  pose proof (steps_Ok _ _ _ _ _ (frame_ensureAdapterBegun w) Hbegun) as Hfr.
  pose proof (steps_Ok _ _ _ _ _ (rc_ensureAdapterBegun w) Hbegun) as Hrc.
  pose proof (steps_Ok _ _ _ _ _ (closed_ensureAdapterBegun w) Hbegun) as Hcl1.
  assert (Hd1 : steps (same dispatched) (ensureAdapterBegun w))
    by same_steps dispatched.
  assert (He1 : steps (same errors) (ensureAdapterBegun w))
    by same_steps errors.
  apply (steps_Ok _ _ _ _ _ Hd1) in Hbegun as Hdis1.
  apply (steps_Ok _ _ _ _ _ He1) in Hbegun as Herr1.
  unfold same in Hrc, Hcl1, Hdis1, Herr1.
  assert (Hwait1 : wait q1 = wait q).
  { pose proof (fr_account _ _ Hfr) as Hacc. rewrite Hcl1 in Hacc. lia. }
  unfold addToAdapter. rewrite (bind_Ok _ _ _ _ _ Hbegun).
  unfold bind at 1, get at 1.
  rewrite (fr_dryRun _ _ Hfr), Hdry, (bind_Ok _ _ _ _ _ (adapter_Add_call_Ok _ _ _)).
  set (results := adapter_Add w (length (dispatched q1)) pending).
  set (q2 := set_dispatched (dispatched q1 ++ [pending]) q1).
  assert (Hperm : res_Transfer <$> results ≡ₚ pending)
    by apply (one_result_per_transfer w (af_well_behaved _ _ Hw)).
  destruct (handleTransferResult_failing_loop results [] q2)
    as (new & q' & cl & Hrun & Hcl & Hall & Herrs).
  { cbn. by rewrite (fr_errorc_closed _ _ Hfr). }
  { cbn. rewrite Hwait1, <- (length_fmap res_Transfer), Hperm. done. }
  { apply Forall_forall. intros res Hin. split.
    - pose proof (af_results _ _ Hw (length (dispatched q1)) pending) as Hres.
      rewrite Forall_forall in Hres. by apply Hres.
    - cbn. rewrite (fr_transferables _ _ Hfr).
      rewrite Forall_forall in Hknown. apply Hknown.
      rewrite <- Hperm. by apply list_elem_of_fmap_2. }
  exists new, q', cl. split; [exact Hrun |].
  assert (Hd3 : steps (same dispatched) (foldM handleTransferResult results []))
    by same_steps dispatched.
  apply (steps_Ok _ _ _ _ _ Hd3) in Hrun. unfold same in Hrun.
  rewrite Hrun, Hcl, Herrs. cbn in Hall |- *. rewrite Hrc in Hall.
  by rewrite Hdis1, Hcl1, Herr1.
Qed.

(** A turn of the batching loop with such an adapter: every object of the
    batch is handed to the adapter once; those with no retry left are closed
    as failed, one error each, and the others form the next batch. *)
Lemma enqueueAndCollectRetriesFor_failing w batch q :
  always_failing w (transferKind q) ->
  dryRun q = false ->
  ready q -> held q batch ->
  exists next q' cl,
    enqueueAndCollectRetriesFor w batch q = Ok (next, None) q' /\
    closed q' = closed q ++ cl /\
    Forall (fun p => p.2 = FailedTerminal /\
                     MaxRetries (rc q) <= CountFor p.1 (rc q)) cl /\
    length (errors q') = (length (errors q) + length cl)%nat /\
    forall oid,
      dispatches oid q'
      = (dispatches oid q
         + if decide (oid ∈ t_Oid <$> batch) then 1 else 0)%nat.
Proof.
  intros Hw Hdry Hready Hheld.
  assert (Hturn : forall objs name q1,
            dispatched q1 = dispatched q -> closed q1 = closed q ->
            errors q1 = errors q -> rc q1 = rc q -> dryRun q1 = false ->
            transferKind q1 = transferKind q ->
            ready q1 -> held q1 batch ->
            Oid <$> objs ≡ₚ t_Oid <$> batch ->
            Forall (fun o => Error o = None /\
                             is_Some (Rel o (transferKind q))) objs ->
            exists next q' cl,
              transfer_objects w objs name q1 = Ok (next, None) q' /\
              closed q' = closed q ++ cl /\
              Forall (fun p => p.2 = FailedTerminal /\
                               MaxRetries (rc q) <= CountFor p.1 (rc q)) cl /\
              length (errors q') = (length (errors q) + length cl)%nat /\
              forall oid,
                dispatches oid q'
                = (dispatches oid q
                   + if decide (oid ∈ t_Oid <$> batch) then 1 else 0)%nat).
  { clear Hready Hheld Hdry.
    intros objs name q0 Hd0 Hc0 He0 Hr0 Hdry Hkind Hready Hheld Hobjs Hgranted.
    unfold transfer_objects.
    destruct (useAdapter_Ok w name q0) as (q1 & Hrun1 & Had1 & Hcl1 & Hrc1).
    pose proof (steps_Ok _ _ _ _ _ (frame_useAdapter w name) Hrun1) as Hfr1.
    rewrite (bind_Ok _ _ _ _ _ Hrun1).
    destruct (startProgress_Do_Ok q1) as (q2 & Hrun2 & Had2 & Hcl2 & Hrc2).
    pose proof (steps_Ok _ _ _ _ _ frame_startProgress_Do Hrun2) as Hfr2.
    rewrite (bind_Ok _ _ _ _ _ Hrun2).
    assert (Hfr02 : frame q0 q2) by by etrans.
    assert (Hwait2 : wait q2 = wait q0).
    { pose proof (fr_account _ _ Hfr02) as Hacc. rewrite Hcl2, Hcl1 in Hacc. lia. }
    assert (Hkind2 : transferKind q2 = transferKind q).
    { unfold transferKind in *. by rewrite (fr_direction _ _ Hfr02). }
    assert (Hlen : length objs = length batch).
    { rewrite <- (length_fmap Oid objs), Hobjs. apply length_fmap. }
    destruct (negotiated_granted_loop objs [] q2)
      as (new & q3 & Hrun3 & Hoids & Hcl3 & Hwait3 & Herr3).
    { apply Forall_forall. intros o Ho. rewrite Forall_forall in Hgranted.
      destruct (Hgranted o Ho) as [He Hrel]. rewrite Hkind2.
      split_and!; [done | done |]. rewrite (fr_transferables _ _ Hfr02).
      destruct (registered_oid q0 batch (Oid o) Hheld) as (t & _ & _ & Ht);
        [| by eexists].
      rewrite <- Hobjs. by apply list_elem_of_fmap_2. }
    rewrite (bind_Ok _ _ _ _ _ Hrun3). cbn [app].
    pose proof (steps_Ok _ _ _ _ _ (frame_negotiated_loop objs []) Hrun3) as Hfr3.
    pose proof (steps_Ok _ _ _ _ _ (rc_negotiated_loop objs []) Hrun3) as Hrc3.
    pose proof (steps_Ok _ _ _ _ _ (adapter_negotiated_loop objs []) Hrun3) as Had3.
    assert (Hd1 : steps (same dispatched) (useAdapter w name))
      by same_steps dispatched.
    assert (Hd2 : steps (same dispatched) startProgress_Do)
      by same_steps dispatched.
    assert (Hd3 : steps (same dispatched) (foldM negotiated objs []))
      by same_steps dispatched.
    assert (He1 : steps (same errors) (useAdapter w name)) by same_steps errors.
    assert (He2 : steps (same errors) startProgress_Do) by same_steps errors.
    apply (steps_Ok _ _ _ _ _ Hd1) in Hrun1 as Hdis1.
    apply (steps_Ok _ _ _ _ _ Hd2) in Hrun2 as Hdis2.
    apply (steps_Ok _ _ _ _ _ Hd3) in Hrun3 as Hdis3.
    apply (steps_Ok _ _ _ _ _ He1) in Hrun1 as Herr1.
    apply (steps_Ok _ _ _ _ _ He2) in Hrun2 as Herr2.
    unfold same in *.
    assert (Hfr03 : frame q0 q3) by by etrans.
    assert (Hkind3 : transferKind q3 = transferKind q).
    { unfold transferKind in *. by rewrite (fr_direction _ _ Hfr03). }
    destruct (addToAdapter_failing w (transferKind q) new q3 Hw)
      as (retries & q4 & cl & Hrun4 & Hdis4 & Hcl4 & Hall & Herrs).
    { by rewrite (fr_dryRun _ _ Hfr03). }
    { rewrite (fr_errorc_closed _ _ Hfr03). apply Hready. }
    { rewrite Had3, Had2. exact Had1. }
    { rewrite Hwait3, Hwait2, <- (length_fmap transfer_oid), Hoids, length_fmap,
        Hlen. apply Hheld. }
    { apply (Forall_fmap transfer_oid
               (fun oid => is_Some (transferables q3 !! oid))).
      rewrite Hoids. apply Forall_fmap, Forall_forall. intros o Ho. cbn.
      rewrite (fr_transferables _ _ Hfr03).
      destruct (registered_oid q0 batch (Oid o) Hheld) as (t & _ & _ & Ht);
        [| by eexists].
      rewrite <- Hobjs. by apply list_elem_of_fmap_2. }
    rewrite (bind_Ok _ _ _ _ _ Hrun4).
    rewrite (bind_Ok _ _ _ _ _ (enqueue_retry_loop retries [] q4)). cbn [app].
    eexists retries, _, cl. split; [reflexivity |].
    cbn [closed errors set_rc]. rewrite Hcl4, Hcl3, Hcl2, Hcl1, Hc0.
    rewrite Herrs, Herr3, Herr2, Herr1, He0.
    replace (rc q3) with (rc q) in Hall by congruence.
    split_and!; try done.
    intros oid.
    assert (Hd : dispatched (set_rc (incremented (t_Oid <$> retries) (rc q4)) q4)
                 = dispatched q ++ [new]).
    { cbn. congruence. }
    rewrite (dispatches_snoc oid q _ new Hd). f_equal.
    assert (Hnd : NoDup (transfer_oid <$> new)).
    { rewrite Hoids, Hobjs. apply Hheld. }
    destruct (decide (oid ∈ t_Oid <$> batch)) as [Hin|Hnotin].
    - apply filter_eq_in; [done |]. by rewrite Hoids, Hobjs.
    - rewrite filter_eq_notin; [done |]. by rewrite Hoids, Hobjs. }
  rewrite enqueueAndCollectRetriesFor_unfold.
  destruct batch as [|t0 batch0] eqn:Hbatch.
  { rewrite api_Batch_empty. by apply Hturn. }
  rewrite <- Hbatch in *. assert (Hne : batch <> []) by by rewrite Hbatch.
  clear Hbatch t0 batch0.
  rewrite api_Batch_request by by rewrite ApiObjects_nil.
  set (q1 := set_requests _ q).
  assert (Hready1 : ready q1) by by destruct Hready.
  assert (Hheld1 : held q1 batch) by by destruct Hheld.
  destruct (af_granted _ _ Hw (length (requests q)) (ApiObjects batch)
              (GetAdapterNames w (direction q)))
    as (objs & name & Hend & Hgranted).
  rewrite Hend. apply Hturn; try done.
  rewrite (one_object_per_request w (af_well_behaved _ _ Hw) _ _ _ _ _ _ Hend).
  unfold ApiObjects. by rewrite <- list_fmap_compose.
Qed.

(** With such an adapter: no object has used more retries than it may; an
    object still to be processed has been handed to the adapter as often as it
    has been retried; a closed object was closed as failed, after
    [MaxRetries + 1] transfers; and one error was reported per closed
    object. *)
Record spent (q : TransferQueue) (pending : list string) : Prop := mkSpent {
  sp_count : forall oid, CountFor oid (rc q) <= MaxRetries (rc q);
  sp_pending : forall oid,
    oid ∈ pending -> Z.of_nat (dispatches oid q) = CountFor oid (rc q);
  sp_closed :
    Forall (fun p => p.2 = FailedTerminal /\
                     Z.of_nat (dispatches p.1 q) = MaxRetries (rc q) + 1 /\
                     p.1 ∉ pending) (closed q);
  sp_errors : length (errors q) = length (closed q)
}.

Lemma spent_same q q' pending :
  rc q' = rc q -> dispatched q' = dispatched q -> closed q' = closed q ->
  errors q' = errors q ->
  spent q pending -> spent q' pending.
Proof.
  intros Hrc Hd Hc He [H1 H2 H3 H4]. split.
  - intros oid. rewrite Hrc. apply H1.
  - intros oid Hin. rewrite (dispatches_same oid q q' Hd), Hrc. by apply H2.
  - rewrite Hc. eapply Forall_impl; [exact H3 |]. intros p (? & ? & ?).
    by rewrite (dispatches_same p.1 q q' Hd), Hrc.
  - by rewrite He, Hc.
Qed.

Lemma turn_spent w closing batch q next err q' :
  always_failing w (transferKind q) ->
  dryRun q = false ->
  looping q closing batch ->
  spent q (t_Oid <$> batch ++ incoming q) ->
  enqueueAndCollectRetriesFor w (sort_Sort (sort_Reverse Less) batch) q
  = Ok (next, err) q' ->
  err = None /\ spent q' (t_Oid <$> next ++ incoming q').
Proof.
  intros Hw Hdry Hloop [Hcount Hpending Hclosed Herrors] Hrun.
  set (sorted := sort_Sort (sort_Reverse Less) batch) in *.
  assert (Hsorted : sorted ≡ₚ batch) by apply sort_Sort_Permutation.
  pose proof (lp_ready _ _ _ Hloop) as Hready.
  assert (Hheld : held q sorted).
  { eapply held_Permutation; [exact Hsorted |].
    eapply held_app_l, lp_held, Hloop. }
  destruct (enqueueAndCollectRetriesFor_failing w sorted q Hw Hdry Hready Hheld)
    as (next' & q'' & cl & Hrun' & Hcl & Hall & Herrs & Hdisp).
  rewrite Hrun in Hrun'.
  assert (next' = next /\ err = None /\ q'' = q') as (-> & -> & ->)
    by by injection Hrun'.
  clear Hrun'. split; [done |].
  destruct (enqueueAndCollectRetriesFor_next w sorted q next None q'
              (af_well_behaved _ _ Hw) Hready Hheld Hrun)
    as (cl' & Hcl' & Hperm & Hnext & Hrc & _ & Hinc & _ & _ & Hnd).
  assert (cl' = cl) as ->.
  { rewrite Hcl in Hcl'. by apply app_inv_head in Hcl'. }
  pose proof (hd_distinct _ _ (lp_held _ _ _ Hloop)) as Hdist.
  rewrite fmap_app in Hdist.
  apply NoDup_app in Hdist as (Hndb & Hdisj & _).
  rewrite Hsorted in Hperm.
  assert (Hdisp' : forall oid,
            dispatches oid q'
            = (dispatches oid q
               + if decide (oid ∈ t_Oid <$> batch) then 1 else 0)%nat).
  { intros oid. rewrite Hdisp.
    destruct (decide (oid ∈ t_Oid <$> sorted)) as [Hi|Hn];
      destruct (decide (oid ∈ t_Oid <$> batch)) as [Hi'|Hn']; try done;
      exfalso; rewrite Hsorted in *; done. }
  pose proof (Hndb) as Hndp. rewrite <- Hperm in Hndp.
  apply NoDup_app in Hndp as (_ & Hcl_next & _).
  assert (Hnext_batch : forall oid, oid ∈ t_Oid <$> next -> oid ∈ t_Oid <$> batch).
  { intros oid Hin. rewrite <- Hperm. apply elem_of_app. by right. }
  assert (Hcl_batch : forall oid, oid ∈ cl.*1 -> oid ∈ t_Oid <$> batch).
  { intros oid Hin. rewrite <- Hperm. apply elem_of_app. by left. }
  rewrite fmap_app in Hpending.
  split.
  - intros oid. rewrite Hrc, MaxRetries_incremented.
    destruct (decide (oid ∈ t_Oid <$> next)) as [Hin|Hnotin].
    + rewrite CountFor_incremented_in; [| apply Hready | done | done |].
      * apply list_elem_of_fmap_1 in Hin as (t & -> & Hin).
        destruct (Hnext t Hin). lia.
      * apply list_elem_of_fmap_1 in Hin as (t & -> & Hin). by apply Hnext.
    + by rewrite CountFor_incremented_notin.
  - intros oid. rewrite fmap_app, Hinc, Hrc, Hdisp'.
    intros [Hin|Hin]%elem_of_app.
    + rewrite decide_True by by apply Hnext_batch.
      rewrite CountFor_incremented_in; [| apply Hready | done | done |].
      * rewrite <- Hpending by (apply elem_of_app; left; by apply Hnext_batch).
        lia.
      * apply list_elem_of_fmap_1 in Hin as (t & -> & Hin). by apply Hnext.
    + assert (oid ∉ t_Oid <$> batch) by (intros ?; by apply (Hdisj oid)).
      rewrite decide_False by done.
      rewrite CountFor_incremented_notin by (intros ?%Hnext_batch; done).
      rewrite <- Hpending by (apply elem_of_app; by right). lia.
  - rewrite Hcl, Hrc, MaxRetries_incremented, Hinc, fmap_app.
    apply Forall_app. split.
    + eapply Forall_impl; [exact Hclosed |].
      intros [oid how] (Hhow & Hd & Hnotin). cbn in *.
      rewrite fmap_app in Hnotin.
      apply not_elem_of_app in Hnotin as [Hnb Hni].
      rewrite Hdisp', decide_False by done.
      split_and!; [done | lia |].
      intros [?%Hnext_batch|?]%elem_of_app; done.
    + apply Forall_forall. intros [oid how] Hin.
      rewrite Forall_forall in Hall. destruct (Hall _ Hin) as [Hhow Hge].
      cbn in *.
      assert (Hin1 : oid ∈ cl.*1).
      { apply list_elem_of_fmap. by exists (oid, how). }
      pose proof (Hcl_batch oid Hin1) as Hb.
      rewrite Hdisp', decide_True by done.
      pose proof (Hcount oid).
      pose proof (Hpending oid ltac:(apply elem_of_app; by left)).
      split_and!; [done | lia |].
      intros [Hn|Hi]%elem_of_app; [by apply (Hcl_next oid) |].
      by apply (Hdisj oid).
  - rewrite Herrs, Hcl, length_app. lia.
Qed.

Lemma collectBatches_loop_spent w :
  forall fuel closing batch q q',
  always_failing w (transferKind q) ->
  dryRun q = false ->
  looping q closing batch ->
  spent q (t_Oid <$> batch ++ incoming q) ->
  collectBatches_loop w fuel closing batch q = Ok tt q' ->
  Forall (fun p => p.2 = FailedTerminal /\
                   Z.of_nat (dispatches p.1 q') = MaxRetries (rc q) + 1)
    (closed q') /\
  length (errors q') = length (closed q').
Proof.
  induction fuel as [|fuel IH];
    intros closing batch q q' Hw Hdry Hloop Hspent Hrun; [done |].
  cbn [collectBatches_loop] in Hrun.
  destruct (receive_or_keep closing batch q Hloop)
    as (closing1 & batch1 & q1 & Hrun1 & Hloop1 & Happ & Hcl1 & _ & Hne1).
  pose proof (steps_Ok _ _ _ _ _ (rc_receive closing batch) Hrun1) as Hrc1.
  pose proof (steps_Ok _ _ _ _ _ (dispatched_receive closing batch) Hrun1) as Hd1.
  assert (He1 : steps (same errors)
                  (if closing then ret (closing, batch) else receive batch))
    by same_steps errors.
  assert (Hf1 : steps frame
                  (if closing then ret (closing, batch) else receive batch)).
  { destruct closing; [apply steps_ret; apply _ | apply frame_receive]. }
  apply (steps_Ok _ _ _ _ _ He1) in Hrun1 as Herr1.
  apply (steps_Ok _ _ _ _ _ Hf1) in Hrun1 as Hfr1.
  unfold same in Hrc1, Hd1, Herr1.
  rewrite (bind_Ok _ _ _ _ _ Hrun1) in Hrun. cbn [fst snd] in Hrun.
  assert (Hspent1 : spent q1 (t_Oid <$> batch1 ++ incoming q1)).
  { rewrite Happ. by eapply spent_same. }
  assert (Hkind1 : transferKind q1 = transferKind q).
  { unfold transferKind. by rewrite (fr_direction _ _ Hfr1). }
  assert (Hdry1 : dryRun q1 = false) by by rewrite (fr_dryRun _ _ Hfr1).
  destruct (turn_Ok w closing1 batch1 q1 (af_well_behaved _ _ Hw) Hloop1 Hne1)
    as (next & err & q2 & cl & Hrun2 & _ & _ & _ & _ & _ & Hcont).
  destruct (turn_spent w closing1 batch1 q1 next err q2) as [-> Hspent2];
    [by rewrite Hkind1 | done | done | done | done |].
  pose proof (steps_Ok _ _ _ _ _
                (frame_enqueueAndCollectRetriesFor w _) Hrun2) as Hfr2.
  rewrite (bind_Ok _ _ _ _ _ Hrun2) in Hrun. cbn [fst snd] in Hrun.
  unfold bind at 1, ret at 1 in Hrun.
  assert (Hmax : MaxRetries (rc q2) = MaxRetries (rc q)).
  { by rewrite (fr_MaxRetries _ _ Hfr2), Hrc1. }
  destruct (closing1 && bool_decide (length next = 0%nat)) eqn:Hstop.
  - assert (q' = q2) as -> by by injection Hrun.
    destruct Hspent2 as [_ _ Hclosed Herrors]. split; [| done].
    eapply Forall_impl; [exact Hclosed |]. intros p (? & ? & _).
    by rewrite <- Hmax.
  - destruct (Hcont eq_refl) as [Hloop2 _]. rewrite <- Hmax.
    eapply (IH closing1 next q2 q'); try done.
    + unfold transferKind. rewrite (fr_direction _ _ Hfr2).
      by fold (transferKind q1); rewrite Hkind1.
    + by rewrite (fr_dryRun _ _ Hfr2).
Qed.

Lemma world_failing_always_failing err :
  err_retriable err = true -> always_failing (world_failing err) "download".
Proof.
  intros Hretry. split.
  - apply world_failing_well_behaved.
  - intros n objs names. eexists _, _. split; [reflexivity |].
    apply Forall_fmap, Forall_forall. intros o _. cbn. split; [done |].
    unfold Rel. cbn. by rewrite lookup_singleton_eq.
  - done.
  - intros n pending. cbn. apply Forall_fmap, Forall_forall.
    intros t _. by exists err.
Qed.



(** *** The adapter in progress *)

(** While an adapter is in progress, [q.adapter] is not nil. *)
Definition adapter_in_progress_is_set (q : TransferQueue) : Prop :=
  adapterInProgress q = true -> is_Some (adapter q).

Definition keeps_adapter (q q' : TransferQueue) : Prop :=
  adapter_in_progress_is_set q -> adapter_in_progress_is_set q'.

Global Instance keeps_adapter_preorder : PreOrder keeps_adapter.
Proof.
  split; [intros q Hq; exact Hq | intros q1 q2 q3 H12 H23 Hq; by apply H23, H12].
Qed.

Lemma keeps_adapter_same q q' :
  adapter q' = adapter q -> adapterInProgress q' = adapterInProgress q ->
  keeps_adapter q q'.
Proof.
  intros Ha Hp Hq. unfold adapter_in_progress_is_set. by rewrite Ha, Hp.
Qed.

Lemma keeps_adapter_notify_watchers oid : steps keeps_adapter (notify_watchers oid).
Proof.
  intros q. unfold notify_watchers.
  destruct (send_all oid (watchers q)) as [ws [|]]; by apply keeps_adapter_same.
Qed.

Global Hint Resolve keeps_adapter_notify_watchers : steps.

Ltac keeps_adapter_steps :=
  steps_with keeps_adapter
    ltac:(first [ by apply keeps_adapter_same
                | by intros ? ?
                | intros ? ?; cbn; by eexists ]).

Lemma keeps_adapter_collectBatches_loop w fuel closing batch :
  steps keeps_adapter (collectBatches_loop w fuel closing batch).
Proof.
  revert closing batch. induction fuel as [|fuel IH]; intros closing batch.
  - apply steps_stop; apply _.
  - cbn [collectBatches_loop].
    apply (steps_bind keeps_adapter); [keeps_adapter_steps |]. intros cb.
    apply (steps_bind keeps_adapter).
    { unfold enqueueAndCollectRetriesFor, retry_or_close, negotiated,
        addToAdapter, enqueue_retry, handleTransferResult.
      keeps_adapter_steps. }
    intros re. apply (steps_bind keeps_adapter); [keeps_adapter_steps |].
    intros _. destruct (_ && _); [apply steps_ret; apply _ | apply IH].
Qed.



(** *** The batch client *)

(** [batchRequest], [batchResponse] and the part of [http.Response] that
    [tqClient.Batch] reads. *)
Record batchRequest := mkBatchRequest {
  Operation : string;
  Objects : list ObjectResource;
  TransferAdapterNames : list string
}.

Record batchResponse := mkBatchResponse {
  Endpoint : string;
  TransferAdapterName : string;
  response_Objects : list ObjectResource
}.

Record http_Response := mkResponse { StatusCode : Z }.

(** What [tqClient.Batch] calls on its [lfsapi.Client], which is not among
    the sources: the endpoint of an operation and a remote, [NewRequest],
    [DoWithAuth], and [lfsapi.DecodeJSON], which fills the response it is
    given and may fail half-way. *)
Record lfsapi_Client (Request : Type) := mkClient {
  Endpoints_Endpoint : string -> string -> string;
  NewRequest : string -> string -> string -> batchRequest -> error + Request;
  DoWithAuth : string -> Request -> error + http_Response;
  DecodeJSON : http_Response -> batchResponse -> option error * batchResponse;
  Method_URL : Request -> string
}.
Arguments Endpoints_Endpoint {Request} _ _ _.
Arguments NewRequest {Request} _ _ _ _ _.
Arguments DoWithAuth {Request} _ _ _.
Arguments DecodeJSON {Request} _ _ _.
Arguments Method_URL {Request} _ _.

(** The errors [Batch] returns: [errors.Wrap(err, "batch request")], the two
    [errors.Wrap(err, "batch response")], and the [errors.Errorf] for a status
    that is not 200. *)
Inductive batch_error :=
| ErrBatchRequest (err : error)
| ErrBatchResponse (err : error)
| ErrBatchDecode (err : error)
| ErrInvalidStatus (method_url : string) (status : Z).

(** The result of [Batch]: the three values it returns, the request as the
    call leaves it (the call may clear its adapter names), and the requests it
    has handed to [NewRequest]. *)
Record batched := mkBatched {
  b_response : option batchResponse;
  b_http : option http_Response;
  b_error : option batch_error;
  b_request : batchRequest;
  b_sent : list batchRequest
}.

Definition tqClient_Batch {Request} (c : lfsapi_Client Request)
    (remote : string) (bReq : batchRequest) : batched :=
  let bRes := mkBatchResponse "" "" [] in
  if bool_decide (length (Objects bReq) = 0%nat)
  then mkBatched (Some bRes) None None bReq []
  else
    let bReq :=
      match TransferAdapterNames bReq with
      | [name] =>
          if String.eqb name "basic"
          then mkBatchRequest (Operation bReq) (Objects bReq) []
          else bReq
      | _ => bReq
      end in
    let bRes := mkBatchResponse (Endpoints_Endpoint c (Operation bReq) remote)
                  "" [] in
    match NewRequest c "POST" (Endpoint bRes) "objects/batch" bReq with
    | inl err => mkBatched None None (Some (ErrBatchRequest err)) bReq [bReq]
    | inr req =>
        match DoWithAuth c remote req with
        | inl err =>
            mkBatched None None (Some (ErrBatchResponse err)) bReq [bReq]
        | inr res =>
            let d := DecodeJSON c res bRes in
            match d.1 with
            | Some err =>
                mkBatched (Some d.2) (Some res) (Some (ErrBatchDecode err))
                  bReq [bReq]
            | None =>
                if bool_decide (StatusCode res = 200)
                then mkBatched (Some d.2) (Some res) None bReq [bReq]
                else mkBatched None (Some res)
                       (Some (ErrInvalidStatus (Method_URL c req)
                                (StatusCode res))) bReq [bReq]
            end
        end
    end.

(** X24. [tqClient.Batch] returns no error only for a request without
    objects, or when the server has answered with status 200 and the answer
    has been decoded, and then it returns the decoded response; with an error
    it returns no response, unless the decoding is what failed. *)
Theorem Batch_succeeds_only_on_status_200 {Request}
    (c : lfsapi_Client Request) (remote : string) (bReq : batchRequest) :
  let r := tqClient_Batch c remote bReq in
  match b_error r with
  | None =>
      is_Some (b_response r) /\
      (Objects bReq = [] \/
       exists res, b_http r = Some res /\ StatusCode res = 200)
  | Some err =>
      Objects bReq <> [] /\
      (b_response r = None \/ exists e, err = ErrBatchDecode e)
  end.
Proof.
  intros r. subst r. unfold tqClient_Batch.
  case_bool_decide as Hlen.
  { cbn. split; [by eexists |]. left. by apply nil_length_inv. }
  assert (Hne : Objects bReq <> []) by by intros Hnil; rewrite Hnil in Hlen.
  cbv zeta.
  destruct (NewRequest c _ _ _ _) as [err|req]; [cbn; by split; [| left] |].
  destruct (DoWithAuth c remote req) as [err|res]; [cbn; by split; [| left] |].
  destruct (DecodeJSON c res _) as [[err|] bRes] eqn:Hd; cbn [fst snd].
  - cbn. split; [done |]. right. by exists err.
  - case_bool_decide as Hstatus; cbn.
    + split; [by eexists |]. right. by exists res.
    + split; [done | by left].
Qed.

(** X25. [tqClient.Batch] hands at most one request to [NewRequest]. That
    request lists the objects and the operation it was given, and at least one
    object: a request without objects is answered without a call. It never
    names the basic adapter alone: that list is cleared, for the server and
    for the caller; any other list of adapter names is passed as it is. *)
Theorem Batch_sends_no_empty_and_no_basic_request {Request}
    (c : lfsapi_Client Request) (remote : string) (bReq : batchRequest) :
  let r := tqClient_Batch c remote bReq in
  if decide (Objects bReq = [])
  then b_sent r = [] /\ b_request r = bReq
  else
    b_sent r = [b_request r] /\
    Objects (b_request r) = Objects bReq /\
    Operation (b_request r) = Operation bReq /\
    TransferAdapterNames (b_request r)
    = (if decide (TransferAdapterNames bReq = ["basic"]) then []
       else TransferAdapterNames bReq).
Proof.
  intros r. subst r. unfold tqClient_Batch.
  destruct (decide (Objects bReq = [])) as [Hnil|Hne].
  { by rewrite Hnil. }
  rewrite bool_decide_false by (by intros ?%nil_length_inv).
  set (bReq' := match TransferAdapterNames bReq with
                | [] => bReq
                | name :: _ => _
                end).
  assert (Hreq : Objects bReq' = Objects bReq /\
                 Operation bReq' = Operation bReq /\
                 TransferAdapterNames bReq'
                 = (if decide (TransferAdapterNames bReq = ["basic"]) then []
                    else TransferAdapterNames bReq)).
  { subst bReq'. destruct (TransferAdapterNames bReq) as [|name [|]] eqn:Hn;
      [by rewrite decide_False | | by rewrite decide_False].
    destruct (String.eqb name "basic") eqn:Hb.
    - apply String.eqb_eq in Hb as ->. by rewrite decide_True.
    - apply String.eqb_neq in Hb. rewrite decide_False by congruence.
      by rewrite Hn. }
  cbv zeta.
  destruct (NewRequest c _ _ _ _) as [err|req]; [done |].
  destruct (DoWithAuth c remote req) as [err|res]; [done |].
  destruct (DecodeJSON c res _) as [[err|] bRes]; cbn [fst snd]; [done |].
  by case_bool_decide.
Qed.

(** *** [NewDownloadCheckQueue] and [NewDownloadQueue] (package lfs) *)

(** A slice of options can hold nil functions, and the call of a nil function
    panics. The loop [for _, opt := range options { opt(q) }] of
    [NewTransferQueue], on such a slice: *)
Fixpoint apply_options (options : list (option TransferQueueOption)) : M unit :=
  match options with
  | [] => ret tt
  | None :: _ => stop (Panic "invalid memory address or nil pointer dereference")
  | Some opt :: options => modify opt ;;; apply_options options
  end.

(** [NewDownloadQueue(cfg, options...)]. The [NewTransferQueue] it calls takes
    a manifest as well and is not among the sources; the one that is applies
    its options in the loop above, before it starts the queue. *)
Definition NewDownloadQueue (cfg : option Z)
    (options : list (option TransferQueueOption)) : result unit :=
  apply_options options (NewTransferQueue cfg Download []).

(** [NewDownloadCheckQueue(cfg, options...)]:
    [make([]tq.Option, len(options), len(options)+1)] is a slice of
    [len(options)] nil options, to which the two [append] add the options
    given and [tq.DryRun(true)]. *)
Definition NewDownloadCheckQueue (cfg : option Z)
    (options : list TransferQueueOption) : result unit :=
  let allOptions := replicate (length options) None in
  let allOptions := allOptions ++ (Some <$> options) in
  let allOptions := allOptions ++ [Some (DryRun true)] in
  NewDownloadQueue cfg allOptions.

Lemma apply_options_Some options : forall q,
  apply_options (Some <$> options) q
  = Ok tt (foldl (fun q opt => opt q) q options).
Proof.
  induction options as [|opt options IH]; intros q; [done |].
  cbn [fmap list_fmap apply_options foldl]. unfold bind, modify. apply IH.
Qed.

(** X26. [NewDownloadQueue] with options that are all functions builds the
    queue that [NewTransferQueue] builds for the download direction. But
    [NewDownloadCheckQueue] builds a queue, the dry-run download queue, only
    when it is given no option: given any, it puts as many nil options before
    them, and the first of these panics in the loop of [NewTransferQueue],
    before any option is applied. *)
Theorem NewDownloadCheckQueue_panics_on_any_option (cfg : option Z)
    (options : list TransferQueueOption) :
  NewDownloadQueue cfg (Some <$> options)
  = Ok tt (NewTransferQueue cfg Download options) /\
  NewDownloadCheckQueue cfg options
  = match options with
    | [] => Ok tt (NewTransferQueue cfg Download [DryRun true])
    | _ :: _ =>
        Fault (Panic "invalid memory address or nil pointer dereference")
          (NewTransferQueue cfg Download [])
    end.
Proof.
  split.
  - unfold NewDownloadQueue. by rewrite apply_options_Some.
  - unfold NewDownloadCheckQueue, NewDownloadQueue. by destruct options.
Qed.
End Tq.

(** ** Package gitmedia: the command line *)
Module Gitmedia.

(** [Command]; its field [run], the function that [Run] calls on the command
    itself, and the flags that [parse] reads from [Args], are left out: the
    [FlagSet] is represented by its name. *)
Record Command := mkCommand { FlagSet : string; Args : list string }.

(** [SubCommand()], as a function of [os.Args]. *)
Definition SubCommand (os_Args : list string) : string :=
  if bool_decide (length os_Args < 2)%nat then "version"
  else default "" (os_Args !! 1%nat).

(** [NewCommand(run)], as a function of [os.Args]: [os.Args[0]] panics when
    [os.Args] is empty. *)
Definition NewCommand (os_Args : list string) : option Command :=
  let args := if bool_decide (1 < length os_Args)%nat then drop 2 os_Args
              else [] in
  match os_Args !! 0%nat with
  | Some name => Some (mkCommand name args)
  | None => None
  end.

(** X27. [SubCommand] and [NewCommand] split the command line between them:
    the name of the flag set is the program name, and, when a subcommand is
    given, the program name, the subcommand and the arguments of the command
    are [os.Args] again; without one, the subcommand is "version" and the
    command has no arguments. Only an empty [os.Args] makes [NewCommand]
    panic. *)
Theorem SubCommand_and_NewCommand_split_the_command_line
    (os_Args : list string) :
  match NewCommand os_Args with
  | None => os_Args = []
  | Some c =>
      if decide (length os_Args < 2)%nat
      then os_Args = [FlagSet c] /\ SubCommand os_Args = "version" /\ Args c = []
      else os_Args = FlagSet c :: SubCommand os_Args :: Args c
  end.
Proof.
  unfold NewCommand, SubCommand.
  destruct os_Args as [|name [|sub args]]; [done | done |].
  cbn [length lookup list_lookup drop].
  rewrite bool_decide_true by lia. rewrite bool_decide_false by lia.
  rewrite decide_False by lia. done.
Qed.

End Gitmedia.
